(** * MRG-like myelinated fiber: geometry rules, fiber construction and
      threshold search ([neuron_init.py])

    The Python module drives the NEURON simulator.  Its own logic is
    embedded here as Rocq functions:

    - the numeric code is written once over an interface [Scalar] of the
      operations the source uses on Python floats, and instantiated at
      IEEE-754 binary64 (Rocq's primitive floats, what CPython computes
      with) and at the real numbers (exact arithmetic, for comparison);
      the statements about order in binary64 rest on the rounding to
      nearest of the Standard Library's [SpecFloat];
    - NEURON's object store (sections, point processes, vectors, the
      global clock and step) is an explicit state threaded through an
      error-and-state monad; Python exceptions are results [Raise];
    - the simulator behind [h.run()] is a parameter of the development:
      the model records the state each run is started in and lets the
      simulator answer with the recorded series.

    The first part holds the definitions: the embedding of the module,
    then the vocabulary the statements are written in.  The lemmas
    follow, then the claims of the specification, and further properties
    of the module close the file. *)

From Stdlib Require Import String DecimalString.
From Stdlib Require Import ZArith QArith Reals Lra Lia Bool List FinFun.
From Stdlib Require Import Floats Zpower.
From Stdlib Require DecimalPos DecimalZ.
Import ListNotations.

Set Implicit Arguments.
Set Warnings "-inexact-float".

(* ================================================================== *)
(** * Python floats *)
(* ================================================================== *)

(** The operations of the source on floats: decimal literals, [+], [-],
    [*], [x ** 0.5] and the comparisons [<], [<=], [==]. *)
Class Scalar (F : Type) : Type := {
  lit : Q -> F;
  fadd : F -> F -> F;
  fsub : F -> F -> F;
  fmul : F -> F -> F;
  pow_half : F -> F;
  fltb : F -> F -> bool;
  fleb : F -> F -> bool;
  feqb : F -> F -> bool
}.

Declare Scope scalar_scope.
Delimit Scope scalar_scope with sc.
Infix "+" := fadd : scalar_scope.
Infix "-" := fsub : scalar_scope.
Infix "*" := fmul : scalar_scope.
Infix "<?" := fltb : scalar_scope.
Infix "<=?" := fleb : scalar_scope.

(** ** binary64 *)

Module Binary64.

Definition of_Z (z : Z) : float :=
  match z with
  | Z0 => PrimFloat.zero
  | Zpos _ => PrimFloat.of_uint63 (Uint63.of_Z z)
  | Zneg p => PrimFloat.opp (PrimFloat.of_uint63 (Uint63.of_Z (Zpos p)))
  end.

(** A decimal literal [n / 10^k]: numerator and denominator are exact
    binary64 integers for every literal of the source, so the correctly
    rounded quotient is the float the Python parser produces. *)
Definition literal (q : Q) : float :=
  PrimFloat.div (of_Z (Qnum q)) (of_Z (Zpos (Qden q))).

(** [pow] is libm's; it is a parameter of the instance. *)
Definition scalar (pow05 : float -> float) : Scalar float := {|
  lit := literal;
  fadd := PrimFloat.add;
  fsub := PrimFloat.sub;
  fmul := PrimFloat.mul;
  pow_half := pow05;
  fltb := PrimFloat.ltb;
  fleb := PrimFloat.leb;
  feqb := PrimFloat.eqb
|}.

(** The instance with a correctly rounded [x ** 0.5]. *)
Definition std : Scalar float := scalar PrimFloat.sqrt.

End Binary64.

(** ** Real numbers *)

Module Exact.

Definition ltb (a b : R) : bool := if Rlt_dec a b then true else false.
Definition leb (a b : R) : bool := if Rle_dec a b then true else false.
Definition eqb (a b : R) : bool := if Req_dec_T a b then true else false.

Definition scalar : Scalar R := {|
  lit := Q2R;
  fadd := Rplus;
  fsub := Rminus;
  fmul := Rmult;
  pow_half := R_sqrt.sqrt;
  fltb := ltb;
  fleb := leb;
  feqb := eqb
|}.

End Exact.

#[global] Existing Instance Binary64.std.
#[global] Existing Instance Exact.scalar.

(* ================================================================== *)
(** * Module constants and geometry rules *)
(* ================================================================== *)

Section Geometry.

Context {F : Type} {SF : Scalar F}.
Local Open Scope scalar_scope.

Definition DT : F := lit 0.025.
Definition DEFAULT_RA : F := lit 70.0.
Definition CM_NODE : F := lit 1.0.
Definition CM_INTERNODE : F := lit 0.02.
Definition E_LEAK : F := lit (-80.0).
Definition G_NA_BAR : F := lit 0.18.
Definition G_K_BAR : F := lit 0.036.
Definition G_LEAK_NODE : F := lit 0.0003.
Definition G_PAS_INTERN : F := lit 1e-5.

(** Python's [max(a, b)]: the second argument wins only when it is
    strictly greater than the first. *)
Definition py_max (a b : F) : F := if a <? b then b else a.

Definition internode_length_from_diam (diam_um : F) : F :=
  py_max (lit 50.0) (lit 100.0 * diam_um).

Definition node_length_um : F := lit 1.0.

Definition paranode_length_um (diam_um : F) : F :=
  py_max (lit 1.0) (lit 3.0 * pow_half diam_um).

Definition juxta_length_um (diam_um : F) : F :=
  py_max (lit 5.0) (lit 10.0 * pow_half diam_um).

End Geometry.

(* ================================================================== *)
(** * The NEURON object store *)
(* ================================================================== *)

Inductive PyErr : Type := IndexError | ValueError | AttributeError.

Inductive Res (A : Type) : Type :=
| Ok (a : A)
| Raise (e : PyErr).
Arguments Ok {A} a.
Arguments Raise {A} e.

(** Loop control of a [for] body: fall through to the next item, or
    [break]. *)
Inductive Ctl : Type := Next | Break.

Section Neuron.

Context {F : Type} {SF : Scalar F}.
Local Open Scope scalar_scope.

(** ** Objects *)

Record HHParams := mkHH { gnabar_hh : F; gkbar_hh : F; gl_hh : F; el_hh : F }.
Record PasParams := mkPas { g_pas : F; e_pas : F }.

(** A section ([h.Section]); [sec_parent] is the point of the parent its
    0-end is connected to; [sec_v] is the membrane potential. *)
Record Sec := mkSec {
  sec_name : string;
  sec_L : F;
  sec_diam : F;
  sec_Ra : F;
  sec_nseg : Z;
  sec_cm : F;
  sec_hh : option HHParams;
  sec_pas : option PasParams;
  sec_parent : option (nat * F);
  sec_v : F
}.

(** A variable of the simulator a Vector can play into or record. *)
Inductive Ref : Type :=
| Ref_t
| Ref_v (sec : nat) (x : F)
| Ref_i (stim : nat).

Record IClamp := mkIClamp {
  ic_sec : nat; ic_x : F; ic_delay : F; ic_dur : F; ic_amp : F
}.

(** [src.play(dst, tvec, continuous)] and [vec.record(src)]. *)
Record Play := mkPlay {
  play_src : nat; play_dst : Ref; play_tvec : nat; play_cont : Z
}.
Record Rec := mkRec { rec_vec : nat; rec_src : Ref }.

(** The state [h.run()] is called in, as the simulator sees it: the
    sections with their potentials, the live point sources with the
    waveforms played into their current, the clock, the step and the stop
    time.  It mentions no Python handle. *)
Record Source := mkSource {
  src_clamp : IClamp;
  src_waves : list (list F * list F * Z)
}.
Record RunInput := mkRunInput {
  ri_secs : list Sec;
  ri_sources : list Source;
  ri_t : F;
  ri_dt : F;
  ri_tstop : F
}.

(** The simulator behind [h.run()]: from the state it is called in, the
    series a recording Vector holds after the run (its first sample and
    the rest), and where the run leaves the potentials and the clock.
    How it gets there, the initialisation stdrun performs on its own
    included, is its business. *)
Record Solver := mkSolver {
  trace : RunInput -> Ref -> F * list F;
  final_v : RunInput -> nat -> F;
  final_t : RunInput -> F
}.

(** Sections, point processes and Vectors are referred to by their index
    in the store; a destroyed point process or Vector leaves [None].
    [w_runs] is the history of the runs and [w_out] what was printed. *)
Record World := mkWorld {
  w_secs : list Sec;
  w_stims : list (option IClamp);
  w_vecs : list (option (list F));
  w_plays : list Play;
  w_recs : list Rec;
  w_t : F;
  w_dt : F;
  w_tstop : F;
  w_runs : list RunInput;
  w_out : list string
}.

(** The store after [h.load_file("stdrun.hoc")]. *)
Definition fresh : World :=
  mkWorld [] [] [] [] [] (lit 0.0) (lit 0.025) (lit 5.0) [] [].

(** ** The monad *)

Definition M (A : Type) : Type := World -> Res A * World.

Definition ret {A} (a : A) : M A := fun w => (Ok a, w).
Definition raise {A} (e : PyErr) : M A := fun w => (Raise e, w).
Definition bind {A B} (m : M A) (k : A -> M B) : M B :=
  fun w => match m w with
           | (Ok a, w') => k a w'
           | (Raise e, w') => (Raise e, w')
           end.
Definition modify (f : World -> World) : M unit := fun w => (Ok tt, f w).

End Neuron.

Arguments HHParams F : clear implicits.
Arguments PasParams F : clear implicits.
Arguments Sec F : clear implicits.
Arguments Ref F : clear implicits.
Arguments IClamp F : clear implicits.
Arguments Play F : clear implicits.
Arguments Rec F : clear implicits.
Arguments Source F : clear implicits.
Arguments RunInput F : clear implicits.
Arguments Solver F : clear implicits.
Arguments World F : clear implicits.
Arguments M F A : clear implicits.
Arguments Ref_t {F}.

Notation "x <- m ;; k" := (bind m (fun x => k))
  (at level 61, m at next level, right associativity).
Notation "' pat <- m ;; k" := (bind m (fun x => match x with pat => k end))
  (at level 61, pat pattern, m at next level, right associativity).
Notation "m ;;; k" := (bind m (fun _ => k))
  (at level 61, right associativity).

(** ** Python lists and loops *)

Section PyLists.

Context {F : Type}.

(** [range(n)]. *)
Definition range (n : Z) : list Z := map Z.of_nat (seq 0 (Z.to_nat n)).

(** [len(xs)]. *)
Definition len {A} (xs : list A) : Z := Z.of_nat (length xs).

(** [xs[i]]: a negative index counts from the end; out of range raises. *)
Definition index_of {A} (xs : list A) (i : Z) : option A :=
  let j := if (i <? 0)%Z then (i + len xs)%Z else i in
  if (j <? 0)%Z then None else nth_error xs (Z.to_nat j).

Definition py_index {A} (xs : list A) (i : Z) : M F A :=
  match index_of xs i with
  | Some a => ret a
  | None => raise IndexError
  end.

(** [for x in xs: body], the loop state threaded through the body. *)
Fixpoint for_in {A S} (xs : list A) (body : A -> S -> M F (S * Ctl)) (s : S)
  : M F S :=
  match xs with
  | [] => ret s
  | x :: xs' =>
      r <- body x s ;;
      match snd r with
      | Break => ret (fst r)
      | Next => for_in xs' body (fst r)
      end
  end.

(** Replace the element at index [i], if there is one. *)
Fixpoint upd {A} (i : nat) (f : A -> A) (xs : list A) : list A :=
  match xs, i with
  | [], _ => []
  | x :: xs', O => f x :: xs'
  | x :: xs', S i' => x :: upd i' f xs'
  end.

End PyLists.

(** ** The simulator's interface *)

Section Api.

Context {F : Type} {SF : Scalar F}.
Variable solver : Solver F.
Local Open Scope scalar_scope.

Definition on_secs (f : list (Sec F) -> list (Sec F)) (w : World F) : World F :=
  mkWorld (f (w_secs w)) (w_stims w) (w_vecs w) (w_plays w) (w_recs w)
          (w_t w) (w_dt w) (w_tstop w) (w_runs w) (w_out w).
Definition on_stims (f : list (option (IClamp F)) -> list (option (IClamp F)))
  (w : World F) : World F :=
  mkWorld (w_secs w) (f (w_stims w)) (w_vecs w) (w_plays w) (w_recs w)
          (w_t w) (w_dt w) (w_tstop w) (w_runs w) (w_out w).
Definition on_vecs (f : list (option (list F)) -> list (option (list F)))
  (w : World F) : World F :=
  mkWorld (w_secs w) (w_stims w) (f (w_vecs w)) (w_plays w) (w_recs w)
          (w_t w) (w_dt w) (w_tstop w) (w_runs w) (w_out w).
Definition on_plays (f : list (Play F) -> list (Play F)) (w : World F) : World F :=
  mkWorld (w_secs w) (w_stims w) (w_vecs w) (f (w_plays w)) (w_recs w)
          (w_t w) (w_dt w) (w_tstop w) (w_runs w) (w_out w).
Definition on_recs (f : list (Rec F) -> list (Rec F)) (w : World F) : World F :=
  mkWorld (w_secs w) (w_stims w) (w_vecs w) (w_plays w) (f (w_recs w))
          (w_t w) (w_dt w) (w_tstop w) (w_runs w) (w_out w).
Definition with_t (x : F) (w : World F) : World F :=
  mkWorld (w_secs w) (w_stims w) (w_vecs w) (w_plays w) (w_recs w)
          x (w_dt w) (w_tstop w) (w_runs w) (w_out w).
Definition with_dt (x : F) (w : World F) : World F :=
  mkWorld (w_secs w) (w_stims w) (w_vecs w) (w_plays w) (w_recs w)
          (w_t w) x (w_tstop w) (w_runs w) (w_out w).
Definition with_tstop (x : F) (w : World F) : World F :=
  mkWorld (w_secs w) (w_stims w) (w_vecs w) (w_plays w) (w_recs w)
          (w_t w) (w_dt w) x (w_runs w) (w_out w).
Definition log_run (ri : RunInput F) (w : World F) : World F :=
  mkWorld (w_secs w) (w_stims w) (w_vecs w) (w_plays w) (w_recs w)
          (w_t w) (w_dt w) (w_tstop w) (w_runs w ++ [ri]) (w_out w).
Definition log_out (s : string) (w : World F) : World F :=
  mkWorld (w_secs w) (w_stims w) (w_vecs w) (w_plays w) (w_recs w)
          (w_t w) (w_dt w) (w_tstop w) (w_runs w) (w_out w ++ [s]).

(** *** Sections *)

(** [h.Section(name=...)], with NEURON's defaults. *)
Definition default_sec (name : string) : Sec F :=
  mkSec name (lit 100.0) (lit 500.0) (lit 35.4) 1 (lit 1.0) None None None
        (lit (-65.0)).

Definition h_Section (name : string) : M F nat :=
  fun w => (Ok (length (w_secs w)), on_secs (fun l => l ++ [default_sec name]) w).

Definition set_sec (s : nat) (f : Sec F -> Sec F) : M F unit :=
  modify (on_secs (upd s f)).

Definition set_L (s : nat) (x : F) : M F unit :=
  set_sec s (fun c => mkSec (sec_name c) x (sec_diam c) (sec_Ra c) (sec_nseg c)
    (sec_cm c) (sec_hh c) (sec_pas c) (sec_parent c) (sec_v c)).
Definition set_diam (s : nat) (x : F) : M F unit :=
  set_sec s (fun c => mkSec (sec_name c) (sec_L c) x (sec_Ra c) (sec_nseg c)
    (sec_cm c) (sec_hh c) (sec_pas c) (sec_parent c) (sec_v c)).
Definition set_Ra (s : nat) (x : F) : M F unit :=
  set_sec s (fun c => mkSec (sec_name c) (sec_L c) (sec_diam c) x (sec_nseg c)
    (sec_cm c) (sec_hh c) (sec_pas c) (sec_parent c) (sec_v c)).
Definition set_nseg (s : nat) (n : Z) : M F unit :=
  set_sec s (fun c => mkSec (sec_name c) (sec_L c) (sec_diam c) (sec_Ra c) n
    (sec_cm c) (sec_hh c) (sec_pas c) (sec_parent c) (sec_v c)).
Definition set_cm (s : nat) (x : F) : M F unit :=
  set_sec s (fun c => mkSec (sec_name c) (sec_L c) (sec_diam c) (sec_Ra c)
    (sec_nseg c) x (sec_hh c) (sec_pas c) (sec_parent c) (sec_v c)).
Definition with_hh (o : option (HHParams F)) (c : Sec F) : Sec F :=
  mkSec (sec_name c) (sec_L c) (sec_diam c) (sec_Ra c) (sec_nseg c)
    (sec_cm c) o (sec_pas c) (sec_parent c) (sec_v c).
Definition with_pas (o : option (PasParams F)) (c : Sec F) : Sec F :=
  mkSec (sec_name c) (sec_L c) (sec_diam c) (sec_Ra c) (sec_nseg c)
    (sec_cm c) (sec_hh c) o (sec_parent c) (sec_v c).
Definition with_parent (o : option (nat * F)) (c : Sec F) : Sec F :=
  mkSec (sec_name c) (sec_L c) (sec_diam c) (sec_Ra c) (sec_nseg c)
    (sec_cm c) (sec_hh c) (sec_pas c) o (sec_v c).
Definition with_v (x : F) (c : Sec F) : Sec F :=
  mkSec (sec_name c) (sec_L c) (sec_diam c) (sec_Ra c) (sec_nseg c)
    (sec_cm c) (sec_hh c) (sec_pas c) (sec_parent c) x.

(** [sec.insert('hh')] and [sec.insert('pas')], with the mechanisms'
    default parameters; inserting twice changes nothing. *)
Definition insert_hh (s : nat) : M F unit :=
  set_sec s (fun c => match sec_hh c with
    | Some _ => c
    | None => with_hh (Some (mkHH (lit 0.12) (lit 0.036) (lit 0.0003) (lit (-54.3)))) c
    end).
Definition insert_pas (s : nat) : M F unit :=
  set_sec s (fun c => match sec_pas c with
    | Some _ => c
    | None => with_pas (Some (mkPas (lit 0.001) (lit (-70.0)))) c
    end).

(** Assigning a parameter of a mechanism the section does not have
    raises. *)
Definition set_hh_param (s : nat) (f : HHParams F -> HHParams F) : M F unit :=
  fun w => match nth_error (w_secs w) s with
    | Some c => match sec_hh c with
                | Some p => set_sec s (with_hh (Some (f p))) w
                | None => (Raise AttributeError, w)
                end
    | None => (Raise AttributeError, w)
    end.
Definition set_gnabar_hh s (x : F) := set_hh_param s
  (fun p => mkHH x (gkbar_hh p) (gl_hh p) (el_hh p)).
Definition set_gkbar_hh s (x : F) := set_hh_param s
  (fun p => mkHH (gnabar_hh p) x (gl_hh p) (el_hh p)).
Definition set_gl_hh s (x : F) := set_hh_param s
  (fun p => mkHH (gnabar_hh p) (gkbar_hh p) x (el_hh p)).
Definition set_el_hh s (x : F) := set_hh_param s
  (fun p => mkHH (gnabar_hh p) (gkbar_hh p) (gl_hh p) x).

Definition set_pas_param (s : nat) (f : PasParams F -> PasParams F) : M F unit :=
  fun w => match nth_error (w_secs w) s with
    | Some c => match sec_pas c with
                | Some p => set_sec s (with_pas (Some (f p))) w
                | None => (Raise AttributeError, w)
                end
    | None => (Raise AttributeError, w)
    end.
Definition set_g_pas s (x : F) := set_pas_param s (fun p => mkPas x (e_pas p)).
Definition set_e_pas s (x : F) := set_pas_param s (fun p => mkPas (g_pas p) x).

(** [child.connect(parent(x))]: the 0-end of [child] is attached to the
    point [x] of [parent]. *)
Definition connect (child parent : nat) (x : F) : M F unit :=
  set_sec child (with_parent (Some (parent, x))).

(** [try: body except Exception: pass]. *)
Definition try_pass (body : M F unit) : M F unit :=
  fun w => match body w with
           | (Raise _, w') => (Ok tt, w')
           | r => r
           end.

(** *** Point processes and Vectors *)

(** [h.IClamp(sec(x))]: a current clamp with NEURON's defaults. *)
Definition h_IClamp (sec : nat) (x : F) : M F nat :=
  fun w => (Ok (length (w_stims w)),
            on_stims (fun l => l ++ [Some (mkIClamp sec x (lit 0.0) (lit 0.0) (lit 0.0))]) w).

Definition set_stim (i : nat) (f : IClamp F -> IClamp F) : M F unit :=
  modify (on_stims (upd i (option_map f))).
Definition set_delay (i : nat) (x : F) : M F unit :=
  set_stim i (fun c => mkIClamp (ic_sec c) (ic_x c) x (ic_dur c) (ic_amp c)).
Definition set_dur (i : nat) (x : F) : M F unit :=
  set_stim i (fun c => mkIClamp (ic_sec c) (ic_x c) (ic_delay c) x (ic_amp c)).

(** [h.Vector(data)]. *)
Definition h_Vector (data : list F) : M F nat :=
  fun w => (Ok (length (w_vecs w)), on_vecs (fun l => l ++ [Some data]) w).

(** [src.play(dst, tvec, continuous)]. *)
Definition vec_play (src : nat) (dst : Ref F) (tvec : nat) (continuous : Z)
  : M F unit :=
  modify (on_plays (fun l => l ++ [mkPlay src dst tvec continuous])).

(** [vec.record(src)]. *)
Definition vec_record (vec : nat) (src : Ref F) : M F unit :=
  modify (on_recs (fun l => l ++ [mkRec vec src])).

(** [np.array(vec)]: the content of a Vector. *)
Definition np_array (vec : nat) : M F (list F) :=
  fun w => match nth_error (w_vecs w) vec with
           | Some (Some data) => (Ok data, w)
           | _ => (Raise ValueError, w)
           end.

(** NumPy's maximum of two floats: a NaN on either side wins. *)
Definition is_nan (a : F) : bool := negb (feqb a a).
Definition np_maximum (a b : F) : F :=
  if (b <=? a) || is_nan a then a else b.

(** [arr.max()]; an empty array raises. *)
Definition np_max (arr : list F) : M F F :=
  match arr with
  | [] => raise ValueError
  | a :: rest => ret (fold_left np_maximum rest a)
  end.

(** A Python object whose last reference is dropped is destroyed, and
    NEURON forgets the playing and recording that went through it. *)
Definition uses_vec (v : nat) (p : Play F) : bool :=
  (play_src p =? v)%nat || (play_tvec p =? v)%nat.
Definition plays_into (i : nat) (p : Play F) : bool :=
  match play_dst p with
  | Ref_i j => (j =? i)%nat
  | _ => false
  end.
Definition del_vec (v : nat) : M F unit :=
  modify (fun w =>
    on_recs (filter (fun r => negb (rec_vec r =? v)%nat))
      (on_plays (filter (fun p => negb (uses_vec v p)))
        (on_vecs (upd v (fun _ => None)) w))).
Definition del_stim (i : nat) : M F unit :=
  modify (fun w =>
    on_plays (filter (fun p => negb (plays_into i p)))
      (on_stims (upd i (fun _ => None)) w)).

(** [print(s)]. *)
Definition print (s : string) : M F unit := modify (log_out s).

(** *** Running *)

Definition set_tstop (x : F) : M F unit := modify (with_tstop x).
Definition set_dt (x : F) : M F unit := modify (with_dt x).

(** [h.finitialize(v)]: the clock back to 0 and every section at the
    potential [v]. *)
Definition h_finitialize (v : F) : M F unit :=
  modify (fun w => with_t (lit 0.0) (on_secs (map (with_v v)) w)).

(** The waveforms played into the current of the clamp [i]. *)
Definition waves_of (w : World F) (i : nat) : list (list F * list F * Z) :=
  flat_map (fun p =>
    if plays_into i p then
      match nth_error (w_vecs w) (play_src p), nth_error (w_vecs w) (play_tvec p) with
      | Some (Some amps), Some (Some times) => [(amps, times, play_cont p)]
      | _, _ => []
      end
    else []) (w_plays w).

Definition sources (w : World F) : list (Source F) :=
  flat_map (fun io => match snd io with
                      | Some c => [mkSource c (waves_of w (fst io))]
                      | None => []
                      end)
           (combine (seq 0 (length (w_stims w))) (w_stims w)).

Definition snapshot (w : World F) : RunInput F :=
  mkRunInput (w_secs w) (sources w) (w_t w) (w_dt w) (w_tstop w).

(** Every recording Vector receives the series of its variable. *)
Definition record_all (ri : RunInput F) (recs : list (Rec F))
  (vecs : list (option (list F))) : list (option (list F)) :=
  fold_left (fun vs r =>
    upd (rec_vec r)
        (option_map (fun _ => fst (trace solver ri (rec_src r))
                                :: snd (trace solver ri (rec_src r)))) vs)
    recs vecs.

Definition settle (ri : RunInput F) (secs : list (Sec F)) : list (Sec F) :=
  map (fun ic => with_v (final_v solver ri (fst ic)) (snd ic))
      (combine (seq 0 (length secs)) secs).

(** [h.run()]: the simulator is handed the state it is called in; the
    recording Vectors, the potentials and the clock receive its answer,
    and the run is appended to the history. *)
Definition h_run : M F unit :=
  modify (fun w =>
    let ri := snapshot w in
    log_run ri
      (with_t (final_t solver ri)
        (on_vecs (record_all ri (w_recs w))
          (on_secs (settle ri) w)))).

End Api.

(* ================================================================== *)
(** * The program *)
(* ================================================================== *)

(** [f'{prefix}{i}']. *)
Definition fstring (prefix : string) (i : Z) : string :=
  (prefix ++ DecimalString.NilZero.string_of_int (Z.to_int i))%string.

Record Fiber : Type := mkFiber {
  nodes : list nat;
  paranos : list nat;
  juxtas : list nat;
  interns : list nat;
  mid_idx : Z
}.

Section Program.

Context {F : Type} {SF : Scalar F}.
Variable solver : Solver F.
Local Open Scope scalar_scope.

(** ** Build MRG-like fiber *)

(** The four lists the first loop of [make_MRG_fiber] appends to. *)
Definition Lists : Type := (list nat * list nat * list nat * list nat)%type.

(** The statements of the first loop that create the node [i]. *)
Definition make_node (diam_um : F) (i : Z) : M F nat :=
  nd <- h_Section (fstring "node_" i) ;;
  set_L nd node_length_um ;;;
  set_diam nd diam_um ;;;
  set_Ra nd DEFAULT_RA ;;;
  set_nseg nd 1 ;;;
  set_cm nd CM_NODE ;;;
  insert_hh nd ;;;
  try_pass (set_gnabar_hh nd G_NA_BAR ;;;
            set_gkbar_hh nd G_K_BAR ;;;
            set_gl_hh nd G_LEAK_NODE ;;;
            set_el_hh nd E_LEAK) ;;;
  ret nd.

(** The statements that create a paranode, a juxtaparanode or an
    internode: the three blocks of the source differ by the name and the
    length only. *)
Definition make_passive (name : string) (length_um diam_um : F) : M F nat :=
  pn <- h_Section name ;;
  set_L pn length_um ;;;
  set_diam pn diam_um ;;;
  set_Ra pn DEFAULT_RA ;;;
  set_nseg pn 1 ;;;
  set_cm pn CM_INTERNODE ;;;
  insert_pas pn ;;;
  set_g_pas pn G_PAS_INTERN ;;;
  set_e_pas pn E_LEAK ;;;
  ret pn.

(** The body of [for i in range(n_nodes)]. *)
Definition build_body (diam_um : F) (n_nodes : Z) (i : Z) (st : Lists)
  : M F (Lists * Ctl) :=
  let '(nodes, paranos, juxtas, interns) := st in
  nd <- make_node diam_um i ;;
  let nodes := (nodes ++ [nd])%list in
  if (i <? n_nodes - 1)%Z then
    pn <- make_passive (fstring "paranode_" i) (paranode_length_um diam_um) diam_um ;;
    let paranos := (paranos ++ [pn])%list in
    jx <- make_passive (fstring "juxta_" i) (juxta_length_um diam_um) diam_um ;;
    let juxtas := (juxtas ++ [jx])%list in
    intern <- make_passive (fstring "intern_" i)
                (internode_length_from_diam diam_um) diam_um ;;
    let interns := (interns ++ [intern])%list in
    ret ((nodes, paranos, juxtas, interns), Next)
  else
    ret ((nodes, paranos, juxtas, interns), Next).

(** The body of [for i in range(len(nodes)-1)]. *)
Definition connect_body (nodes paranos juxtas interns : list nat) (i : Z)
  (_ : unit) : M F (unit * Ctl) :=
  pn <- py_index paranos i ;;
  nd <- py_index nodes i ;;
  connect pn nd (lit 1.0) ;;;
  jx <- py_index juxtas i ;;
  pn <- py_index paranos i ;;
  connect jx pn (lit 1.0) ;;;
  intern <- py_index interns i ;;
  jx <- py_index juxtas i ;;
  connect intern jx (lit 1.0) ;;;
  nd' <- py_index nodes (i + 1) ;;
  intern <- py_index interns i ;;
  connect nd' intern (lit 1.0) ;;;
  ret (tt, Next).

Definition make_MRG_fiber (diam_um : F) (n_nodes : Z) : M F Fiber :=
  st <- for_in (range n_nodes) (build_body diam_um n_nodes) ([], [], [], []) ;;
  let '(nodes, paranos, juxtas, interns) := st in
  for_in (range (len nodes - 1))
         (connect_body nodes paranos juxtas interns) tt ;;;
  ret (mkFiber nodes paranos juxtas interns (len nodes / 2)).

(** ** Stimulation utilities *)

Definition attach_vector_stim (node_section : nat) (tvec_ms ivec_nA : list F)
  : M F (nat * nat * nat) :=
  stim <- h_IClamp node_section (lit 0.5) ;;
  set_delay stim (lit 0) ;;;
  set_dur stim (lit 1e9) ;;;
  vt <- h_Vector tvec_ms ;;
  vi <- h_Vector ivec_nA ;;
  vec_play vi (Ref_i stim) vt 1 ;;;
  ret (stim, vt, vi).

Definition record_section_v (section : nat) : M F (nat * nat) :=
  vt <- h_Vector [] ;;
  vv <- h_Vector [] ;;
  vec_record vt Ref_t ;;;
  vec_record vv (Ref_v section (lit 0.5)) ;;;
  ret (vt, vv).

Definition run_sim (tstop_ms : F) : M F unit :=
  set_tstop tstop_ms ;;;
  set_dt DT ;;;
  h_finitialize E_LEAK ;;;
  h_run solver.

(** ** Threshold search *)

(** The closure [test_scale] of [find_threshold], with the variables it
    captures.  [stim], [vt] and [vi] are its locals: they are destroyed
    when it returns. *)
Definition test_scale (nodes : list nat) (mid : Z) (tvec_ms base_waveform_nA : list F)
  (rec_v : nat) (s : F) : M F bool :=
  nd <- py_index nodes mid ;;
  h <- attach_vector_stim nd tvec_ms (map (fun b => b * s) base_waveform_nA) ;;
  let '(stim, vt, vi) := h in
  last <- py_index tvec_ms (-1) ;;
  run_sim (last + lit 5.0) ;;;
  Vm <- np_array rec_v ;;
  m <- np_max Vm ;;
  del_vec vi ;;;
  del_vec vt ;;;
  del_stim stim ;;;
  ret (lit 0.0 <? m).

(** The [for] loop of [find_threshold]; its state is [(lo, hi)]. *)
Definition bisect_body (test : F -> M F bool) (tol : F) (it : Z)
  (st : F * F) : M F (F * F * Ctl) :=
  let '(lo, hi) := st in
  let mid_s := lit 0.5 * (lo + hi) in
  ev <- test mid_s ;;
  let '(lo, hi) := if ev : bool then (lo, mid_s) else (mid_s, hi) in
  if (hi - lo) <? tol then ret ((lo, hi), Break) else ret ((lo, hi), Next).

Definition bisect (test : F -> M F bool) (tol : F) (max_iters : Z)
  (lo hi : F) : M F (F * F) :=
  for_in (range max_iters) (bisect_body test tol) (lo, hi).

(** The body of [find_threshold] below the definition of [test_scale]. *)
Definition search (test : F -> M F bool) (scale_lo scale_hi tol : F)
  (max_iters : Z) : M F (option F) :=
  fires_hi <- test scale_hi ;;
  if negb fires_hi then
    print "Warning: high scale did NOT evoke AP. Increase scale_hi." ;;;
    ret None
  else
    fires_lo <- test scale_lo ;;
    if fires_lo : bool then ret (Some scale_lo)
    else
      b <- bisect test tol max_iters scale_lo scale_hi ;;
      ret (Some (snd b)).

(** [record_node_index if record_node_index is not None else
    (len(nodes)-1)]. *)
Definition rec_index (fiber : Fiber) (record_node_index : option Z) : Z :=
  match record_node_index with
  | Some i => i
  | None => (len (nodes fiber) - 1)%Z
  end.

Definition find_threshold (fiber : Fiber) (tvec_ms base_waveform_nA : list F)
  (scale_lo scale_hi tol : F) (max_iters : Z) (record_node_index : option Z)
  : M F (option F) :=
  let nodes := nodes fiber in
  let mid := mid_idx fiber in
  let rec_idx := rec_index fiber record_node_index in
  sec <- py_index nodes rec_idx ;;
  r <- record_section_v sec ;;
  let '(rec_t, rec_v) := r in
  res <- search (test_scale nodes mid tvec_ms base_waveform_nA rec_v)
           scale_lo scale_hi tol max_iters ;;
  del_vec rec_v ;;;
  del_vec rec_t ;;;
  ret res.

End Program.

(* ================================================================== *)
(** * Vocabulary of the specification *)
(* ================================================================== *)

(** ** The bracket of the bisection *)

(** The search as the specification words it: a bracket [(lo, hi)] is
    narrowed by replacing one end by the midpoint, according to whether
    the midpoint fires. *)
Section Bracket.

Context {F : Type} {SF : Scalar F}.
Variable fires : F -> bool.
Local Open Scope scalar_scope.

Definition midpoint (b : F * F) : F := lit 0.5 * (fst b + snd b).

Definition narrow (b : F * F) : F * F :=
  if fires (midpoint b) then (fst b, midpoint b) else (midpoint b, snd b).

(** The bracket after [k] iterations. *)
Definition narrowed (k : nat) (b : F * F) : F * F := Nat.iter k narrow b.

Definition width (b : F * F) : F := snd b - fst b.

(** The midpoints tried in the first [k] iterations. *)
Definition midpoints (k : nat) (b : F * F) : list F :=
  map (fun j => midpoint (narrowed j b)) (seq 0 k).

(** [lo] does not fire and [hi] does. *)
Definition brackets (b : F * F) : Prop :=
  fires (fst b) = false /\ fires (snd b) = true.

(** The iteration the loop stops after: [k] is the first iteration that
    ends with [hi - lo < tol], or the length [n] of the range when there
    is none. *)
Definition stops_at (tol : F) (n k : nat) (b : F * F) : Prop :=
  (k <= n)%nat /\
  (forall j, (0 < j < k)%nat -> (width (narrowed j b) <? tol) = false) /\
  ((k < n)%nat -> (0 < k)%nat /\ (width (narrowed k b) <? tol) = true).

End Bracket.

(** ** Trials *)

Section TrialSpec.

Context {F : Type} {SF : Scalar F}.
Local Open Scope scalar_scope.

(** A trial procedure [test] decides the predicate [fires] and logs the
    run [tag s] at each call, in every store that satisfies [Inv]. *)
Definition Trial (test : F -> M F bool) (fires : F -> bool)
  (tag : F -> RunInput F) (Inv : World F -> Prop) : Prop :=
  forall s w, Inv w ->
    exists w', test s w = (Ok (fires s), w') /\ Inv w' /\
               w_runs w' = (w_runs w ++ [tag s])%list /\
               w_out w' = w_out w.

Definition warning : string :=
  "Warning: high scale did NOT evoke AP. Increase scale_hi.".

(** The clamp [attach_vector_stim] leaves at the section [nd]. *)
Definition stim_at (nd : nat) : IClamp F :=
  mkIClamp nd (lit 0.5) (lit 0) (lit 1e9) (lit 0.0).

(** The run of the trial at scale [s]: every section of [secs] at
    [E_LEAK], one source at the middle of [nd] playing [base * s] over
    [tvec], the clock at 0 with step [DT], up to [tl + 5.0]. *)
Definition trial_input (secs : list (Sec F)) (nd : nat) (tvec base : list F)
  (tl s : F) : RunInput F :=
  mkRunInput (map (with_v E_LEAK) secs)
             [mkSource (stim_at nd) [(map (fun b => b * s) base, tvec, 1%Z)]]
             (lit 0.0) DT (tl + lit 5.0).

(** The maximum of a recorded series. *)
Definition peak (tr : F * list F) : F := fold_left np_maximum (snd tr) (fst tr).

(** The trial at scale [s] fires: the potential recorded at the middle of
    [rsec] exceeds 0. *)
Definition fires_at (solver : Solver F) (secs : list (Sec F)) (nd rsec : nat)
  (tvec base : list F) (tl s : F) : bool :=
  lit 0.0 <? peak (trace solver (trial_input secs nd tvec base tl s)
                               (Ref_v rsec (lit 0.5))).

Definition all_dead {A} (l : list (option A)) : Prop :=
  Forall (fun o => o = None) l.

(** Nothing is playing or recording and no stimulus is attached. *)
Record Quiescent (w : World F) : Prop := {
  q_plays : w_plays w = [];
  q_stims : all_dead (w_stims w);
  q_recs : w_recs w = []
}.

(** The store between two trials of a search that records into the
    Vectors [rt] and [rv]. *)
Record Searching (secs0 : list (Sec F)) (rt rv rsec : nat) (w : World F) : Prop := {
  sr_plays : w_plays w = [];
  sr_stims : all_dead (w_stims w);
  sr_recs : w_recs w = [mkRec rt Ref_t; mkRec rv (Ref_v rsec (lit 0.5))];
  sr_rt : (rt < length (w_vecs w))%nat;
  sr_rv : exists c, nth_error (w_vecs w) rv = Some (Some c);
  sr_secs : map (with_v E_LEAK) (w_secs w) = map (with_v E_LEAK) secs0
}.

(** What a call of [find_threshold] starts from: a quiet store, the
    stimulation node [nd], the recording node [rsec] and the last time
    sample [tl]. *)
Record Ready (fiber : Fiber) (tvec : list F) (record_node_index : option Z)
  (w : World F) (nd rsec : nat) (tl : F) : Prop := {
  rd_quiet : Quiescent w;
  rd_mid : index_of (nodes fiber) (mid_idx fiber) = Some nd;
  rd_rec : index_of (nodes fiber) (rec_index fiber record_node_index) = Some rsec;
  rd_last : index_of tvec (-1) = Some tl
}.

(** A stand-in for the solver, the simplest excitable membrane: the
    recorded potential starts at rest and then follows the injected
    current less a rheobase [theta]. *)
Definition echo (theta : F) : Solver F :=
  mkSolver
    (fun ri _ =>
       (E_LEAK,
        match ri_sources ri with
        | src :: _ =>
            match src_waves src with
            | (amps, _, _) :: _ => map (fun i => i - theta) amps
            | [] => []
            end
        | [] => []
        end))
    (fun _ _ => E_LEAK)
    (fun ri => ri_tstop ri).

End TrialSpec.

(** ** The topology of a fiber *)

Section Topology.

Context {F : Type} {SF : Scalar F}.

Definition hh_node : HHParams F := mkHH G_NA_BAR G_K_BAR G_LEAK_NODE E_LEAK.
Definition pas_myelin : PasParams F := mkPas G_PAS_INTERN E_LEAK.

(** A node and a passive compartment as the first loop of
    [make_MRG_fiber] leaves them: not yet connected. *)
Definition node_sec (d : F) (i : nat) : Sec F :=
  mkSec (fstring "node_" (Z.of_nat i)) node_length_um d DEFAULT_RA 1 CM_NODE
        (Some hh_node) None None (lit (-65.0)).

Definition passive_sec (name : string) (length_um d : F) : Sec F :=
  mkSec name length_um d DEFAULT_RA 1 CM_INTERNODE
        None (Some pas_myelin) None (lit (-65.0)).

(** The sections created for the node [i] of [N]: the node, followed by a
    paranode, a juxtaparanode and an internode unless it is the last. *)
Definition group (d : F) (N i : nat) : list (Sec F) :=
  node_sec d i ::
  if (S i <? N)%nat then
    [passive_sec (fstring "paranode_" (Z.of_nat i)) (paranode_length_um d) d;
     passive_sec (fstring "juxta_" (Z.of_nat i)) (juxta_length_um d) d;
     passive_sec (fstring "intern_" (Z.of_nat i)) (internode_length_from_diam d) d]
  else [].

(** The sections of the first [k] rounds. *)
Definition unwired (d : F) (N k : nat) : list (Sec F) :=
  flat_map (group d N) (seq 0 k).

(** Wiring: the section created [j]-th is attached to the 1-end of the one
    created just before it, for the first [m] sections after the very
    first. *)
Definition link (base m j : nat) (c : Sec F) : Sec F :=
  match j with
  | O => c
  | S j' => if (j <=? m)%nat then with_parent (Some ((base + j')%nat, lit 1.0)) c else c
  end.

Definition linked_from (base m s : nat) (l : list (Sec F)) : list (Sec F) :=
  map (fun jc => link base m (fst jc) (snd jc)) (combine (seq s (length l)) l).

Definition linked (base m : nat) (l : list (Sec F)) : list (Sec F) :=
  linked_from base m 0 l.

(** The sections of a fiber of [N] nodes, the first created with the
    handle [base]. *)
Definition chain (d : F) (base N : nat) : list (Sec F) :=
  linked base (4 * (N - 1)) (unwired d N N).

(** The handles of one kind of compartment: every fourth section. *)
Definition ids (N off base : nat) : list nat :=
  map (fun i => (base + 4 * i + off)%nat) (seq 0 N).

Definition fiber_at (base N : nat) : Fiber :=
  mkFiber (ids N 0 base) (ids (N - 1) 1 base) (ids (N - 1) 2 base)
          (ids (N - 1) 3 base) (Z.of_nat N / 2).

(** The lists of handles after [k] rounds of the first loop. *)
Definition lists_at (base N k : nat) : Lists :=
  (ids k 0 base, ids (Nat.min k (N - 1)) 1 base,
   ids (Nat.min k (N - 1)) 2 base, ids (Nat.min k (N - 1)) 3 base).

(** The store with one more section. *)
Definition push (c : Sec F) (w : World F) : World F :=
  on_secs (fun l => l ++ [c])%list w.

(** The sections [make_MRG_fiber d n] leaves in the store. *)
Definition built (d : F) (n : Z) (w : World F) : World F :=
  on_secs (fun l => l ++ chain d (length l) (Z.to_nat n))%list w.

(** The compartments of a fiber. *)
Definition compartments (f : Fiber) : list nat :=
  (nodes f ++ paranos f ++ juxtas f ++ interns f)%list.

Definition passive_compartments (f : Fiber) : list nat :=
  (paranos f ++ juxtas f ++ interns f)%list.

(** The 0-end of [child] is attached to the 1-end of [parent]. *)
Definition attached (w : World F) (child parent : nat) : Prop :=
  exists c, nth_error (w_secs w) child = Some c /\
            sec_parent c = Some (parent, lit 1.0).

(** The section a compartment is attached to, if any. *)
Definition parent_of (w : World F) (child : nat) : option nat :=
  match nth_error (w_secs w) child with
  | Some c => option_map fst (sec_parent c)
  | None => None
  end.

End Topology.

(** ** The search as a function of the response *)

(** What the search returns, as a function of the response [fires] of
    the fiber alone: the bracket after at most [n] narrowings, the first
    that leaves [hi - lo < tol] being the last; and, around it, the two
    trials of the ends. *)
Section Bisection.

Context {F : Type} {SF : Scalar F}.
Variable fires : F -> bool.
Local Open Scope scalar_scope.

Fixpoint bisection (tol : F) (n : nat) (b : F * F) : F * F :=
  match n with
  | O => b
  | S n' =>
      let b' := narrow fires b in
      if width b' <? tol then b' else bisection tol n' b'
  end.

Definition threshold (lo hi tol : F) (max_iters : Z) : option F :=
  if negb (fires hi) then None
  else if fires lo then Some lo
  else Some (snd (bisection tol (Z.to_nat max_iters) (lo, hi))).

End Bisection.

Section Clock.

Context {F : Type} {SF : Scalar F}.
Local Open Scope scalar_scope.

(** Once a run has been added to the [n0] of the history, the step and
    the stop time are those [run_sim] sets for a waveform ending at
    [tl]. *)
Definition Clocked (n0 : nat) (tl : F) (w : World F) : Prop :=
  (n0 < length (w_runs w))%nat ->
  w_dt w = DT /\ w_tstop w = tl + lit 5.0.

End Clock.

Section Ancestry.

Context {F : Type} {SF : Scalar F}.

(** The section [k] steps towards the root from [id], following the
    parents. *)
Definition ancestor (w : World F) (k : nat) (id : nat) : option nat :=
  Nat.iter k (fun o => match o with
                       | Some x => parent_of w x
                       | None => None
                       end) (Some id).

End Ancestry.

(** The prefixes of the names of the sections, in the order the sections
    of a round are created. *)
Definition kinds : list string :=
  ["node_"; "paranode_"; "juxta_"; "intern_"]%string.

(** ** Rounding in binary64 *)

(** The Standard Library gives the sum, the difference and the product of
    two binary64 numbers as the rounding to nearest, ties to even, of the
    exact result ([SpecFloat.binary_round]).  The definitions below say
    what that rounding computes on a mantissa and an exponent; the facts
    about order that the claims on binary64 rest on are proved from
    them. *)
Section RoundingVocabulary.

Local Open Scope Z_scope.

(** After [k] right shifts of [m0], the record holds the quotient of
    [m0] by [2^k], and its two bits tell where the remainder lies with
    respect to the half of [2^k]. *)
Definition located (m0 k : Z) (mrs : shr_record) : Prop :=
  exists q r, m0 = q * 2 ^ k + r /\ 0 <= r < 2 ^ k /\ 0 <= q /\
    shr_m mrs = q /\ shr_r mrs = (2 ^ k <=? 2 * r) /\
    shr_s mrs = negb ((r =? 0) || (2 * r =? 2 ^ k)).

(** The quotient [q] of a division by [2^n], rounded to nearest with
    ties to even according to the remainder [r]. *)
Definition nearest_even (q r n : Z) : Z :=
  q + (if (2 ^ n <? 2 * r) || ((2 * r =? 2 ^ n) && Z.odd q) then 1 else 0).

(** The float of mantissa [q] and exponent [t], for [0 <= q <= 2^53]:
    a mantissa of 54 bits is renormalised, an exponent above 971
    overflows to infinity. *)
Definition sf_pack (sx : bool) (q t : Z) : spec_float :=
  if q =? 0 then S754_zero sx
  else if q =? 2 ^ 53 then
    (if t + 1 <=? 971 then S754_finite sx (Z.to_pos (2 ^ 52)) (t + 1)
     else S754_infinity sx)
  else if t <=? 971 then S754_finite sx (Z.to_pos q) t else S754_infinity sx.

(** The exponent and the mantissa of the rounding of [m * 2^e]. *)
Definition round_exp (m e : Z) : Z := fexp 53 1024 (Zdigits2 m + e).

Definition round_mant (m e : Z) : Z :=
  if round_exp m e <=? e then m * 2 ^ (e - round_exp m e)
  else nearest_even (m / 2 ^ (round_exp m e - e)) (m mod 2 ^ (round_exp m e - e))
         (round_exp m e - e).

(** The rounding of [m * 2^e], for [m > 0], with the sign [sx]. *)
Definition sf_rnd (sx : bool) (m e : Z) : spec_float :=
  let t := fexp 53 1024 (Zdigits2 m + e) in
  if t <=? e then sf_pack sx (m * 2 ^ (e - t)) t
  else sf_pack sx (nearest_even (m / 2 ^ (t - e)) (m mod 2 ^ (t - e)) (t - e)) t.

(** The rounding of [M * 2^e] for a signed [M]. *)
Definition sf_round (M e : Z) : spec_float :=
  if M =? 0 then S754_zero false
  else if 0 <? M then sf_rnd false M e else sf_rnd true (- M) e.

(** What a rounded mantissa and its exponent satisfy. *)
Definition packable (Q t : Z) : Prop :=
  0 <= Q <= 2 ^ 53 /\ -1074 <= t /\ (-1074 < t -> 2 ^ 52 <= Q).

(** A float that is a number: a zero or a finite float. *)
Definition sf_finite (f : spec_float) : bool :=
  match f with S754_zero _ | S754_finite _ _ _ => true | _ => false end.

(** Its signed mantissa and its exponent, and its value in units of
    [2^c]. *)
Definition sf_mant (f : spec_float) : Z :=
  match f with S754_finite s m _ => cond_Zopp s (Zpos m) | _ => 0 end.

Definition sf_exp (f : spec_float) : Z :=
  match f with S754_finite _ _ e => e | _ => -1074 end.

Definition sf_scaled (f : spec_float) (c : Z) : Z := sf_mant f * 2 ^ (sf_exp f - c).

(** The two zeros are the same number. *)
Definition sf_unsigned (f : spec_float) : spec_float :=
  match f with S754_zero _ => S754_zero false | _ => f end.

(** 0.5 and 1.0. *)
Definition SFhalf : spec_float := S754_finite false 4503599627370496 (-53).


End RoundingVocabulary.

(** A bracket the bisection keeps in order in binary64: its ends are in
    order and doubling them does not overflow (which makes them finite
    numbers). *)
Definition ordered_bracket (b : float * float) : Prop :=
  PrimFloat.leb (fst b) (snd b) = true /\
  PrimFloat.is_finite (fst b + fst b) = true /\
  PrimFloat.is_finite (snd b + snd b) = true.

(** ** Order *)

(** The order facts the geometry rules rest on: [<] is transitive and
    implies [<=], and the floors are ordered numbers. *)
Class Ordered (F : Type) {SF : Scalar F} : Prop := {
  fltb_trans : forall a b c : F,
    fltb a b = true -> fltb b c = true -> fltb a c = true;
  fltb_fleb : forall a b : F, fltb a b = true -> fleb a b = true;
  lit_0_lt_1 : fltb (lit 0.0) (lit 1.0) = true;
  lit_1_lt_5 : fltb (lit 1.0) (lit 5.0) = true;
  lit_5_lt_50 : fltb (lit 5.0) (lit 50.0) = true;
  lit_1_le_1 : fleb (lit 1.0) (lit 1.0) = true;
  lit_5_le_5 : fleb (lit 5.0) (lit 5.0) = true;
  lit_50_le_50 : fleb (lit 50.0) (lit 50.0) = true
}.

(** ** Concrete inputs *)

(** A fiber of three nodes of diameter 5 in binary64, and a waveform of
    three samples with a unit pulse in the middle. *)
#[global] Existing Instance Binary64.std.
#[global] Existing Instance Exact.scalar.

Module Demo.

Definition built_world : Res Fiber * World float :=
  @make_MRG_fiber float Binary64.std 5%float 3 (@fresh float Binary64.std).

Definition fiber : Fiber := fiber_at 0 3.

Definition world : World float := snd built_world.

Definition tvec : list float := [0; 1; 2]%float.

Definition pulse : list float := [0; 1; 0]%float.

(** A second stand-in for the solver, with an excitation window: the
    response grows with the current up to [theta / 2] and is blocked
    above [theta]. *)
Definition window (theta : float) : Solver float :=
  mkSolver
    (fun ri _ =>
       (@E_LEAK float Binary64.std,
        match ri_sources ri with
        | src :: _ =>
            match src_waves src with
            | (amps, _, _) :: _ =>
                map (fun i => PrimFloat.mul i (PrimFloat.sub theta i)) amps
            | [] => []
            end
        | [] => []
        end))
    (fun _ _ => @E_LEAK float Binary64.std)
    (fun ri => ri_tstop ri).


End Demo.

(** A solver whose integration has diverged: every potential is NaN. *)
Definition diverged : Solver float :=
  mkSolver (fun _ _ => (nan, [])) (fun _ _ => nan) (fun ri => ri_tstop ri).


(* ================================================================== *)
(** * Lists *)
(* ================================================================== *)

Section ListFacts.

Context {A : Type}.

Lemma upd_length (i : nat) (f : A -> A) (xs : list A) :
  length (upd i f xs) = length xs.
Proof.
  revert i. induction xs as [|x xs IH]; intros [|i]; cbn; auto.
Qed.

Lemma nth_error_upd_same (i : nat) (f : A -> A) (xs : list A) :
  nth_error (upd i f xs) i = option_map f (nth_error xs i).
Proof.
  revert i. induction xs as [|x xs IH]; intros [|i]; cbn; auto.
Qed.

Lemma nth_error_upd_other (i j : nat) (f : A -> A) (xs : list A) :
  i <> j -> nth_error (upd i f xs) j = nth_error xs j.
Proof.
  revert i j. induction xs as [|x xs IH]; intros [|i] [|j] H; cbn; auto.
  - congruence.
Qed.

Lemma upd_app_last (f : A -> A) (xs : list A) (x : A) :
  upd (length xs) f (xs ++ [x]) = xs ++ [f x].
Proof. induction xs as [|y xs IH]; cbn; [reflexivity | now rewrite IH]. Qed.

Lemma upd_app_left (i : nat) (f : A -> A) (xs ys : list A) :
  (i < length xs)%nat -> upd i f (xs ++ ys) = upd i f xs ++ ys.
Proof.
  revert i. induction xs as [|y xs IH]; intros [|i] H; cbn in *; try lia; auto.
  rewrite IH by lia. reflexivity.
Qed.

Lemma upd_app_right (i : nat) (f : A -> A) (xs ys : list A) :
  upd (length xs + i) f (xs ++ ys) = xs ++ upd i f ys.
Proof. induction xs as [|y xs IH]; cbn; [reflexivity | now rewrite IH]. Qed.

Lemma nth_error_app_last (l : list A) (x : A) :
  nth_error (l ++ [x]) (length l) = Some x.
Proof. rewrite nth_error_app2 by lia. now rewrite Nat.sub_diag. Qed.

Lemma index_of_nat (l : list A) (i : nat) :
  index_of l (Z.of_nat i) = nth_error l i.
Proof.
  unfold index_of.
  assert (H : (Z.of_nat i <? 0)%Z = false) by (apply Z.ltb_ge; lia).
  cbv zeta. rewrite H, H, Nat2Z.id. reflexivity.
Qed.

Lemma range_length (n : Z) : length (range n) = Z.to_nat n.
Proof. unfold range. now rewrite length_map, length_seq. Qed.

End ListFacts.

(* ================================================================== *)
(** * Order on binary64 and on the reals *)
(* ================================================================== *)

Lemma SFltb_trans (x y z : spec_float) :
  SFltb x y = true -> SFltb y z = true -> SFltb x z = true.
Proof.
  unfold SFltb, SFcompare.
  destruct x as [sx|sx| |sx mx ex], y as [sy|sy| |sy my ey],
           z as [sz|sz| |sz mz ez];
    try destruct sx; try destruct sy; try destruct sz;
    try discriminate; try reflexivity.
  all: destruct (Z.compare_spec ex ey), (Z.compare_spec ey ez),
         (Z.compare_spec ex ez); try discriminate; try reflexivity; try lia.
  all: subst;
       change (Pos.compare_cont Eq) with Pos.compare;
       destruct (Pos.compare_spec mx my), (Pos.compare_spec my mz),
         (Pos.compare_spec mx mz); cbn; try discriminate; try reflexivity; lia.
Qed.

Lemma b64_ltb_trans (a b c : float) :
  PrimFloat.ltb a b = true -> PrimFloat.ltb b c = true -> PrimFloat.ltb a c = true.
Proof. rewrite !ltb_spec. apply SFltb_trans. Qed.

Lemma b64_ltb_leb (a b : float) :
  PrimFloat.ltb a b = true -> PrimFloat.leb a b = true.
Proof.
  rewrite ltb_spec, leb_spec. unfold SFltb, SFleb.
  destruct (SFcompare _ _) as [[]|]; congruence.
Qed.

Lemma b64_ordered (pow05 : float -> float) :
  @Ordered float (Binary64.scalar pow05).
Proof.
  constructor; try (vm_compute; reflexivity).
  - exact b64_ltb_trans.
  - exact b64_ltb_leb.
Qed.

Lemma R_ltb_lt (a b : R) : Exact.ltb a b = true <-> (a < b)%R.
Proof. unfold Exact.ltb. destruct (Rlt_dec a b); split; intros; try lra; congruence. Qed.

Lemma R_leb_le (a b : R) : Exact.leb a b = true <-> (a <= b)%R.
Proof. unfold Exact.leb. destruct (Rle_dec a b); split; intros; try lra; congruence. Qed.

Lemma R_lit (n : Z) (d : positive) :
  @lit R Exact.scalar (n # d) = (IZR n / IZR (Zpos d))%R.
Proof. reflexivity. Qed.

Lemma R_ordered : @Ordered R Exact.scalar.
Proof.
  constructor; cbn [fltb fleb lit Exact.scalar]; intros;
    rewrite ?R_ltb_lt, ?R_leb_le in *; unfold Q2R; cbn; try lra.
Qed.


(* ================================================================== *)
(** * The bisection, trial by trial *)
(* ================================================================== *)

Section BracketFacts.

Context {F : Type} {SF : Scalar F}.
Variable fires : F -> bool.
Local Open Scope scalar_scope.

Lemma narrowed_S (k : nat) (b : F * F) :
  narrowed fires (S k) b = narrowed fires k (narrow fires b).
Proof. unfold narrowed. now rewrite Nat.iter_succ_r. Qed.

Lemma midpoints_S (k : nat) (b : F * F) :
  midpoints fires (S k) b = midpoint b :: midpoints fires k (narrow fires b).
Proof.
  unfold midpoints. cbn [seq map]. f_equal.
  rewrite <- seq_shift, map_map.
  apply map_ext. intros j. now rewrite narrowed_S.
Qed.

Lemma narrow_brackets (b : F * F) :
  brackets fires b -> brackets fires (narrow fires b).
Proof.
  unfold brackets, narrow. intros [Hlo Hhi].
  destruct (fires (midpoint b)) eqn:E; cbn; auto.
Qed.

Lemma narrowed_brackets (k : nat) (b : F * F) :
  brackets fires b -> brackets fires (narrowed fires k b).
Proof.
  intros Hb. induction k as [|k IH]; [exact Hb|].
  unfold narrowed in *. cbn [Nat.iter]. now apply narrow_brackets.
Qed.

End BracketFacts.

(** The loop of [find_threshold] against a trial procedure. *)
Section Trials.

Context {F : Type} {SF : Scalar F}.
Variable test : F -> M F bool.
Variable fires : F -> bool.
Variable tag : F -> RunInput F.
Variable Inv : World F -> Prop.
Local Open Scope scalar_scope.

Hypothesis trial : Trial test fires tag Inv.

Lemma bisect_body_run (tol : F) (it : Z) (b : F * F) (w : World F) :
  Inv w ->
  exists w',
    bisect_body test tol it b w =
      (Ok (narrow fires b,
           if width (narrow fires b) <? tol then Break else Next), w') /\
    Inv w' /\
    w_runs w' = (w_runs w ++ [tag (midpoint b)])%list /\
    w_out w' = w_out w.
Proof.
  intros Hw. destruct b as [lo hi].
  destruct (trial (midpoint (lo, hi)) Hw) as (w1 & Ht & Hw1 & Hr1 & Ho1).
  exists w1. split; [|auto].
  unfold bisect_body, bind, narrow, width, midpoint in *.
  cbn [fst snd] in *. rewrite Ht.
  destruct (fires (lit 0.5 * (lo + hi))); cbn [fst snd];
    match goal with
    | |- context [(?x <? tol)] => destruct (x <? tol)
    end; reflexivity.
Qed.

Lemma for_in_bisect (tol : F) (xs : list Z) :
  forall (b : F * F) (w : World F), Inv w ->
  exists k w',
    for_in xs (bisect_body test tol) b w = (Ok (narrowed fires k b), w') /\
    Inv w' /\
    stops_at fires tol (length xs) k b /\
    w_runs w' = (w_runs w ++ map tag (midpoints fires k b))%list /\
    w_out w' = w_out w.
Proof.
  induction xs as [|x xs IH]; intros b w Hw.
  - exists 0%nat, w. unfold stops_at. cbn.
    rewrite app_nil_r. repeat split; try lia; auto.
  - destruct (bisect_body_run tol x b Hw) as (w1 & Hb & Hw1 & Hr1 & Ho1).
    cbn [for_in]. unfold bind at 1. rewrite Hb. cbn [fst snd].
    destruct (width (narrow fires b) <? tol) eqn:Ew.
    + exists 1%nat, w1. unfold stops_at. cbn [length].
      repeat split; auto; try lia.
    + destruct (IH (narrow fires b) w1 Hw1)
        as (k & w2 & Hrun & Hw2 & (Hk & Hbefore & Hstop) & Hr2 & Ho2).
      exists (S k), w2. rewrite narrowed_S, midpoints_S.
      split; [exact Hrun|]. split; [exact Hw2|]. split.
      * unfold stops_at. cbn [length]. split; [lia|]. split.
        -- intros [|[|j]] Hj; [lia| exact Ew |].
           rewrite narrowed_S. apply Hbefore. lia.
        -- intros Hlt. split; [lia|]. rewrite narrowed_S. apply Hstop. lia.
      * split; [|congruence].
        rewrite Hr2, Hr1, <- app_assoc. reflexivity.
Qed.

Hypothesis Inv_print : forall s w, Inv w -> Inv (log_out s w).

Lemma search_not_bracketed (lo hi tol : F) (max_iters : Z) (w : World F) :
  Inv w -> fires hi = false ->
  exists w',
    search test lo hi tol max_iters w = (Ok None, w') /\ Inv w' /\
    w_runs w' = (w_runs w ++ [tag hi])%list /\
    w_out w' = (w_out w ++ [warning])%list.
Proof.
  intros Hw Hhi.
  destruct (trial hi Hw) as (w1 & Ht & Hw1 & Hr1 & Ho1).
  exists (log_out warning w1).
  unfold search, bind. rewrite Ht, Hhi. cbn.
  rewrite Hr1, Ho1. auto.
Qed.

Lemma search_at_lower (lo hi tol : F) (max_iters : Z) (w : World F) :
  Inv w -> fires hi = true -> fires lo = true ->
  exists w',
    search test lo hi tol max_iters w = (Ok (Some lo), w') /\ Inv w' /\
    w_runs w' = (w_runs w ++ [tag hi; tag lo])%list /\
    w_out w' = w_out w.
Proof.
  intros Hw Hhi Hlo.
  destruct (trial hi Hw) as (w1 & Ht & Hw1 & Hr1 & Ho1).
  destruct (trial lo Hw1) as (w2 & Ht2 & Hw2 & Hr2 & Ho2).
  exists w2.
  unfold search, bind. rewrite Ht, Hhi. cbn. rewrite Ht2, Hlo. cbn.
  rewrite Hr2, Hr1, <- app_assoc. repeat split; auto. congruence.
Qed.

Lemma search_bisects (lo hi tol : F) (max_iters : Z) (w : World F) :
  Inv w -> fires hi = true -> fires lo = false ->
  exists k w',
    search test lo hi tol max_iters w =
      (Ok (Some (snd (narrowed fires k (lo, hi)))), w') /\
    Inv w' /\
    stops_at fires tol (Z.to_nat max_iters) k (lo, hi) /\
    w_runs w' =
      (w_runs w ++ map tag (hi :: lo :: midpoints fires k (lo, hi)))%list /\
    w_out w' = w_out w.
Proof.
  intros Hw Hhi Hlo.
  destruct (trial hi Hw) as (w1 & Ht & Hw1 & Hr1 & Ho1).
  destruct (trial lo Hw1) as (w2 & Ht2 & Hw2 & Hr2 & Ho2).
  destruct (for_in_bisect tol (range max_iters) (lo, hi) Hw2)
    as (k & w3 & Hrun & Hw3 & Hstop & Hr3 & Ho3).
  exists k, w3.
  unfold search, bind. rewrite Ht, Hhi. cbn. rewrite Ht2, Hlo.
  unfold bisect. rewrite Hrun. rewrite range_length in Hstop.
  repeat split; try apply Hstop; auto; try congruence.
  rewrite Hr3, Hr2, Hr1, <- !app_assoc. reflexivity.
Qed.

End Trials.

(* ================================================================== *)
(** * One trial of the search *)
(* ================================================================== *)

Section TrialRun.

Context {F : Type} {SF : Scalar F}.
Variable solver : Solver F.
Local Open Scope scalar_scope.

Lemma sources_dead (g : nat -> list (list F * list F * Z)) (l : list (option (IClamp F))) (k : nat) :
  all_dead l ->
  flat_map (fun io => match snd io with
                      | Some c => [mkSource c (g (fst io))]
                      | None => []
                      end) (combine (seq k (length l)) l) = [].
Proof.
  intros H. revert k. induction H as [|o l Ho Hl IH]; intros k; cbn; [reflexivity|].
  subst o. apply IH.
Qed.

Lemma sources_last (g : nat -> list (list F * list F * Z)) (l : list (option (IClamp F))) (c : IClamp F) (k : nat) :
  all_dead l ->
  flat_map (fun io => match snd io with
                      | Some c => [mkSource c (g (fst io))]
                      | None => []
                      end) (combine (seq k (length (l ++ [Some c]))) (l ++ [Some c]))
  = [mkSource c (g (k + length l)%nat)].
Proof.
  intros H. revert k. induction H as [|o l Ho Hl IH]; intros k; cbn.
  - now rewrite Nat.add_0_r.
  - subst o. rewrite IH. now rewrite Nat.add_succ_r.
Qed.

Lemma settle_reset (ri : RunInput F) (v : F) (secs : list (Sec F)) :
  map (with_v v) (settle solver ri secs) = map (with_v v) secs.
Proof.
  unfold settle. generalize 0%nat.
  induction secs as [|c secs IH]; intros k; cbn; [reflexivity|].
  rewrite IH. reflexivity.
Qed.

Lemma with_v_idem (v : F) (secs : list (Sec F)) :
  map (with_v v) (map (with_v v) secs) = map (with_v v) secs.
Proof. rewrite map_map. apply map_ext. intros c. reflexivity. Qed.

Lemma attach_vector_stim_run (nd : nat) (tvec amps : list F) (w : World F) :
  attach_vector_stim nd tvec amps w =
    (Ok (length (w_stims w), length (w_vecs w), S (length (w_vecs w))),
     mkWorld (w_secs w)
             (w_stims w ++ [Some (stim_at nd)])
             (w_vecs w ++ [Some tvec; Some amps])
             (w_plays w ++ [mkPlay (S (length (w_vecs w))) (Ref_i (length (w_stims w)))
                                    (length (w_vecs w)) 1])
             (w_recs w) (w_t w) (w_dt w) (w_tstop w) (w_runs w) (w_out w)).
Proof.
  destruct w as [secs stims vecs plays recs t dt tstop runs out].
  cbv [attach_vector_stim bind h_IClamp set_delay set_dur set_stim modify
       h_Vector vec_play ret on_stims on_vecs on_plays
       w_secs w_stims w_vecs w_plays w_recs w_t w_dt w_tstop w_runs w_out].
  rewrite !upd_app_last. cbn [option_map ic_sec ic_x ic_delay ic_dur ic_amp].
  rewrite length_app, Nat.add_1_r, <- app_assoc. reflexivity.
Qed.

Lemma run_sim_run (x : F) (w : World F) :
  run_sim solver x w =
    (Ok tt,
     let ri := mkRunInput (map (with_v E_LEAK) (w_secs w)) (sources w)
                          (lit 0.0) DT x in
     mkWorld (settle solver ri (map (with_v E_LEAK) (w_secs w)))
             (w_stims w)
             (record_all solver ri (w_recs w) (w_vecs w))
             (w_plays w) (w_recs w) (final_t solver ri) DT x
             (w_runs w ++ [ri]) (w_out w)).
Proof.
  destruct w as [secs stims vecs plays recs t dt tstop runs out].
  reflexivity.
Qed.

Lemma sources_trial (secs : list (Sec F)) (stims : list (option (IClamp F)))
  (vecs : list (option (list F))) (recs : list (Rec F)) (t dt tstop : F)
  (runs : list (RunInput F)) (out : list string) (c : IClamp F)
  (tvec amps : list F) :
  all_dead stims ->
  sources (mkWorld secs (stims ++ [Some c]) (vecs ++ [Some tvec; Some amps])
             [mkPlay (S (length vecs)) (Ref_i (length stims)) (length vecs) 1]
             recs t dt tstop runs out)
  = [mkSource c [(amps, tvec, 1%Z)]].
Proof.
  intros Hs. unfold sources. cbn [w_stims].
  rewrite (sources_last _ c 0 Hs). cbn [Nat.add].
  unfold waves_of. cbn [w_plays w_vecs flat_map plays_into play_dst play_src
                        play_tvec play_cont].
  rewrite Nat.eqb_refl.
  replace (nth_error (vecs ++ [Some tvec; Some amps]) (S (length vecs)))
    with (Some (Some amps)).
  2:{ rewrite nth_error_app2 by lia.
      replace (S (length vecs) - length vecs)%nat with 1%nat by lia.
      reflexivity. }
  rewrite nth_error_app2 by lia. rewrite Nat.sub_diag. reflexivity.
Qed.

Lemma test_scale_trial (nodes : list nat) (mid : Z) (tvec base : list F)
  (nd rsec rt rv : nat) (tl : F) (secs0 : list (Sec F)) :
  index_of nodes mid = Some nd ->
  index_of tvec (-1) = Some tl ->
  Trial (test_scale solver nodes mid tvec base rv)
        (fires_at solver secs0 nd rsec tvec base tl)
        (trial_input secs0 nd tvec base tl)
        (Searching secs0 rt rv rsec).
Proof.
  intros Hnd Htl s w [Hp Hs Hr Hrt [c Hrv] Hsecs].
  unfold test_scale, py_index. rewrite Hnd, Htl.
  unfold bind at 1. unfold ret at 1.
  unfold bind at 1. rewrite attach_vector_stim_run.
  unfold bind at 1. unfold ret at 1.
  unfold bind at 1. rewrite run_sim_run.
  destruct w as [secs stims vecs plays recs t dt tstop runs out].
  cbn [w_secs w_stims w_vecs w_plays w_recs w_t w_dt w_tstop w_runs w_out] in *.
  subst plays recs. cbn [app]. cbv zeta.
  rewrite sources_trial by exact Hs. rewrite Hsecs.
  change (mkRunInput _ _ _ _ _) with (trial_input secs0 nd tvec base tl s).
  remember (trial_input secs0 nd tvec base tl s) as ri eqn:Hri.
  assert (Hrvlt : (rv < length vecs)%nat) by (apply nth_error_Some; congruence).
  unfold record_all. cbn [fold_left rec_vec rec_src].
  rewrite !upd_app_left by (rewrite ?upd_length; lia).
  remember (trace solver ri (Ref_v rsec (lit 0.5))) as tr eqn:Htr.
  match goal with
  | |- context [upd rv ?f (upd rt ?g vecs)] =>
      remember (upd rv f (upd rt g vecs)) as vecs' eqn:Hvecs';
      assert (Hget : nth_error vecs' rv = Some (Some (fst tr :: snd tr)));
      [ subst vecs'; rewrite nth_error_upd_same;
        destruct (Nat.eq_dec rt rv) as [->|Hne];
        [ rewrite nth_error_upd_same, Hrv; reflexivity
        | rewrite nth_error_upd_other by exact Hne; rewrite Hrv; reflexivity ]
      | assert (Hlen : length vecs' = length vecs)
          by (subst vecs'; now rewrite !upd_length) ]
  end.
  clear Hvecs'.
  unfold bind at 1. unfold np_array at 1.
  cbn [w_vecs]. rewrite nth_error_app1 by lia.
  rewrite Hget.
  unfold bind at 1. cbn [np_max]. unfold ret at 1.
  cbv [bind del_vec del_stim modify ret].
  cbn [on_recs on_plays on_vecs on_stims w_secs w_stims w_vecs w_plays w_recs w_t w_dt w_tstop w_runs w_out].
  eexists. split.
  { f_equal. f_equal. unfold fires_at, peak. subst tr ri. reflexivity. }
  cbn [on_recs on_plays on_vecs on_stims w_secs w_stims w_vecs w_plays w_recs
       w_t w_dt w_tstop w_runs w_out].
  assert (Hrt' : (rt =? length vecs)%nat = false) by (apply Nat.eqb_neq; lia).
  assert (Hrt'' : (rt =? S (length vecs))%nat = false) by (apply Nat.eqb_neq; lia).
  assert (Hrv' : (rv =? length vecs)%nat = false) by (apply Nat.eqb_neq; lia).
  assert (Hrv'' : (rv =? S (length vecs))%nat = false) by (apply Nat.eqb_neq; lia).
  split; [|split; reflexivity].
  constructor;
    cbn [on_recs on_plays on_vecs on_stims w_secs w_stims w_vecs w_plays w_recs].
  - cbn [filter uses_vec play_src play_tvec plays_into play_dst].
    unfold uses_vec; cbn [play_src play_tvec]. rewrite Nat.eqb_refl. reflexivity.
  - rewrite upd_app_last. apply Forall_app. split; [exact Hs|].
    constructor; [reflexivity | constructor].
  - cbn [filter rec_vec]. rewrite Hrt'', Hrv''. cbn [negb filter rec_vec]. rewrite Hrt', Hrv'. reflexivity.
  - rewrite !upd_length, length_app. lia.
  - exists (fst tr :: snd tr).
    rewrite !nth_error_upd_other by lia.
    rewrite nth_error_app1 by lia. exact Hget.
  - rewrite settle_reset. apply with_v_idem.
Qed.

End TrialRun.

(* ================================================================== *)
(** * The outcomes of [find_threshold] *)
(* ================================================================== *)

Section SearchRun.

Context {F : Type} {SF : Scalar F}.
Variable solver : Solver F.
Local Open Scope scalar_scope.

Lemma record_section_v_run (rsec : nat) (w : World F) :
  record_section_v rsec w =
    (Ok (length (w_vecs w), S (length (w_vecs w))),
     mkWorld (w_secs w) (w_stims w) (w_vecs w ++ [Some []; Some []]) (w_plays w)
             (w_recs w ++ [mkRec (length (w_vecs w)) Ref_t;
                           mkRec (S (length (w_vecs w))) (Ref_v rsec (lit 0.5))])
             (w_t w) (w_dt w) (w_tstop w) (w_runs w) (w_out w)).
Proof.
  destruct w as [secs stims vecs plays recs t dt tstop runs out].
  cbv [record_section_v bind h_Vector vec_record modify ret on_vecs on_recs
       w_secs w_stims w_vecs w_plays w_recs w_t w_dt w_tstop w_runs w_out].
  rewrite length_app, Nat.add_1_r, <- !app_assoc. reflexivity.
Qed.

Lemma recording_searching (rsec : nat) (w : World F) :
  Quiescent w ->
  Searching (w_secs w) (length (w_vecs w)) (S (length (w_vecs w))) rsec
            (snd (record_section_v rsec w)).
Proof.
  intros [Hp Hs Hr]. rewrite record_section_v_run. cbn [snd].
  constructor; cbn [w_secs w_stims w_vecs w_plays w_recs]; auto.
  - rewrite Hr. reflexivity.
  - rewrite length_app. cbn [length]. lia.
  - exists []. rewrite nth_error_app2 by lia.
    replace (S (length (w_vecs w)) - length (w_vecs w))%nat with 1%nat by lia.
    reflexivity.
Qed.

(** [find_threshold] is the search run between the set-up of the recording
    and its release. *)
Lemma find_threshold_search (fiber : Fiber) (tvec base : list F)
  (lo hi tol : F) (max_iters : Z) (ridx : option Z) (w : World F)
  (rsec : nat) (res : option F) (w2 : World F) :
  index_of (nodes fiber) (rec_index fiber ridx) = Some rsec ->
  search (test_scale solver (nodes fiber) (mid_idx fiber) tvec base
                     (S (length (w_vecs w))))
         lo hi tol max_iters (snd (record_section_v rsec w)) = (Ok res, w2) ->
  exists w3,
    find_threshold solver fiber tvec base lo hi tol max_iters ridx w = (Ok res, w3) /\
    w_runs w3 = w_runs w2 /\ w_out w3 = w_out w2.
Proof.
  intros Hrec Hsearch.
  unfold find_threshold, py_index. rewrite Hrec.
  unfold bind at 1. unfold ret at 1. unfold bind at 1.
  rewrite record_section_v_run in *. cbn [snd] in Hsearch.
  unfold bind at 1. rewrite Hsearch.
  eexists. split; [reflexivity|].
  destruct w2; split; reflexivity.
Qed.

Lemma searching_print (secs0 : list (Sec F)) (rt rv rsec : nat) (msg : string)
  (w : World F) :
  Searching secs0 rt rv rsec w -> Searching secs0 rt rv rsec (log_out msg w).
Proof. intros [? ? ? ? ? ?]. constructor; assumption. Qed.

Section Outcome.

Variables (fiber : Fiber) (tvec base : list F) (ridx : option Z).
Variables (w : World F) (nd rsec : nat) (tl : F).
Hypothesis ready : Ready fiber tvec ridx w nd rsec tl.

Local Abbreviation fires := (fires_at solver (w_secs w) nd rsec tvec base tl).
Local Abbreviation trial := (trial_input (w_secs w) nd tvec base tl).

Lemma call_trial :
  Trial (test_scale solver (nodes fiber) (mid_idx fiber) tvec base
                    (S (length (w_vecs w))))
        fires trial
        (Searching (w_secs w) (length (w_vecs w)) (S (length (w_vecs w))) rsec).
Proof.
  destruct ready as [_ Hmid _ Hlast].
  apply test_scale_trial; assumption.
Qed.

Lemma recording_log :
  w_runs (snd (record_section_v rsec w)) = w_runs w /\
  w_out (snd (record_section_v rsec w)) = w_out w.
Proof. rewrite record_section_v_run. split; reflexivity. Qed.

Lemma find_threshold_not_found (lo hi tol : F) (max_iters : Z) :
  fires hi = false ->
  exists w',
    find_threshold solver fiber tvec base lo hi tol max_iters ridx w = (Ok None, w') /\
    w_runs w' = (w_runs w ++ [trial hi])%list /\
    w_out w' = (w_out w ++ [warning])%list.
Proof.
  intros Hhi. destruct recording_log as [Hr0 Ho0].
  edestruct search_not_bracketed with (lo := lo) (tol := tol) (max_iters := max_iters)
    as (w2 & Hs & _ & Hr & Ho);
    [ apply call_trial | apply searching_print
    | apply (recording_searching rsec), ready | exact Hhi | ].
  destruct (find_threshold_search fiber tvec base lo hi tol max_iters ridx w
              (rd_rec ready) Hs) as (w3 & Hf & Hr3 & Ho3).
  exists w3. split; [exact Hf|]. split; congruence.
Qed.

Lemma find_threshold_lower (lo hi tol : F) (max_iters : Z) :
  fires hi = true -> fires lo = true ->
  exists w',
    find_threshold solver fiber tvec base lo hi tol max_iters ridx w =
      (Ok (Some lo), w') /\
    w_runs w' = (w_runs w ++ [trial hi; trial lo])%list /\
    w_out w' = w_out w.
Proof.
  intros Hhi Hlo. destruct recording_log as [Hr0 Ho0].
  edestruct search_at_lower with (tol := tol) (max_iters := max_iters)
    as (w2 & Hs & _ & Hr & Ho);
    [ apply call_trial | apply (recording_searching rsec), ready
    | exact Hhi | exact Hlo | ].
  destruct (find_threshold_search fiber tvec base lo hi tol max_iters ridx w
              (rd_rec ready) Hs) as (w3 & Hf & Hr3 & Ho3).
  exists w3. split; [exact Hf|]. split; congruence.
Qed.

Lemma find_threshold_loop (lo hi tol : F) (max_iters : Z) :
  fires hi = true -> fires lo = false ->
  exists k w',
    find_threshold solver fiber tvec base lo hi tol max_iters ridx w =
      (Ok (Some (snd (narrowed fires k (lo, hi)))), w') /\
    stops_at fires tol (Z.to_nat max_iters) k (lo, hi) /\
    w_runs w' =
      (w_runs w ++ map trial (hi :: lo :: midpoints fires k (lo, hi)))%list /\
    w_out w' = w_out w.
Proof.
  intros Hhi Hlo. destruct recording_log as [Hr0 Ho0].
  edestruct search_bisects with (tol := tol) (max_iters := max_iters)
    as (k & w2 & Hs & _ & Hstop & Hr & Ho);
    [ apply call_trial | apply (recording_searching rsec), ready
    | exact Hhi | exact Hlo | ].
  destruct (find_threshold_search fiber tvec base lo hi tol max_iters ridx w
              (rd_rec ready) Hs) as (w3 & Hf & Hr3 & Ho3).
  exists k, w3. split; [exact Hf|]. split; [exact Hstop|]. split; congruence.
Qed.

End Outcome.

End SearchRun.

(* ================================================================== *)
(** * The fiber [make_MRG_fiber] builds *)
(* ================================================================== *)

Section TopologyFacts.

Context {F : Type} {SF : Scalar F}.

Lemma bind_ok {A B} (m : M F A) (k : A -> M F B) (w w' : World F) (a : A) :
  m w = (Ok a, w') -> bind m k w = k a w'.
Proof. intros H. unfold bind. now rewrite H. Qed.

Lemma h_Section_run (name : string) (w : World F) :
  h_Section name w = (Ok (length (w_secs w)), push (default_sec name) w).
Proof. reflexivity. Qed.

Lemma set_sec_last (f : Sec F -> Sec F) (c : Sec F) (w : World F) :
  set_sec (length (w_secs w)) f (push c w) = (Ok tt, push (f c) w).
Proof.
  destruct w as [secs stims vecs plays recs t dt tstop runs out].
  cbv [set_sec modify push on_secs
       w_secs w_stims w_vecs w_plays w_recs w_t w_dt w_tstop w_runs w_out].
  now rewrite upd_app_last.
Qed.

Lemma set_hh_param_last (f : HHParams F -> HHParams F) (c : Sec F)
  (p : HHParams F) (w : World F) :
  sec_hh c = Some p ->
  set_hh_param (length (w_secs w)) f (push c w) =
    (Ok tt, push (with_hh (Some (f p)) c) w).
Proof.
  intros Hp. unfold set_hh_param.
  replace (nth_error (w_secs (push c w)) (length (w_secs w))) with (Some c).
  - rewrite Hp. apply set_sec_last.
  - destruct w as [secs stims vecs plays recs t dt tstop runs out].
    cbv [push on_secs w_secs]. now rewrite nth_error_app_last.
Qed.

Lemma set_pas_param_last (f : PasParams F -> PasParams F) (c : Sec F)
  (p : PasParams F) (w : World F) :
  sec_pas c = Some p ->
  set_pas_param (length (w_secs w)) f (push c w) =
    (Ok tt, push (with_pas (Some (f p)) c) w).
Proof.
  intros Hp. unfold set_pas_param.
  replace (nth_error (w_secs (push c w)) (length (w_secs w))) with (Some c).
  - rewrite Hp. apply set_sec_last.
  - destruct w as [secs stims vecs plays recs t dt tstop runs out].
    cbv [push on_secs w_secs]. now rewrite nth_error_app_last.
Qed.

Lemma bind_h_Section {B} (name : string) (k : nat -> M F B) (w : World F) :
  bind (h_Section name) k w = k (length (w_secs w)) (push (default_sec name) w).
Proof. reflexivity. Qed.

Lemma bind_set_sec_last {B} (f : Sec F -> Sec F) (c : Sec F) (k : unit -> M F B)
  (w : World F) :
  bind (set_sec (length (w_secs w)) f) k (push c w) = k tt (push (f c) w).
Proof. unfold bind. now rewrite set_sec_last. Qed.

Lemma bind_set_hh_last {B} (f : HHParams F -> HHParams F) (c : Sec F)
  (p : HHParams F) (k : unit -> M F B) (w : World F) :
  sec_hh c = Some p ->
  bind (set_hh_param (length (w_secs w)) f) k (push c w) =
    k tt (push (with_hh (Some (f p)) c) w).
Proof.
  intros Hp. unfold bind.
  now rewrite set_hh_param_last with (p := p) by exact Hp.
Qed.

Lemma bind_set_pas_last {B} (f : PasParams F -> PasParams F) (c : Sec F)
  (p : PasParams F) (k : unit -> M F B) (w : World F) :
  sec_pas c = Some p ->
  bind (set_pas_param (length (w_secs w)) f) k (push c w) =
    k tt (push (with_pas (Some (f p)) c) w).
Proof.
  intros Hp. unfold bind.
  now rewrite set_pas_param_last with (p := p) by exact Hp.
Qed.

Lemma bind_try_pass {B} (m : M F unit) (k : unit -> M F B) (w w' : World F) :
  m w = (Ok tt, w') -> bind (try_pass m) k w = k tt w'.
Proof. intros H. unfold bind, try_pass. now rewrite H. Qed.

Lemma make_node_run (d : F) (i : nat) (w : World F) :
  make_node d (Z.of_nat i) w =
    (Ok (length (w_secs w)), push (node_sec d i) w).
Proof.
  unfold make_node. rewrite bind_h_Section.
  unfold set_L, set_diam, set_Ra, set_nseg, set_cm, insert_hh.
  do 6 (rewrite bind_set_sec_last;
        cbn [sec_name sec_L sec_diam sec_Ra sec_nseg sec_cm sec_hh sec_pas
             sec_parent sec_v default_sec with_hh]).
  rewrite bind_try_pass with (w' := push (node_sec d i) w); [reflexivity|].
  unfold set_gnabar_hh, set_gkbar_hh, set_gl_hh, set_el_hh.
  rewrite bind_set_hh_last with (p := mkHH (lit 0.12) (lit 0.036) (lit 0.0003) (lit (-54.3)))
    by reflexivity;
    cbn [with_hh with_pas sec_name sec_L sec_diam sec_Ra sec_nseg sec_cm sec_hh
         sec_pas sec_parent sec_v gnabar_hh gkbar_hh gl_hh el_hh g_pas e_pas].
  rewrite bind_set_hh_last with (p := mkHH G_NA_BAR (lit 0.036) (lit 0.0003) (lit (-54.3)))
    by reflexivity;
    cbn [with_hh with_pas sec_name sec_L sec_diam sec_Ra sec_nseg sec_cm sec_hh
         sec_pas sec_parent sec_v gnabar_hh gkbar_hh gl_hh el_hh g_pas e_pas].
  rewrite bind_set_hh_last with (p := mkHH G_NA_BAR G_K_BAR (lit 0.0003) (lit (-54.3)))
    by reflexivity;
    cbn [with_hh with_pas sec_name sec_L sec_diam sec_Ra sec_nseg sec_cm sec_hh
         sec_pas sec_parent sec_v gnabar_hh gkbar_hh gl_hh el_hh g_pas e_pas].
  rewrite set_hh_param_last with (p := mkHH G_NA_BAR G_K_BAR G_LEAK_NODE (lit (-54.3)))
    by reflexivity;
    cbn [with_hh with_pas sec_name sec_L sec_diam sec_Ra sec_nseg sec_cm sec_hh
         sec_pas sec_parent sec_v gnabar_hh gkbar_hh gl_hh el_hh g_pas e_pas].
  reflexivity.
Qed.

Lemma make_passive_run (name : string) (length_um d : F) (w : World F) :
  make_passive name length_um d w =
    (Ok (length (w_secs w)), push (passive_sec name length_um d) w).
Proof.
  unfold make_passive. rewrite bind_h_Section.
  unfold set_L, set_diam, set_Ra, set_nseg, set_cm, insert_pas.
  do 6 (rewrite bind_set_sec_last;
        cbn [sec_name sec_L sec_diam sec_Ra sec_nseg sec_cm sec_hh sec_pas
             sec_parent sec_v default_sec with_pas]).
  unfold set_g_pas, set_e_pas.
  rewrite bind_set_pas_last with (p := mkPas (lit 0.001) (lit (-70.0)))
    by reflexivity;
    cbn [with_hh with_pas sec_name sec_L sec_diam sec_Ra sec_nseg sec_cm sec_hh
         sec_pas sec_parent sec_v gnabar_hh gkbar_hh gl_hh el_hh g_pas e_pas].
  rewrite bind_set_pas_last with (p := mkPas G_PAS_INTERN (lit (-70.0)))
    by reflexivity;
    cbn [with_hh with_pas sec_name sec_L sec_diam sec_Ra sec_nseg sec_cm sec_hh
         sec_pas sec_parent sec_v gnabar_hh gkbar_hh gl_hh el_hh g_pas e_pas].
  reflexivity.
Qed.

Lemma index_of_ids (N off base i : nat) :
  (i < N)%nat -> index_of (ids N off base) (Z.of_nat i) = Some (base + 4 * i + off)%nat.
Proof.
  intros Hi. rewrite index_of_nat. unfold ids.
  rewrite nth_error_map, nth_error_seq.
  replace (i <? N)%nat with true by (symmetry; apply Nat.ltb_lt; lia).
  reflexivity.
Qed.

Lemma ids_S (N off base : nat) :
  ids (S N) off base = (ids N off base ++ [(base + 4 * N + off)%nat])%list.
Proof. unfold ids. rewrite seq_S, map_app. reflexivity. Qed.

Lemma unwired_S (d : F) (N k : nat) :
  unwired d N (S k) = (unwired d N k ++ group d N k)%list.
Proof.
  unfold unwired. rewrite seq_S, flat_map_app. cbn [flat_map Nat.add].
  now rewrite app_nil_r.
Qed.

Lemma unwired_length (d : F) (N k : nat) :
  (k < N)%nat -> length (unwired d N k) = (4 * k)%nat.
Proof.
  induction k as [|k IH]; intros Hk; [reflexivity|].
  rewrite unwired_S, length_app, IH by lia.
  unfold group.
  replace (S k <? N)%nat with true by (symmetry; apply Nat.ltb_lt; lia).
  cbn [length]. lia.
Qed.

Lemma unwired_all_length (d : F) (N : nat) :
  length (unwired d N N) = (4 * (N - 1) + Nat.min N 1)%nat.
Proof.
  destruct N as [|N]; [reflexivity|].
  rewrite unwired_S, length_app, unwired_length by lia.
  unfold group. rewrite Nat.ltb_irrefl. cbn [length]. lia.
Qed.

Lemma bind_make_node {B} (d : F) (i : nat) (k : nat -> M F B) (w : World F) :
  bind (make_node d (Z.of_nat i)) k w =
    k (length (w_secs w)) (push (node_sec d i) w).
Proof. unfold bind. now rewrite make_node_run. Qed.

Lemma bind_make_passive {B} (name : string) (length_um d : F)
  (k : nat -> M F B) (w : World F) :
  bind (make_passive name length_um d) k w =
    k (length (w_secs w)) (push (passive_sec name length_um d) w).
Proof. unfold bind. now rewrite make_passive_run. Qed.

Lemma push_secs (c : Sec F) (w : World F) :
  w_secs (push c w) = (w_secs w ++ [c])%list.
Proof. now destruct w. Qed.

Lemma push_on_secs (c : Sec F) (l : list (Sec F)) (w : World F) :
  push c (on_secs (fun _ => l) w) = on_secs (fun _ => l ++ [c])%list w.
Proof. now destruct w. Qed.

Lemma on_secs_id (w : World F) : on_secs (fun _ => w_secs w) w = w.
Proof. now destruct w. Qed.

Lemma on_secs_twice (l l' : list (Sec F)) (w : World F) :
  on_secs (fun _ => l') (on_secs (fun _ => l) w) = on_secs (fun _ => l') w.
Proof. now destruct w. Qed.

Lemma build_body_run (d : F) (N i : nat) (pre : list (Sec F)) (w : World F) :
  (i < N)%nat ->
  w_secs w = (pre ++ unwired d N i)%list ->
  build_body d (Z.of_nat N) (Z.of_nat i) (lists_at (length pre) N i) w =
    (Ok (lists_at (length pre) N (S i), Next),
     on_secs (fun _ => pre ++ unwired d N (S i))%list w).
Proof.
  intros Hi Hw.
  assert (Hlen : length (w_secs w) = (length pre + 4 * i)%nat).
  { rewrite Hw, length_app, unwired_length by lia. reflexivity. }
  rewrite <- (on_secs_id w) at 1. rewrite Hw.
  unfold build_body, lists_at.
  rewrite bind_make_node, push_on_secs.
  rewrite unwired_S. unfold group.
  destruct (S i <? N)%nat eqn:E.
  - apply Nat.ltb_lt in E.
    replace (Z.of_nat i <? Z.of_nat N - 1)%Z with true
      by (symmetry; apply Z.ltb_lt; lia).
    replace (Nat.min (S i) (N - 1)) with (S i) by lia.
    replace (Nat.min i (N - 1)) with i by lia.
    rewrite !ids_S.
    do 3 rewrite bind_make_passive, push_on_secs.
    unfold ret. rewrite <- !app_assoc. cbn [app].
    destruct w as [secs stims vecs plays recs t dt tstop runs out].
    cbn [w_secs on_secs length] in *.
    rewrite !length_app, unwired_length by lia. cbn [length].
    replace (length pre + 4 * i + 0)%nat with (length pre + 4 * i)%nat by lia.
    replace (length pre + 4 * i + 1)%nat with (length pre + (4 * i + 1))%nat by lia.
    replace (length pre + 4 * i + 2)%nat with (length pre + (4 * i + 2))%nat by lia.
    replace (length pre + 4 * i + 3)%nat with (length pre + (4 * i + 3))%nat by lia.
    reflexivity.
  - apply Nat.ltb_ge in E.
    replace (Z.of_nat i <? Z.of_nat N - 1)%Z with false
      by (symmetry; apply Z.ltb_ge; lia).
    replace (Nat.min (S i) (N - 1)) with (Nat.min i (N - 1)) by lia.
    rewrite ids_S. unfold ret. rewrite <- !app_assoc. cbn [app].
    destruct w as [secs stims vecs plays recs t dt tstop runs out].
    cbn [w_secs on_secs length] in *.
    rewrite length_app, unwired_length by lia.
    replace (length pre + 4 * i + 0)%nat with (length pre + 4 * i)%nat by lia.
    reflexivity.
Qed.

Lemma build_loop (d : F) (N : nat) (pre : list (Sec F)) (m : nat) :
  forall (k : nat) (w : World F),
    (k + m <= N)%nat ->
    w_secs w = (pre ++ unwired d N k)%list ->
    for_in (map Z.of_nat (seq k m)) (build_body d (Z.of_nat N))
           (lists_at (length pre) N k) w =
      (Ok (lists_at (length pre) N (k + m)),
       on_secs (fun _ => pre ++ unwired d N (k + m))%list w).
Proof.
  induction m as [|m IH]; intros k w Hk Hw.
  - rewrite Nat.add_0_r. cbn [seq map for_in]. unfold ret.
    rewrite <- Hw. now rewrite on_secs_id.
  - cbn [seq map for_in]. unfold bind at 1.
    rewrite build_body_run by (assumption || lia). cbn [snd fst].
    rewrite IH by (cbn; auto; lia).
    replace (S k + m)%nat with (k + S m)%nat by lia.
    now rewrite on_secs_twice.
Qed.

Lemma linked_from_past (base m s : nat) (l : list (Sec F)) :
  (S m < s)%nat -> linked_from base m s l = linked_from base (S m) s l.
Proof.
  revert s. induction l as [|c l IH]; intros s Hs; [reflexivity|].
  unfold linked_from in *. cbn [length seq combine map fst snd].
  rewrite IH by lia. f_equal.
  unfold link. destruct s as [|s']; [lia|].
  replace (S s' <=? m)%nat with false by (symmetry; apply Nat.leb_gt; lia).
  replace (S s' <=? S m)%nat with false by (symmetry; apply Nat.leb_gt; lia).
  reflexivity.
Qed.

Lemma linked_from_step (base m s : nat) (l : list (Sec F)) :
  (s <= S m)%nat -> (S m < s + length l)%nat ->
  upd (S m - s) (with_parent (Some ((base + m)%nat, lit 1.0)))
      (linked_from base m s l) = linked_from base (S m) s l.
Proof.
  revert s. induction l as [|c l IH]; intros s Hs Hl; [cbn in Hl; lia|].
  unfold linked_from in *. cbn [length seq combine map fst snd].
  destruct (Nat.eq_dec s (S m)) as [->|Hne].
  - rewrite Nat.sub_diag. cbn [upd]. f_equal.
    + unfold link.
      replace (S m <=? m)%nat with false by (symmetry; apply Nat.leb_gt; lia).
      rewrite Nat.leb_refl. reflexivity.
    + apply linked_from_past. lia.
  - replace (S m - s)%nat with (S (S m - S s)) by lia. cbn [upd]. f_equal.
    + unfold link. destruct s as [|s']; [reflexivity|].
      replace (S s' <=? m)%nat with true by (symmetry; apply Nat.leb_le; lia).
      replace (S s' <=? S m)%nat with true by (symmetry; apply Nat.leb_le; lia).
      reflexivity.
    + apply IH; cbn [length] in Hl; lia.
Qed.

Lemma linked_step (pre l : list (Sec F)) (m : nat) :
  (S m < length l)%nat ->
  upd (length pre + S m) (with_parent (Some ((length pre + m)%nat, lit 1.0)))
      (pre ++ linked (length pre) m l) = (pre ++ linked (length pre) (S m) l)%list.
Proof.
  intros Hm. rewrite upd_app_right. f_equal.
  pose proof (@linked_from_step (length pre) m 0 l) as H.
  rewrite Nat.sub_0_r in H. unfold linked. apply H; lia.
Qed.

Lemma linked_none (base : nat) (l : list (Sec F)) : linked base 0 l = l.
Proof.
  unfold linked, linked_from. generalize 0%nat at 2.
  induction l as [|c l IH]; intros s; [reflexivity|].
  cbn [length seq combine map fst snd]. rewrite IH. f_equal.
  unfold link. destruct s; reflexivity.
Qed.

Lemma connect_run (child parent : nat) (x : F) (w : World F) :
  connect child parent x w =
    (Ok tt, on_secs (upd child (with_parent (Some (parent, x)))) w).
Proof. reflexivity. Qed.

Lemma connect_body_run (d : F) (N i : nat) (pre : list (Sec F)) (w : World F) :
  (S i < N)%nat ->
  w_secs w = (pre ++ linked (length pre) (4 * i) (unwired d N N))%list ->
  connect_body (ids N 0 (length pre)) (ids (N - 1) 1 (length pre))
               (ids (N - 1) 2 (length pre)) (ids (N - 1) 3 (length pre))
               (Z.of_nat i) tt w =
    (Ok (tt, Next),
     on_secs (fun _ => pre ++ linked (length pre) (4 * S i) (unwired d N N))%list w).
Proof.
  intros Hi Hw.
  pose proof (unwired_all_length d N) as Hlen.
  unfold connect_body, py_index.
  replace (Z.of_nat i + 1)%Z with (Z.of_nat (S i)) by lia.
  rewrite !index_of_ids by lia.
  destruct w as [secs stims vecs plays recs t dt tstop runs out].
  cbn [w_secs] in Hw. subst secs.
  cbv [bind ret connect set_sec modify on_secs
       w_secs w_stims w_vecs w_plays w_recs w_t w_dt w_tstop w_runs w_out].
  do 2 f_equal.
  replace (length pre + 4 * i + 1)%nat with (length pre + S (4 * i))%nat by lia.
  replace (length pre + 4 * i + 0)%nat with (length pre + 4 * i)%nat by lia.
  rewrite linked_step by lia.
  replace (length pre + 4 * i + 2)%nat with (length pre + S (S (4 * i)))%nat by lia.
  replace (length pre + S (4 * i))%nat with (length pre + (S (4 * i)))%nat by lia.
  rewrite linked_step by lia.
  replace (length pre + 4 * i + 3)%nat with (length pre + S (S (S (4 * i))))%nat by lia.
  rewrite linked_step by lia.
  replace (length pre + 4 * S i + 0)%nat
    with (length pre + S (S (S (S (4 * i)))))%nat by lia.
  rewrite linked_step by lia.
  replace (4 * S i)%nat with (S (S (S (S (4 * i))))) by lia.
  reflexivity.
Qed.

Lemma connect_loop (d : F) (N : nat) (pre : list (Sec F)) (m : nat) :
  forall (k : nat) (w : World F),
    (k + m < N)%nat \/ m = 0%nat ->
    w_secs w = (pre ++ linked (length pre) (4 * k) (unwired d N N))%list ->
    for_in (map Z.of_nat (seq k m))
           (connect_body (ids N 0 (length pre)) (ids (N - 1) 1 (length pre))
                         (ids (N - 1) 2 (length pre)) (ids (N - 1) 3 (length pre)))
           tt w =
      (Ok tt,
       on_secs (fun _ => pre ++ linked (length pre) (4 * (k + m)) (unwired d N N))%list w).
Proof.
  induction m as [|m IH]; intros k w Hk Hw.
  - rewrite Nat.add_0_r. cbn [seq map for_in]. unfold ret.
    rewrite <- Hw. now rewrite on_secs_id.
  - cbn [seq map for_in]. unfold bind at 1.
    rewrite (@connect_body_run d N k pre w) by (assumption || lia).
    cbn [snd fst].
    rewrite IH by (cbn; auto; lia).
    replace (S k + m)%nat with (k + S m)%nat by lia.
    now rewrite on_secs_twice.
Qed.

(** [make_MRG_fiber] never fails: it appends the chain of [n_nodes] nodes
    to the sections of the store and returns their handles. *)
Lemma make_MRG_fiber_run (d : F) (n : Z) (w : World F) :
  make_MRG_fiber d n w =
    (Ok (fiber_at (length (w_secs w)) (Z.to_nat n)),
     on_secs (fun l => l ++ chain d (length l) (Z.to_nat n))%list w).
Proof.
  set (N := Z.to_nat n).
  assert (Hbody : build_body d n = build_body d (Z.of_nat N) \/ N = 0%nat).
  { destruct (Z_le_gt_dec n 0) as [Hle|Hgt].
    - right. unfold N. lia.
    - left. unfold N. rewrite Z2Nat.id by lia. reflexivity. }
  unfold make_MRG_fiber, range. fold N.
  assert (Hloop1 :
    for_in (map Z.of_nat (seq 0 N)) (build_body d n) ([], [], [], []) w =
      (Ok (lists_at (length (w_secs w)) N N),
       on_secs (fun _ => w_secs w ++ unwired d N N)%list w)).
  { destruct Hbody as [-> | HN].
    - apply (@build_loop d N (w_secs w) N 0 w); [lia|].
      cbn. now rewrite app_nil_r.
    - rewrite HN. cbn. unfold ret. rewrite app_nil_r. now rewrite on_secs_id. }
  unfold bind at 1. rewrite Hloop1. unfold lists_at.
  replace (Nat.min N (N - 1)) with (N - 1)%nat by lia.
  assert (Hlen : len (ids N 0 (length (w_secs w))) = Z.of_nat N).
  { unfold len, ids. now rewrite length_map, length_seq. }
  rewrite Hlen.
  replace (Z.to_nat (Z.of_nat N - 1)) with (N - 1)%nat by lia.
  unfold bind at 1.
  rewrite (@connect_loop d N (w_secs w) (N - 1) 0).
  - cbn [Nat.add]. unfold ret, fiber_at, chain.
    destruct w as [secs stims vecs plays recs t dt tstop runs out]. reflexivity.
  - destruct N; [right; reflexivity | left; lia].
  - destruct w as [secs stims vecs plays recs t dt tstop runs out].
    cbn [w_secs on_secs Nat.mul]. now rewrite linked_none.
Qed.

End TopologyFacts.

Section ChainFacts.

Context {F : Type} {SF : Scalar F}.
Local Open Scope scalar_scope.

Lemma linked_from_nth (base m s : nat) (l : list (Sec F)) (j : nat) :
  nth_error (linked_from base m s l) j =
    option_map (link base m (s + j)) (nth_error l j).
Proof.
  revert s j. induction l as [|c l IH]; intros s [|j];
    unfold linked_from in *; cbn [length seq combine map nth_error option_map fst snd];
    try reflexivity.
  - now rewrite Nat.add_0_r.
  - rewrite IH. now rewrite Nat.add_succ_r.
Qed.

Lemma linked_nth (base m : nat) (l : list (Sec F)) (j : nat) :
  nth_error (linked base m l) j = option_map (link base m j) (nth_error l j).
Proof. unfold linked. now rewrite linked_from_nth. Qed.

Lemma linked_length (base m : nat) (l : list (Sec F)) :
  length (linked base m l) = length l.
Proof.
  unfold linked, linked_from.
  now rewrite length_map, length_combine, length_seq, Nat.min_id.
Qed.

Lemma group_length (d : F) (N i : nat) :
  length (group d N i) = if (S i <? N)%nat then 4%nat else 1%nat.
Proof. unfold group. now destruct (S i <? N)%nat. Qed.

(** The [r]-th section of the round [i] is the section number [4 i + r]. *)
Lemma unwired_nth (d : F) (N k i r : nat) :
  (i < k)%nat -> (k <= N)%nat -> (r < length (group d N i))%nat ->
  nth_error (unwired d N k) (4 * i + r) = nth_error (group d N i) r.
Proof.
  induction k as [|k IH]; intros Hi Hk Hr; [lia|].
  rewrite unwired_S.
  destruct (Nat.eq_dec i k) as [->|Hne].
  - rewrite nth_error_app2 by (rewrite unwired_length by lia; lia).
    rewrite unwired_length by lia. f_equal. lia.
  - rewrite nth_error_app1.
    + apply IH; lia.
    + apply nth_error_Some. rewrite IH by lia.
      apply nth_error_Some. exact Hr.
Qed.

Lemma chain_length (d : F) (base N : nat) :
  length (chain d base N) = (4 * (N - 1) + Nat.min N 1)%nat.
Proof. unfold chain. now rewrite linked_length, unwired_all_length. Qed.

Lemma built_nth (d : F) (n : Z) (w : World F) (i r : nat) :
  (i < Z.to_nat n)%nat -> (r < length (group d (Z.to_nat n) i))%nat ->
  nth_error (w_secs (built d n w)) (length (w_secs w) + 4 * i + r) =
    option_map (link (length (w_secs w)) (4 * (Z.to_nat n - 1)) (4 * i + r))
               (nth_error (group d (Z.to_nat n) i) r).
Proof.
  intros Hi Hr. destruct w as [secs stims vecs plays recs t dt tstop runs out].
  unfold built. cbn [on_secs w_secs].
  rewrite nth_error_app2 by lia.
  replace (length secs + 4 * i + r - length secs)%nat with (4 * i + r)%nat by lia.
  unfold chain. rewrite linked_nth, unwired_nth by lia. reflexivity.
Qed.

Lemma built_old (d : F) (n : Z) (w : World F) (j : nat) :
  (j < length (w_secs w))%nat ->
  nth_error (w_secs (built d n w)) j = nth_error (w_secs w) j.
Proof.
  intros Hj. destruct w as [secs stims vecs plays recs t dt tstop runs out].
  unfold built. cbn [on_secs w_secs] in *. now rewrite nth_error_app1.
Qed.

Lemma In_ids (N off base id : nat) :
  In id (ids N off base) <-> exists i, (i < N)%nat /\ id = (base + 4 * i + off)%nat.
Proof.
  unfold ids. rewrite in_map_iff. split.
  - intros (i & <- & Hi). apply in_seq in Hi. exists i. split; [lia | reflexivity].
  - intros (i & Hi & ->). exists i. split; [reflexivity|]. apply in_seq. lia.
Qed.

Lemma ids_length (N off base : nat) : length (ids N off base) = N.
Proof. unfold ids. now rewrite length_map, length_seq. Qed.

Lemma ids_NoDup (N off base : nat) : NoDup (ids N off base).
Proof.
  unfold ids. apply Injective_map_NoDup; [|apply seq_NoDup].
  intros a b H. lia.
Qed.

Lemma link_fields (base m j : nat) (c : Sec F) :
  sec_name (link base m j c) = sec_name c /\ sec_L (link base m j c) = sec_L c /\
  sec_diam (link base m j c) = sec_diam c /\ sec_Ra (link base m j c) = sec_Ra c /\
  sec_nseg (link base m j c) = sec_nseg c /\ sec_cm (link base m j c) = sec_cm c /\
  sec_hh (link base m j c) = sec_hh c /\ sec_pas (link base m j c) = sec_pas c.
Proof.
  unfold link. destruct j as [|j]; [repeat split|].
  destruct (S j <=? m)%nat; repeat split.
Qed.

Lemma link_parent (base m j : nat) (c : Sec F) :
  sec_parent c = None ->
  sec_parent (link base m j c) =
    match j with
    | O => None
    | S j' => if (j <=? m)%nat then Some ((base + j')%nat, lit 1.0) else None
    end.
Proof.
  intros Hc. unfold link. destruct j as [|j]; [exact Hc|].
  destruct (S j <=? m)%nat; [reflexivity | exact Hc].
Qed.

(** The section behind the handle [base + 4 i + r] of a built fiber. *)
Lemma built_sec (d : F) (n : Z) (w : World F) (i r : nat) :
  (i < Z.to_nat n)%nat -> (r < length (group d (Z.to_nat n) i))%nat ->
  exists c0,
    nth_error (group d (Z.to_nat n) i) r = Some c0 /\
    nth_error (w_secs (built d n w)) (length (w_secs w) + 4 * i + r) =
      Some (link (length (w_secs w)) (4 * (Z.to_nat n - 1)) (4 * i + r) c0).
Proof.
  intros Hi Hr. rewrite built_nth by assumption.
  destruct (nth_error (group d (Z.to_nat n) i) r) as [c0|] eqn:E.
  - exists c0. split; reflexivity.
  - apply nth_error_None in E. lia.
Qed.

Lemma group_unwired (d : F) (N i r : nat) (c0 : Sec F) :
  nth_error (group d N i) r = Some c0 -> sec_parent c0 = None.
Proof.
  unfold group. destruct (S i <? N)%nat;
    destruct r as [|[|[|[|r]]]]; cbn; intros H; inversion H; try reflexivity.
  all: destruct r; discriminate.
Qed.

Lemma In_compartments (base N id : nat) :
  In id (compartments (fiber_at base N)) <->
  exists i r, (i < N)%nat /\ (r < if (S i <? N)%nat then 4 else 1)%nat /\
              id = (base + 4 * i + r)%nat.
Proof.
  unfold compartments, fiber_at. cbn [nodes paranos juxtas interns].
  rewrite !in_app_iff, !In_ids. split.
  - intros [(i & Hi & ->)|[(i & Hi & ->)|[(i & Hi & ->)|(i & Hi & ->)]]].
    + exists i, 0%nat. destruct (S i <? N)%nat; repeat split; lia.
    + exists i, 1%nat. replace (S i <? N)%nat with true
        by (symmetry; apply Nat.ltb_lt; lia). repeat split; lia.
    + exists i, 2%nat. replace (S i <? N)%nat with true
        by (symmetry; apply Nat.ltb_lt; lia). repeat split; lia.
    + exists i, 3%nat. replace (S i <? N)%nat with true
        by (symmetry; apply Nat.ltb_lt; lia). repeat split; lia.
  - intros (i & r & Hi & Hr & ->).
    destruct (S i <? N)%nat eqn:E.
    + apply Nat.ltb_lt in E.
      destruct r as [|[|[|[|r]]]]; try lia.
      * left. exists i. split; [lia | reflexivity].
      * right; left. exists i. split; [lia | reflexivity].
      * right; right; left. exists i. split; [lia | reflexivity].
      * right; right; right. exists i. split; [lia | reflexivity].
    + destruct r; [|lia]. left. exists i. split; [lia | reflexivity].
Qed.

(** Every compartment of a built fiber is one of the sections of [group],
    linked to the section created before it. *)
Lemma compartment_sec (d : F) (n : Z) (w : World F) (id : nat) :
  In id (compartments (fiber_at (length (w_secs w)) (Z.to_nat n))) ->
  exists i r c0,
    (i < Z.to_nat n)%nat /\ id = (length (w_secs w) + 4 * i + r)%nat /\
    (4 * i + r <= 4 * (Z.to_nat n - 1))%nat /\
    nth_error (group d (Z.to_nat n) i) r = Some c0 /\
    nth_error (w_secs (built d n w)) id =
      Some (link (length (w_secs w)) (4 * (Z.to_nat n - 1)) (4 * i + r) c0).
Proof.
  intros Hin. apply In_compartments in Hin. destruct Hin as (i & r & Hi & Hr & ->).
  destruct (@built_sec d n w i r Hi) as (c0 & Hc0 & Hsec).
  { rewrite group_length. exact Hr. }
  exists i, r, c0. repeat split; auto.
  destruct (S i <? Z.to_nat n)%nat eqn:E.
  - apply Nat.ltb_lt in E. lia.
  - apply Nat.ltb_ge in E. lia.
Qed.

End ChainFacts.

Section GeometryFacts.

Context {F : Type} {SF : Scalar F} {OF : @Ordered F SF}.
Local Open Scope scalar_scope.

Lemma py_max_cases (a x : F) :
  (py_max a x = a) \/ (py_max a x = x /\ (a <? x) = true).
Proof. unfold py_max. destruct (a <? x); auto. Qed.

Lemma py_max_pos (a x : F) :
  (lit 0.0 <? a) = true -> (lit 0.0 <? py_max a x) = true.
Proof.
  intros Ha. destruct (py_max_cases a x) as [->|[-> Hx]]; [exact Ha|].
  exact (fltb_trans _ _ _ Ha Hx).
Qed.


Lemma lit_0_lt_5 : (@lit F SF 0.0 <? lit 5.0) = true.
Proof. exact (fltb_trans _ _ _ lit_0_lt_1 lit_1_lt_5). Qed.

Lemma lit_0_lt_50 : (@lit F SF 0.0 <? lit 50.0) = true.
Proof. exact (fltb_trans _ _ _ lit_0_lt_5 lit_5_lt_50). Qed.

Lemma lengths_positive (d : F) :
  (lit 0.0 <? node_length_um) = true /\
  (lit 0.0 <? paranode_length_um d) = true /\
  (lit 0.0 <? juxta_length_um d) = true /\
  (lit 0.0 <? internode_length_from_diam d) = true.
Proof.
  unfold node_length_um, paranode_length_um, juxta_length_um,
    internode_length_from_diam.
  repeat split; try apply py_max_pos.
  - exact lit_0_lt_1.
  - exact lit_0_lt_1.
  - exact lit_0_lt_5.
  - exact lit_0_lt_50.
Qed.


Lemma group_positive (d : F) (N i r : nat) (c0 : Sec F) :
  nth_error (group d N i) r = Some c0 -> (lit 0.0 <? sec_L c0) = true.
Proof.
  destruct (lengths_positive d) as (Hn & Hp & Hj & Hi).
  unfold group. destruct (S i <? N)%nat;
    destruct r as [|[|[|[|r]]]]; cbn; intros H; inversion H; cbn; auto.
  all: destruct r; discriminate.
Qed.

End GeometryFacts.

Section FiberFacts.

Context {F : Type} {SF : Scalar F}.
Local Open Scope scalar_scope.

Lemma compartment_parent (d : F) (n : Z) (w : World F) (id : nat) :
  In id (compartments (fiber_at (length (w_secs w)) (Z.to_nat n))) ->
  exists j,
    id = (length (w_secs w) + j)%nat /\
    (j <= 4 * (Z.to_nat n - 1))%nat /\
    exists c, nth_error (w_secs (built d n w)) id = Some c /\
              sec_parent c = match j with
                             | O => None
                             | S j' => Some ((length (w_secs w) + j')%nat, lit 1.0)
                             end.
Proof.
  intros Hin.
  destruct (@compartment_sec _ _ d n w id Hin)
    as (i & r & c0 & Hi & -> & Hj & Hc0 & Hsec).
  exists (4 * i + r)%nat. split; [lia|]. split; [exact Hj|].
  eexists. split; [exact Hsec|].
  rewrite link_parent by (eapply group_unwired; exact Hc0).
  destruct (4 * i + r)%nat as [|j'] eqn:E; [reflexivity|].
  replace (S j' <=? 4 * (Z.to_nat n - 1))%nat with true
    by (symmetry; apply Nat.leb_le; lia).
  reflexivity.
Qed.

Lemma compartment_parent_of (d : F) (n : Z) (w : World F) (id : nat) :
  In id (compartments (fiber_at (length (w_secs w)) (Z.to_nat n))) ->
  exists j,
    id = (length (w_secs w) + j)%nat /\
    parent_of (built d n w) id = match j with
                                 | O => None
                                 | S j' => Some (length (w_secs w) + j')%nat
                                 end.
Proof.
  intros Hin.
  destruct (@compartment_parent d n w id Hin) as (j & -> & _ & c & Hc & Hp).
  exists j. split; [reflexivity|].
  unfold parent_of. rewrite Hc, Hp. now destruct j.
Qed.

Lemma attached_next (d : F) (n : Z) (w : World F) (j : nat) :
  In (length (w_secs w) + S j)%nat
     (compartments (fiber_at (length (w_secs w)) (Z.to_nat n))) ->
  attached (built d n w) (length (w_secs w) + S j) (length (w_secs w) + j).
Proof.
  intros Hin.
  destruct (@compartment_parent d n w _ Hin) as (j0 & Hj0 & _ & c & Hc & Hp).
  assert (j0 = S j) by lia. subst j0.
  exists c. split; assumption.
Qed.

Lemma compartments_NoDup (base N : nat) : NoDup (compartments (fiber_at base N)).
Proof.
  unfold compartments, fiber_at. cbn [nodes paranos juxtas interns].
  repeat (apply NoDup_app; [apply ids_NoDup | |]); try apply ids_NoDup.
  all: intros a Ha; rewrite ?in_app_iff, !In_ids in *;
       destruct Ha as (i & Hi & ->);
       intros H; repeat destruct H as [H|H]; destruct H as (i' & Hi' & H); lia.
Qed.

Lemma compartments_length (base N : nat) :
  length (compartments (fiber_at base N)) = (N + 3 * (N - 1))%nat.
Proof.
  unfold compartments, fiber_at. cbn [nodes paranos juxtas interns].
  rewrite !length_app, !ids_length. lia.
Qed.

Lemma built_length (d : F) (n : Z) (w : World F) :
  length (w_secs (built d n w)) =
    (length (w_secs w) + (4 * (Z.to_nat n - 1) + Nat.min (Z.to_nat n) 1))%nat.
Proof.
  destruct w as [secs stims vecs plays recs t dt tstop runs out].
  unfold built. cbn [on_secs w_secs]. now rewrite length_app, chain_length.
Qed.

End FiberFacts.

Lemma make_MRG_fiber_built {F : Type} {SF : Scalar F} (d : F) (n : Z) (w : World F) :
  make_MRG_fiber d n w =
    (Ok (fiber_at (length (w_secs w)) (Z.to_nat n)), built d n w).
Proof. apply make_MRG_fiber_run. Qed.


Section ParameterFacts.

Context {F : Type} {SF : Scalar F}.

Lemma group_parameters (d : F) (N i r : nat) (c0 : Sec F) :
  nth_error (group d N i) r = Some c0 ->
  sec_diam c0 = d /\ sec_Ra c0 = DEFAULT_RA /\ sec_nseg c0 = 1%Z /\
  match r with
  | O => sec_cm c0 = CM_NODE /\ sec_hh c0 = Some hh_node /\ sec_pas c0 = None
  | S _ => sec_cm c0 = CM_INTERNODE /\ sec_hh c0 = None /\
           sec_pas c0 = Some pas_myelin
  end.
Proof.
  unfold group. destruct (S i <? N)%nat;
    destruct r as [|[|[|[|r]]]]; cbn; intros H; inversion H; cbn;
    try (repeat split; reflexivity).
  all: destruct r; discriminate.
Qed.

Lemma In_passive_compartments (base N id : nat) :
  In id (passive_compartments (fiber_at base N)) <->
  exists i r, (S i < N)%nat /\ (r < 3)%nat /\ id = (base + 4 * i + S r)%nat.
Proof.
  unfold passive_compartments, fiber_at. cbn [paranos juxtas interns].
  rewrite !in_app_iff, !In_ids. split.
  - intros [(i & Hi & ->)|[(i & Hi & ->)|(i & Hi & ->)]].
    + exists i, 0%nat. repeat split; lia.
    + exists i, 1%nat. repeat split; lia.
    + exists i, 2%nat. repeat split; lia.
  - intros (i & r & Hi & Hr & ->).
    destruct r as [|[|[|r]]]; try lia.
    + left. exists i. split; [lia | reflexivity].
    + right; left. exists i. split; [lia | reflexivity].
    + right; right. exists i. split; [lia | reflexivity].
Qed.

End ParameterFacts.

(* ================================================================== *)
(** * The bracket over the reals, and the geometry rules *)
(* ================================================================== *)

Lemma narrowed_one_end {F : Type} {SF : Scalar F} (g : F -> bool) (b : F * F)
  (j : nat) :
  narrowed g (S j) b = (fst (narrowed g j b), midpoint (narrowed g j b)) \/
  narrowed g (S j) b = (midpoint (narrowed g j b), snd (narrowed g j b)).
Proof.
  change (narrowed g (S j) b) with (narrow g (narrowed g j b)).
  unfold narrow. destruct (g (midpoint (narrowed g j b))); auto.
Qed.

Section ExactBracket.

Variable g : R -> bool.
Local Open Scope R_scope.

Lemma R_midpoint (b : R * R) :
  @midpoint R Exact.scalar b = (fst b + snd b) / 2.
Proof. unfold midpoint. cbn. unfold Q2R. cbn. lra. Qed.

Lemma R_narrow_width (b : R * R) :
  @width R Exact.scalar (narrow g b) = @width R Exact.scalar b / 2.
Proof.
  unfold narrow, width. destruct (g (midpoint b)); cbn [fst snd fsub Exact.scalar];
    rewrite R_midpoint; lra.
Qed.

Lemma R_narrowed_width (b : R * R) (j : nat) :
  @width R Exact.scalar (narrowed g (S j) b) =
    @width R Exact.scalar (narrowed g j b) / 2.
Proof.
  change (narrowed g (S j) b) with (narrow g (narrowed g j b)).
  apply R_narrow_width.
Qed.

Lemma R_narrowed_pos (b : R * R) (j : nat) :
  fst b < snd b -> 0 < @width R Exact.scalar (narrowed g j b).
Proof.
  intros Hb. induction j as [|j IH].
  - unfold narrowed, width. cbn. lra.
  - rewrite R_narrowed_width. lra.
Qed.

End ExactBracket.

Lemma index_of_some {A} (l : list A) (i : Z) :
  (0 <= i < len l)%Z ->
  exists a, index_of l i = Some a /\ nth_error l (Z.to_nat i) = Some a.
Proof.
  intros Hi. unfold len in Hi.
  destruct (nth_error l (Z.to_nat i)) as [a|] eqn:E.
  - exists a. split; [|reflexivity].
    rewrite <- (Z2Nat.id i) by lia. now rewrite index_of_nat.
  - apply nth_error_None in E. lia.
Qed.

Section ExactGeometry.

Local Open Scope R_scope.






End ExactGeometry.

(* ================================================================== *)
(** * The concrete fiber *)
(* ================================================================== *)

Lemma demo_built : Demo.built_world = (Ok Demo.fiber, Demo.world).
Proof. vm_compute. reflexivity. Qed.

Lemma demo_ready :
  @Ready float Demo.fiber Demo.tvec None Demo.world 4 8 2%float.
Proof.
  constructor; try (vm_compute; reflexivity).
  constructor; try (vm_compute; reflexivity).
  vm_compute. constructor.
Qed.

(** The literals of the source, as binary64 parses them. *)
Example binary64_literals :
  (@DT float _, @DEFAULT_RA float _, @CM_INTERNODE float _, @E_LEAK float _,
   @G_NA_BAR float _, @G_K_BAR float _, @G_LEAK_NODE float _,
   @G_PAS_INTERN float _, @lit float _ 1e9)
  = (0.025, 70, 0.02, -80, 0.18, 0.036, 0.0003, 1e-5, 1e9)%float.
Proof. vm_compute. reflexivity. Qed.

Example binary64_lengths :
  (@internode_length_from_diam float _ 5%float,
   @internode_length_from_diam float _ 0.2%float,
   @paranode_length_um float _ 4%float, @juxta_length_um float _ 0.16%float)
  = (500, 50, 6, 5)%float.
Proof. vm_compute. reflexivity. Qed.

(** The search over [0, 1000] with the defaults of the source: 17
    iterations, after the two trials of the ends. *)
Example demo_threshold :
  let r := find_threshold (echo 300%float) Demo.fiber Demo.tvec Demo.pulse
             0%float 1000%float 0.01%float 20 None Demo.world in
  fst r = Ok (Some 300.0030517578125%float) /\
  length (w_runs (snd r)) = 19%nat /\
  w_recs (snd r) = [] /\ w_plays (snd r) = [].
Proof. vm_compute. repeat split. Qed.

(* ================================================================== *)
(** * Rounding to nearest in binary64 *)
(* ================================================================== *)

(** What [SpecFloat.binary_round] computes, and from it: sums,
    differences and products by a non-negative number are monotone on
    the finite floats, halving the double of a float gives the float
    back, and the midpoint of a bracket lies between its ends. *)
Section Rounding.

Local Open Scope Z_scope.

Lemma pow2_gt0 n : 0 <= n -> 0 < 2 ^ n.
Proof. intros; apply Z.pow_pos_nonneg; lia. Qed.

Lemma pow2_ge0 n : 0 <= 2 ^ n.
Proof. apply Z.pow_nonneg; lia. Qed.

Lemma pow2_S n : 0 <= n -> 2 ^ (n + 1) = 2 * 2 ^ n.
Proof. intros; rewrite Z.pow_add_r by lia; lia. Qed.

Lemma pow2_split a b : 0 <= b <= a -> 2 ^ a = 2 ^ (a - b) * 2 ^ b.
Proof. intros; rewrite <- Z.pow_add_r by lia; f_equal; lia. Qed.

Lemma pow2_le a b : a <= b -> 2 ^ a <= 2 ^ b.
Proof. intros; apply Z.pow_le_mono_r; lia. Qed.

Lemma pow2_lt a b : 0 <= b -> a < b -> 2 ^ a < 2 ^ b.
Proof. intros; apply Z.pow_lt_mono_r; lia. Qed.

(** ** The number of bits of a mantissa *)
Lemma digits2_pos_bounds p :
  2 ^ (Zpos (digits2_pos p) - 1) <= Zpos p < 2 ^ Zpos (digits2_pos p).
Proof.
  induction p as [p IH|p IH|]; cbn [digits2_pos].
  - rewrite Pos2Z.inj_succ. replace (Z.succ (Zpos (digits2_pos p)) - 1) with (Zpos (digits2_pos p) - 1 + 1) by lia.
    unfold Z.succ. rewrite !pow2_S by lia. lia.
  - rewrite Pos2Z.inj_succ. replace (Z.succ (Zpos (digits2_pos p)) - 1) with (Zpos (digits2_pos p) - 1 + 1) by lia.
    unfold Z.succ. rewrite !pow2_S by lia. lia.
  - cbn. lia.
Qed.

Lemma Zdigits2_bounds m : 0 < m -> 2 ^ (Zdigits2 m - 1) <= m < 2 ^ Zdigits2 m.
Proof. destruct m; try lia. intros _. apply digits2_pos_bounds. Qed.

Lemma Zdigits2_pos m : 0 < m -> 0 < Zdigits2 m.
Proof. destruct m; cbn; lia. Qed.

Lemma Zdigits2_unique m d : 0 < m -> 2 ^ (d - 1) <= m < 2 ^ d -> Zdigits2 m = d.
Proof.
  intros Hm [H1 H2]. pose proof (Zdigits2_bounds Hm) as [H3 H4].
  pose proof (Zdigits2_pos Hm).
  assert (0 < d). { destruct (Z_lt_le_dec 0 d); auto. assert (2 ^ d <= 2 ^ 0) by (apply pow2_le; lia). change (2^0) with 1 in *. lia. }
  destruct (Z.lt_trichotomy (Zdigits2 m) d) as [Ht|[Ht|Ht]]; auto; exfalso.
  - assert (2 ^ Zdigits2 m <= 2 ^ (d - 1)) by (apply pow2_le; lia). lia.
  - assert (2 ^ d <= 2 ^ (Zdigits2 m - 1)) by (apply pow2_le; lia). lia.
Qed.

Lemma Zdigits2_double m : 0 < m -> Zdigits2 (2 * m) = Zdigits2 m + 1.
Proof.
  intros Hm. destruct m; try lia. change (2 * Z.pos p) with (Z.pos p~0). cbn [Zdigits2 digits2_pos]. rewrite Pos2Z.inj_succ. lia.
Qed.

Lemma Zdigits2_mono a b : 0 < a <= b -> Zdigits2 a <= Zdigits2 b.
Proof.
  intros [Ha Hab]. pose proof (Zdigits2_bounds Ha). assert (Hb : 0 < b) by lia.
  pose proof (Zdigits2_bounds Hb).
  destruct (Z_le_gt_dec (Zdigits2 a) (Zdigits2 b)); auto. exfalso.
  assert (2 ^ Zdigits2 b <= 2 ^ (Zdigits2 a - 1)) by (apply pow2_le; lia). lia.
Qed.

(** ** Right shifts *)
Lemma iter_pos_ind (A : Type) (f : A -> A) (P : Z -> A -> Prop) :
  (forall k x, 0 <= k -> P k x -> P (k + 1) (f x)) ->
  forall p k x, 0 <= k -> P k x -> P (k + Zpos p) (iter_pos f p x).
Proof.
  intros Hstep. induction p as [p IH|p IH|]; intros k x Hk HP; cbn [iter_pos].
  - replace (k + Zpos p~1) with (k + 1 + Zpos p + Zpos p) by lia.
    apply IH; [lia|]. apply IH; [lia|]. apply Hstep; auto.
  - replace (k + Zpos p~0) with (k + Zpos p + Zpos p) by lia.
    apply IH; [lia|]. apply IH; auto.
  - apply Hstep; auto.
Qed.

Lemma shr_1_located m0 k mrs : 0 <= k -> located m0 k mrs -> located m0 (k + 1) (shr_1 mrs).
Proof.
  intros Hk (q & r & Hm & Hr & Hq & Em & Er & Es).
  pose proof (pow2_gt0 Hk) as Hp. pose proof (pow2_S Hk) as HS.
  destruct mrs as [m rb sb]. cbn [shr_m shr_r shr_s] in Em, Er, Es. subst m.
  assert (Hs' : (rb || sb) = negb (r =? 0)).
  { rewrite Er, Es. lia. }
  destruct q as [|[p|p|]|]; try lia; cbn [shr_1].
  - exists 0, r. cbn [shr_m shr_r shr_s]. rewrite Hs', !HS. repeat split; lia.
  - exists (Zpos p), (2 ^ k + r). cbn [shr_m shr_r shr_s]. rewrite Hs', !HS. repeat split; lia.
  - exists (Zpos p), r. cbn [shr_m shr_r shr_s]. rewrite Hs', !HS. repeat split; lia.
  - exists 0, (2 ^ k + r). cbn [shr_m shr_r shr_s]. rewrite Hs', !HS. repeat split; lia.
Qed.

Lemma located_0 m0 : 0 <= m0 -> located m0 0 {| shr_m := m0; shr_r := false; shr_s := false |}.
Proof.
  intros. exists m0, 0. cbn. repeat split; lia.
Qed.

Lemma shr_located m0 e n : 0 <= m0 -> 0 < n ->
  located m0 n (fst (shr {| shr_m := m0; shr_r := false; shr_s := false |} e n)) /\
  snd (shr {| shr_m := m0; shr_r := false; shr_s := false |} e n) = e + n.
Proof.
  intros Hm Hn. destruct n as [|p|p]; try lia. cbn [shr fst snd]. split; auto.
  change (Zpos p) with (0 + Zpos p).
  apply (@iter_pos_ind _ shr_1 (located m0)); [intros; apply shr_1_located; auto|lia|].
  apply located_0; auto.
Qed.

Lemma shr_le0 mrs e n : n <= 0 -> shr mrs e n = (mrs, e).
Proof. destruct n; try lia; reflexivity. Qed.

Lemma fexp_eq e : fexp 53 1024 e = Z.max (e - 53) (-1074).
Proof. reflexivity. Qed.

Lemma located_div m0 n mrs : 0 <= n -> located m0 n mrs ->
  shr_m mrs = m0 / 2 ^ n /\
  shr_r mrs = (2 ^ n <=? 2 * (m0 mod 2 ^ n)) /\
  shr_s mrs = negb ((m0 mod 2 ^ n =? 0) || (2 * (m0 mod 2 ^ n) =? 2 ^ n)).
Proof.
  intros Hn (q & r & Hm & Hr & Hq & Em & Er & Es).
  assert (q = m0 / 2 ^ n) by (apply Z.div_unique with r; lia).
  assert (r = m0 mod 2 ^ n) by (apply Z.mod_unique with q; lia).
  subst q r. auto.
Qed.

Lemma rne_located m0 n mrs : 0 <= n -> located m0 n mrs ->
  round_nearest_even (shr_m mrs) (loc_of_shr_record mrs) =
  nearest_even (m0 / 2 ^ n) (m0 mod 2 ^ n) n.
Proof.
  intros Hn H. destruct (located_div Hn H) as (Em & Er & Es).
  destruct mrs as [m rb sb]. cbn [shr_m shr_r shr_s] in *. subst m.
  unfold nearest_even. set (q := m0 / 2 ^ n) in *. set (r := m0 mod 2 ^ n) in *.
  destruct rb, sb; cbn [loc_of_shr_record round_nearest_even];
    rewrite <- ?(Z.negb_odd q);
    destruct (Z.ltb_spec (2 ^ n) (2 * r)), (Z.eqb_spec (2 * r) (2 ^ n)), (Z.odd q);
    cbn [orb andb negb]; lia.
Qed.

Lemma rne_bounds q r n : q <= nearest_even q r n <= q + 1.
Proof. unfold nearest_even. destruct (_ || _); lia. Qed.

Lemma stage2 sx Q t : 0 <= Q <= 2 ^ 53 -> -1074 <= t ->
  (let '(mrs, e) := shr_fexp 53 1024 Q t loc_Exact in
   match shr_m mrs with
   | Z0 => S754_zero sx
   | Zpos m => if e <=? 1024 - 53 then S754_finite sx m e else S754_infinity sx
   | Zneg _ => S754_nan
   end) = sf_pack sx Q t.
Proof.
  intros HQ Ht. unfold shr_fexp, sf_pack.
  destruct (Z.eqb_spec Q 0) as [->|H0].
  { cbn [Zdigits2]. rewrite shr_le0 by (rewrite fexp_eq; lia). reflexivity. }
  destruct (Z.eqb_spec Q (2 ^ 53)) as [->|H1].
  { change (Zdigits2 (2 ^ 53)) with 54. rewrite fexp_eq.
    replace (Z.max (54 + t - 53) (-1074) - t) with 1 by lia. reflexivity. }
  assert (HQ' : 0 < Q) by lia.
  pose proof (Zdigits2_bounds HQ') as [Hd _].
  assert (Zdigits2 Q <= 53).
  { destruct (Z_le_gt_dec (Zdigits2 Q) 53); auto.
    assert (2 ^ 53 <= 2 ^ (Zdigits2 Q - 1)) by (apply pow2_le; lia). lia. }
  rewrite shr_le0 by (rewrite fexp_eq; lia).
  destruct Q; try lia. reflexivity.
Qed.

Lemma binary_round_aux_rnd sx m e :
  e <= fexp 53 1024 (Zdigits2 (Zpos m) + e) ->
  binary_round_aux 53 1024 sx (Zpos m) e loc_Exact = sf_rnd sx (Zpos m) e.
Proof.
  intros Hn. unfold binary_round_aux, sf_rnd.
  set (M := Zpos m) in *. assert (HM : 0 < M) by (subst M; lia).
  pose proof (Zdigits2_bounds HM) as [Hd1 Hd2].
  pose proof (Zdigits2_pos HM) as Hd0.
  set (d := Zdigits2 M) in *. set (t := fexp 53 1024 (d + e)) in *.
  assert (Ht : t = Z.max (d + e - 53) (-1074)) by reflexivity.
  unfold shr_fexp at 1. fold d. fold t. cbn [shr_record_of_loc].
  destruct (Z.leb_spec t e) as [Hle|Hgt].
  - assert (E : t = e) by lia.
    rewrite shr_le0 by lia. cbn [loc_of_shr_record round_nearest_even shr_m].
    replace (e - t) with 0 by lia. rewrite Z.mul_1_r. rewrite <- E.
    apply stage2; [|lia]. split; [lia|].
    assert (2 ^ d <= 2 ^ 53) by (apply pow2_le; lia). lia.
  - destruct (@shr_located M e (t - e)) as [Hloc Hsnd]; try lia.
    destruct (shr _ e (t - e)) as [mrs e'] eqn:Es. cbn [fst snd] in Hloc, Hsnd.
    rewrite (rne_located (m0:=M) (n:=t-e)); [|lia|exact Hloc].
    replace e' with t by lia.
    apply stage2; [|lia].
    pose proof (rne_bounds (M / 2 ^ (t - e)) (M mod 2 ^ (t - e)) (t - e)).
    assert (0 <= M / 2 ^ (t - e)) by (apply Z.div_pos; [lia|apply pow2_gt0; lia]).
    split; [lia|].
    assert (M / 2 ^ (t - e) < 2 ^ 53); [|lia].
    apply Z.div_lt_upper_bound; [apply pow2_gt0; lia|].
    rewrite <- Z.pow_add_r by lia.
    assert (2 ^ d <= 2 ^ (t - e + 53)) by (apply pow2_le; lia). lia.
Qed.

Lemma shl_align_spec m e t :
  shl_align m e t = if t <? e then (Z.to_pos (Zpos m * 2 ^ (e - t)), t) else (m, e).
Proof.
  unfold shl_align. destruct (Z.ltb_spec t e) as [H|H].
  - destruct (t - e) as [|p|p] eqn:E; try lia. f_equal.
    apply Pos2Z.inj. pose proof (shift_pos_correct p m) as Hc.
    unfold shift_pos in Hc. rewrite Hc, Z.pow_pos_fold.
    replace (e - t) with (Zpos p) by lia.
    rewrite Z2Pos.id; [lia|]. assert (0 < 2 ^ Zpos p) by (apply pow2_gt0; lia). lia.
  - destruct (t - e) as [|p|p] eqn:E; try lia; reflexivity.
Qed.

Lemma Zdigits2_shift m k : 0 < m -> 0 <= k -> Zdigits2 (m * 2 ^ k) = Zdigits2 m + k.
Proof.
  intros Hm Hk. pose proof (Zdigits2_bounds Hm) as [H1 H2]. pose proof (Zdigits2_pos Hm).
  pose proof (pow2_gt0 Hk).
  apply Zdigits2_unique; [nia|].
  replace (Zdigits2 m + k - 1) with (Zdigits2 m - 1 + k) by lia.
  rewrite !Z.pow_add_r by lia. nia.
Qed.

Lemma binary_round_aux_rnd' sx M e : 0 < M ->
  e <= fexp 53 1024 (Zdigits2 M + e) ->
  binary_round_aux 53 1024 sx M e loc_Exact = sf_rnd sx M e.
Proof. destruct M; try lia. intros _. apply binary_round_aux_rnd. Qed.

Lemma binary_round_rnd sx m e : binary_round 53 1024 sx m e = sf_rnd sx (Zpos m) e.
Proof.
  unfold binary_round. rewrite shl_align_spec.
  change (Zpos (digits2_pos m)) with (Zdigits2 (Zpos m)).
  set (t := fexp 53 1024 (Zdigits2 (Zpos m) + e)).
  destruct (Z.ltb_spec t e) as [H|H].
  - assert (Hp : 0 < Zpos m * 2 ^ (e - t)).
    { assert (0 < 2 ^ (e - t)) by (apply pow2_gt0; lia). lia. }
    assert (Hd : Zdigits2 (Zpos m * 2 ^ (e - t)) + t = Zdigits2 (Zpos m) + e).
    { rewrite Zdigits2_shift by lia. lia. }
    rewrite Z2Pos.id by lia.
    rewrite binary_round_aux_rnd' by (try rewrite Hd; fold t; lia).
    unfold sf_rnd. rewrite Hd. fold t.
    replace (t <=? t) with true by lia. replace (t <=? e) with true by lia.
    replace (t - t) with 0 by lia. change (2 ^ 0) with 1. rewrite Z.mul_1_r. reflexivity.
  - apply binary_round_aux_rnd. fold t. lia.
Qed.

Lemma binary_normalize_norm M e : binary_normalize 53 1024 M e false = sf_round M e.
Proof.
  destruct M; cbn [binary_normalize]; unfold sf_round; cbn [Z.eqb Z.ltb Z.compare Z.opp]; auto using binary_round_rnd.
Qed.

Lemma rnd_finish sx m e : sf_rnd sx m e = sf_pack sx (round_mant m e) (round_exp m e).
Proof. unfold sf_rnd, round_mant, round_exp. destruct (_ <=? e); reflexivity. Qed.

Lemma rt_ge m e : -1074 <= round_exp m e.
Proof. unfold round_exp. rewrite fexp_eq. lia. Qed.

Lemma rq_bounds m e : 0 < m -> 0 <= round_mant m e <= 2 ^ 53 /\ (-1074 < round_exp m e -> 2 ^ 52 <= round_mant m e).
Proof.
  intros Hm. unfold round_mant. pose proof (Zdigits2_bounds Hm) as [H1 H2]. pose proof (Zdigits2_pos Hm) as H0.
  assert (Ht : round_exp m e = Z.max (Zdigits2 m + e - 53) (-1074)) by reflexivity.
  set (t := round_exp m e) in *. set (d := Zdigits2 m) in *.
  destruct (Z.leb_spec t e) as [Hle|Hgt].
  - assert (Hk : 0 < 2 ^ (e - t)) by (apply pow2_gt0; lia).
    split; [split; [nia|]|intros Hn].
    + assert (2 ^ d * 2 ^ (e - t) <= 2 ^ 53).
      { rewrite <- Z.pow_add_r by lia. apply pow2_le; lia. }
      nia.
    + assert (2 ^ 52 = 2 ^ (d - 1) * 2 ^ (e - t)).
      { rewrite <- Z.pow_add_r by lia. f_equal. lia. }
      nia.
  - pose proof (rne_bounds (m / 2 ^ (t - e)) (m mod 2 ^ (t - e)) (t - e)).
    assert (Hk : 0 < 2 ^ (t - e)) by (apply pow2_gt0; lia).
    assert (0 <= m / 2 ^ (t - e)) by (apply Z.div_pos; lia).
    split; [split; [lia|]|intros Hn].
    + assert (m / 2 ^ (t - e) < 2 ^ 53); [|lia].
      apply Z.div_lt_upper_bound; [lia|].
      rewrite <- Z.pow_add_r by lia.
      assert (2 ^ d <= 2 ^ (t - e + 53)) by (apply pow2_le; lia). lia.
    + assert (2 ^ 52 <= m / 2 ^ (t - e)); [|lia].
      apply Z.div_le_lower_bound; [lia|].
      rewrite <- Z.pow_add_r by lia. replace (t - e + 52) with (d - 1) by lia. lia.
Qed.

Lemma rt_double m e : 0 < m -> round_exp (2 * m) (e - 1) = round_exp m e.
Proof. intros. unfold round_exp. rewrite Zdigits2_double by auto. f_equal. lia. Qed.

Lemma rne_exact q n : 0 < n -> nearest_even q 0 n = q.
Proof.
  intros Hn. unfold nearest_even. pose proof (pow2_gt0 (n:=n)).
  replace (2 ^ n <? 2 * 0) with false by lia.
  replace (2 * 0 =? 2 ^ n) with false by lia. cbn. lia.
Qed.

Lemma rne_double q r n : 0 <= n -> nearest_even q (2 * r) (n + 1) = nearest_even q r n.
Proof.
  intros Hn. unfold nearest_even. rewrite pow2_S by auto.
  replace (2 * 2 ^ n <? 2 * (2 * r)) with (2 ^ n <? 2 * r) by lia.
  replace (2 * (2 * r) =? 2 * 2 ^ n) with (2 * r =? 2 ^ n) by lia.
  reflexivity.
Qed.

Lemma rq_double m e : 0 < m -> round_mant (2 * m) (e - 1) = round_mant m e.
Proof.
  intros Hm. unfold round_mant. rewrite rt_double by auto. set (t := round_exp m e).
  destruct (Z.leb_spec t (e - 1)) as [H1|H1].
  - replace (t <=? e) with true by lia.
    replace (e - t) with (e - 1 - t + 1) by lia. rewrite pow2_S by lia. lia.
  - destruct (Z.leb_spec t e) as [H2|H2].
    + replace (t - (e - 1)) with 1 by lia. replace (e - t) with 0 by lia.
      change (2 ^ 1) with 2. change (2 ^ 0) with 1.
      rewrite (Z.mul_comm 2 m), Z.div_mul, Z.mod_mul by lia.
      rewrite rne_exact by lia. lia.
    + replace (t - (e - 1)) with (t - e + 1) by lia.
      assert (0 < 2 ^ (t - e)) by (apply pow2_gt0; lia).
      rewrite pow2_S by lia.
      rewrite Z.div_mul_cancel_l, Z.mul_mod_distr_l by lia.
      apply rne_double. lia.
Qed.

Lemma rnd_double sx m e : 0 < m -> sf_rnd sx (2 * m) (e - 1) = sf_rnd sx m e.
Proof. intros. rewrite !rnd_finish, rq_double, rt_double by auto. reflexivity. Qed.

Lemma rnd_shift sx m e k : 0 < m -> 0 <= k -> sf_rnd sx (m * 2 ^ k) (e - k) = sf_rnd sx m e.
Proof.
  intros Hm Hk. revert e. pattern k. apply natlike_ind; auto.
  - intros e. change (2 ^ 0) with 1. f_equal; lia.
  - intros x Hx IH e. unfold Z.succ. rewrite pow2_S by auto.
    replace (m * (2 * 2 ^ x)) with (2 * (m * 2 ^ x)) by lia.
    replace (e - (x + 1)) with (e - x - 1) by lia.
    rewrite rnd_double; [apply IH|]. assert (0 < 2 ^ x) by (apply pow2_gt0; auto). nia.
Qed.

Lemma norm_shift M e k : 0 <= k -> sf_round (M * 2 ^ k) (e - k) = sf_round M e.
Proof.
  intros Hk. unfold sf_round. assert (Hp : 0 < 2 ^ k) by (apply pow2_gt0; auto).
  destruct (Z.eqb_spec M 0) as [->|H0]; [reflexivity|].
  replace (M * 2 ^ k =? 0) with false by nia.
  destruct (Z.ltb_spec 0 M).
  - replace (0 <? M * 2 ^ k) with true by nia. apply rnd_shift; auto.
  - replace (0 <? M * 2 ^ k) with false by nia.
    replace (- (M * 2 ^ k)) with (- M * 2 ^ k) by lia. apply rnd_shift; lia.
Qed.

(** ** Rounding is monotone *)
Lemma rt_mono m1 m2 e : 0 < m1 <= m2 -> round_exp m1 e <= round_exp m2 e.
Proof.
  intros H. unfold round_exp. rewrite !fexp_eq. pose proof (Zdigits2_mono H). lia.
Qed.

Lemma rne_mono a b n : 0 <= n -> 0 <= a <= b ->
  nearest_even (a / 2 ^ n) (a mod 2 ^ n) n <= nearest_even (b / 2 ^ n) (b mod 2 ^ n) n.
Proof.
  intros Hn Hab. assert (Hp : 0 < 2 ^ n) by (apply pow2_gt0; auto).
  pose proof (Z.div_mod a (2 ^ n)) as Ha. pose proof (Z.div_mod b (2 ^ n)) as Hb.
  pose proof (Z.mod_pos_bound a (2 ^ n) Hp). pose proof (Z.mod_pos_bound b (2 ^ n) Hp).
  assert (Hq : a / 2 ^ n <= b / 2 ^ n) by (apply Z.div_le_mono; lia).
  set (qa := a / 2 ^ n) in *. set (qb := b / 2 ^ n) in *.
  set (ra := a mod 2 ^ n) in *. set (rb := b mod 2 ^ n) in *.
  specialize (Ha ltac:(lia)). specialize (Hb ltac:(lia)).
  pose proof (rne_bounds qa ra n). pose proof (rne_bounds qb rb n).
  destruct (Z.eq_dec qa qb) as [E|E]; [|lia].
  assert (ra <= rb) by (rewrite E in Ha; lia).
  unfold nearest_even. rewrite E.
  destruct (Z.ltb_spec (2 ^ n) (2 * ra)), (Z.ltb_spec (2 ^ n) (2 * rb)),
    (Z.eqb_spec (2 * ra) (2 ^ n)), (Z.eqb_spec (2 * rb) (2 ^ n)), (Z.odd qb);
    cbn [orb andb]; lia.
Qed.

Lemma rq_mono m1 m2 e : 0 < m1 <= m2 -> round_exp m1 e = round_exp m2 e -> round_mant m1 e <= round_mant m2 e.
Proof.
  intros H Ht. unfold round_mant. rewrite Ht. set (t := round_exp m2 e).
  destruct (Z.leb_spec t e).
  - assert (0 < 2 ^ (e - t)) by (apply pow2_gt0; lia). nia.
  - apply rne_mono; lia.
Qed.

(** ** The order of the rounded results *)
Lemma compare_cont_Eq a b : Pos.compare_cont Eq a b = (Zpos a ?= Zpos b).
Proof. reflexivity. Qed.

Lemma SFleb_pos m1 e1 m2 e2 :
  SFleb (S754_finite false m1 e1) (S754_finite false m2 e2) = true <->
  e1 < e2 \/ (e1 = e2 /\ Zpos m1 <= Zpos m2).
Proof.
  unfold SFleb, SFcompare. change (PosDef.Pos.compare_cont Eq m1 m2) with (Zpos m1 ?= Zpos m2).
  destruct (Z.compare_spec e1 e2); [destruct (Z.compare_spec (Zpos m1) (Zpos m2))|..];
    split; intros; try discriminate; try reflexivity; lia.
Qed.

Lemma SFleb_neg m1 e1 m2 e2 :
  SFleb (S754_finite true m1 e1) (S754_finite true m2 e2) = true <->
  e2 < e1 \/ (e1 = e2 /\ Zpos m2 <= Zpos m1).
Proof.
  unfold SFleb, SFcompare. change (PosDef.Pos.compare_cont Eq m1 m2) with (Zpos m1 ?= Zpos m2).
  destruct (Z.compare_spec e1 e2); [destruct (Z.compare_spec (Zpos m1) (Zpos m2))|..];
    cbn [CompOpp]; split; intros; try discriminate; try reflexivity; lia.
Qed.

Lemma finish_leb Q1 t1 Q2 t2 : packable Q1 t1 -> packable Q2 t2 ->
  t1 < t2 \/ (t1 = t2 /\ Q1 <= Q2) ->
  SFleb (sf_pack false Q1 t1) (sf_pack false Q2 t2) = true.
Proof.
  intros (B1 & T1 & N1) (B2 & T2 & N2) H. unfold sf_pack.
  change (2 ^ 53) with 9007199254740992 in *. change (2 ^ 52) with 4503599627370496 in *.
  destruct (Z.eqb_spec Q1 0), (Z.eqb_spec Q2 0), (Z.eqb_spec Q1 9007199254740992),
    (Z.eqb_spec Q2 9007199254740992), (Z.leb_spec (t1 + 1) 971), (Z.leb_spec (t2 + 1) 971),
    (Z.leb_spec t1 971), (Z.leb_spec t2 971); try lia; try reflexivity;
    try (apply SFleb_pos; rewrite ?Z2Pos.id by lia; cbn [Z.to_pos]; lia).
Qed.

Lemma finish_leb_neg Q1 t1 Q2 t2 : packable Q1 t1 -> packable Q2 t2 ->
  t1 < t2 \/ (t1 = t2 /\ Q1 <= Q2) ->
  SFleb (sf_pack true Q2 t2) (sf_pack true Q1 t1) = true.
Proof.
  intros (B1 & T1 & N1) (B2 & T2 & N2) H. unfold sf_pack.
  change (2 ^ 53) with 9007199254740992 in *. change (2 ^ 52) with 4503599627370496 in *.
  destruct (Z.eqb_spec Q1 0), (Z.eqb_spec Q2 0), (Z.eqb_spec Q1 9007199254740992),
    (Z.eqb_spec Q2 9007199254740992), (Z.leb_spec (t1 + 1) 971), (Z.leb_spec (t2 + 1) 971),
    (Z.leb_spec t1 971), (Z.leb_spec t2 971); try lia; try reflexivity;
    try (apply SFleb_neg; rewrite ?Z2Pos.id by lia; cbn [Z.to_pos]; lia).
Qed.

Lemma finish_leb_mixed Q1 t1 Q2 t2 : SFleb (sf_pack true Q1 t1) (sf_pack false Q2 t2) = true.
Proof.
  unfold sf_pack.
  destruct (Q1 =? 0), (Q2 =? 0), (Q1 =? 2 ^ 53), (Q2 =? 2 ^ 53), (t1 + 1 <=? 971), (t2 + 1 <=? 971),
    (t1 <=? 971), (t2 <=? 971); reflexivity.
Qed.

Lemma finish_leb_zero_r Q t s : SFleb (sf_pack true Q t) (S754_zero s) = true.
Proof.
  unfold sf_pack. destruct (Q =? 0), (Q =? 2 ^ 53), (t + 1 <=? 971), (t <=? 971); reflexivity.
Qed.

Lemma finish_leb_zero_l Q t s : SFleb (S754_zero s) (sf_pack false Q t) = true.
Proof.
  unfold sf_pack. destruct (Q =? 0), (Q =? 2 ^ 53), (t + 1 <=? 971), (t <=? 971); reflexivity.
Qed.

Lemma rq_good m e : 0 < m -> packable (round_mant m e) (round_exp m e).
Proof. intros Hm. destruct (rq_bounds e Hm). pose proof (rt_ge m e). split; auto. Qed.

Lemma rnd_order m1 m2 e : 0 < m1 <= m2 ->
  round_exp m1 e < round_exp m2 e \/ (round_exp m1 e = round_exp m2 e /\ round_mant m1 e <= round_mant m2 e).
Proof.
  intros H. pose proof (rt_mono e H).
  destruct (Z.eq_dec (round_exp m1 e) (round_exp m2 e)); [right; split; auto; apply rq_mono; auto|lia].
Qed.

Lemma norm_mono M1 M2 e : M1 <= M2 -> SFleb (sf_round M1 e) (sf_round M2 e) = true.
Proof.
  intros H. unfold sf_round.
  destruct (Z.eqb_spec M1 0), (Z.eqb_spec M2 0), (Z.ltb_spec 0 M1), (Z.ltb_spec 0 M2);
    try lia; rewrite ?rnd_finish;
    auto using finish_leb_mixed, finish_leb_zero_r, finish_leb_zero_l.
  - apply finish_leb; try apply rq_good; try lia. apply rnd_order; lia.
  - apply finish_leb_neg; try apply rq_good; try lia. apply rnd_order; lia.
Qed.

Lemma valid_finite s m e : SpecFloat.valid_binary 53 1024 (S754_finite s m e) = true ->
  Zdigits2 (Zpos m) <= 53 /\ -1074 <= e <= 971 /\ (-1074 < e -> Zdigits2 (Zpos m) = 53) /\
  round_exp (Zpos m) e = e.
Proof.
  cbn [SpecFloat.valid_binary]. unfold bounded, canonical_mantissa.
  change (Zpos (digits2_pos m)) with (Zdigits2 (Zpos m)). change (1024 - 53) with 971.
  unfold round_exp. rewrite fexp_eq. lia.
Qed.

Lemma Ze_ge f : SpecFloat.valid_binary 53 1024 f = true -> -1074 <= sf_exp f.
Proof. destruct f; cbn [sf_exp]; try lia. intros H. apply valid_finite in H. lia. Qed.

Lemma SFleb_nz a b : SFleb a b = SFleb (sf_unsigned a) (sf_unsigned b).
Proof. destruct a, b; reflexivity. Qed.

Lemma norm_exact f : SpecFloat.valid_binary 53 1024 f = true -> sf_finite f = true ->
  sf_unsigned (sf_round (sf_mant f) (sf_exp f)) = sf_unsigned f.
Proof.
  destruct f as [s| | |s m e]; try discriminate; intros Hv _; [reflexivity|].
  destruct (valid_finite _ _ _ Hv) as (Hd & He & Hn & Ht).
  pose proof (@Zdigits2_bounds (Zpos m) ltac:(lia)) as [_ Hm].
  assert (2 ^ Zdigits2 (Zpos m) <= 2 ^ 53) by (apply pow2_le; lia).
  assert (Hq : round_mant (Zpos m) e = Zpos m).
  { unfold round_mant. rewrite Ht. replace (e <=? e) with true by lia.
    replace (e - e) with 0 by lia. change (2 ^ 0) with 1. lia. }
  cbn [sf_mant sf_exp sf_unsigned]. unfold sf_round. destruct s; cbn [cond_Zopp].
  - replace (- Zpos m =? 0) with false by lia. replace (0 <? - Zpos m) with false by lia.
    rewrite Z.opp_involutive, rnd_finish, Hq, Ht. unfold sf_pack.
    replace (Zpos m =? 0) with false by lia. replace (Zpos m =? 2 ^ 53) with false by lia.
    replace (e <=? 971) with true by lia. reflexivity.
  - replace (Zpos m =? 0) with false by lia. replace (0 <? Zpos m) with true by lia.
    rewrite rnd_finish, Hq, Ht. unfold sf_pack.
    replace (Zpos m =? 0) with false by lia. replace (Zpos m =? 2 ^ 53) with false by lia.
    replace (e <=? 971) with true by lia. reflexivity.
Qed.

Lemma canon_lt m1 e1 m2 e2 c s1 s2 :
  SpecFloat.valid_binary 53 1024 (S754_finite s1 m1 e1) = true ->
  SpecFloat.valid_binary 53 1024 (S754_finite s2 m2 e2) = true ->
  c <= e1 -> e1 < e2 -> Zpos m1 * 2 ^ (e1 - c) < Zpos m2 * 2 ^ (e2 - c).
Proof.
  intros H1 H2 Hc Hlt.
  destruct (valid_finite _ _ _ H1) as (Hd1 & He1 & Hn1 & _).
  destruct (valid_finite _ _ _ H2) as (Hd2 & He2 & Hn2 & _).
  pose proof (@Zdigits2_bounds (Zpos m1) ltac:(lia)) as [_ Hm1].
  pose proof (@Zdigits2_bounds (Zpos m2) ltac:(lia)) as [Hm2 _].
  rewrite Hn2 in Hm2 by lia. change (2 ^ (53 - 1)) with (2 ^ 52) in Hm2.
  assert (2 ^ Zdigits2 (Zpos m1) <= 2 ^ 53) by (apply pow2_le; lia).
  assert (Hp : 0 < 2 ^ (e1 - c)) by (apply pow2_gt0; lia).
  replace (e2 - c) with ((e2 - e1 - 1) + 1 + (e1 - c)) by lia.
  rewrite Z.pow_add_r, pow2_S by lia.
  assert (0 < 2 ^ (e2 - e1 - 1)) by (apply pow2_gt0; lia).
  change (2 ^ 53) with 9007199254740992 in *. change (2 ^ 52) with 4503599627370496 in *.
  assert (Zpos m1 < Zpos m2 * (2 * 2 ^ (e2 - e1 - 1))) by nia.
  rewrite Z.mul_assoc. apply Z.mul_lt_mono_pos_r; auto.
Qed.

Lemma leb_val x y c :
  SpecFloat.valid_binary 53 1024 x = true -> SpecFloat.valid_binary 53 1024 y = true ->
  sf_finite x = true -> sf_finite y = true -> c <= sf_exp x -> c <= sf_exp y ->
  SFleb x y = true -> sf_scaled x c <= sf_scaled y c.
Proof.
  intros Vx Vy Fx Fy Cx Cy H. unfold sf_scaled.
  destruct x as [sx| | |sx mx ex]; try discriminate; destruct y as [sy| | |sy my ey]; try discriminate;
    cbn [sf_mant sf_exp] in *.
  - assert (0 < 2 ^ (ey - c)) by (apply pow2_gt0; lia).
    destruct sy; [discriminate|]. cbn [cond_Zopp]. nia.
  - assert (0 < 2 ^ (ex - c)) by (apply pow2_gt0; lia).
    destruct sx; [|discriminate]. cbn [cond_Zopp]. nia.
  - assert (0 < 2 ^ (ex - c)) by (apply pow2_gt0; lia).
    assert (0 < 2 ^ (ey - c)) by (apply pow2_gt0; lia).
    destruct sx, sy; cbn [cond_Zopp]; try discriminate; try nia.
    + apply SFleb_neg in H. destruct H as [H|[-> H]]; [|nia].
      pose proof (@canon_lt my ey mx ex c _ _ Vy Vx ltac:(lia) H). lia.
    + apply SFleb_pos in H. destruct H as [H|[-> H]]; [|nia].
      pose proof (@canon_lt mx ex my ey c _ _ Vx Vy ltac:(lia) H). lia.
Qed.

Lemma shl_align_val m e t : t <= e -> Zpos (fst (shl_align m e t)) = Zpos m * 2 ^ (e - t).
Proof.
  intros H. rewrite shl_align_spec. destruct (Z.ltb_spec t e); cbn [fst].
  - rewrite Z2Pos.id; auto. assert (0 < 2 ^ (e - t)) by (apply pow2_gt0; lia). lia.
  - replace (e - t) with 0 by lia. change (2 ^ 0) with 1. lia.
Qed.

Lemma cond_Zopp_mul s a b : cond_Zopp s a * b = cond_Zopp s (a * b).
Proof. destruct s; cbn; lia. Qed.

Lemma val_shift f c c' : c' <= c -> c <= sf_exp f -> sf_scaled f c * 2 ^ (c - c') = sf_scaled f c'.
Proof.
  intros. unfold sf_scaled. rewrite <- Z.mul_assoc, <- Z.pow_add_r by lia. do 2 f_equal. lia.
Qed.

Lemma norm_val f c : SpecFloat.valid_binary 53 1024 f = true -> sf_finite f = true -> c <= sf_exp f ->
  sf_unsigned (sf_round (sf_scaled f c) c) = sf_unsigned f.
Proof.
  intros Hv Hf Hc. rewrite <- (norm_exact f Hv Hf).
  unfold sf_scaled. f_equal. replace c with (sf_exp f - (sf_exp f - c)) at 2 by lia. apply norm_shift. lia.
Qed.

Lemma add_norm x y c :
  SpecFloat.valid_binary 53 1024 x = true -> SpecFloat.valid_binary 53 1024 y = true ->
  sf_finite x = true -> sf_finite y = true -> c <= sf_exp x -> c <= sf_exp y ->
  sf_unsigned (SFadd 53 1024 x y) = sf_unsigned (sf_round (sf_scaled x c + sf_scaled y c) c).
Proof.
  intros Vx Vy Fx Fy Cx Cy.
  destruct x as [sx| | |sx mx ex]; try discriminate; destruct y as [sy| | |sy my ey]; try discriminate.
  - destruct sx, sy; reflexivity.
  - replace (sf_scaled (S754_zero sx) c) with 0 by reflexivity. rewrite Z.add_0_l, norm_val; auto.
  - replace (sf_scaled (S754_zero sy) c) with 0 by reflexivity. rewrite Z.add_0_r, norm_val; auto.
  - cbn [SFadd sf_exp] in *. change (IntDef.Z.min ex ey) with (Z.min ex ey).
    rewrite binary_normalize_norm, !shl_align_val by lia. f_equal.
    set (ez := Z.min ex ey). rewrite <- (@norm_shift _ ez (ez - c)) by lia.
    f_equal; [|lia]. unfold sf_scaled. cbn [sf_mant sf_exp]. rewrite !cond_Zopp_mul.
    rewrite Z.mul_add_distr_r, !cond_Zopp_mul, <- !Z.mul_assoc, <- !Z.pow_add_r by lia.
    do 4 f_equal; lia.
Qed.

Lemma sub_norm x y c :
  SpecFloat.valid_binary 53 1024 x = true -> SpecFloat.valid_binary 53 1024 y = true ->
  sf_finite x = true -> sf_finite y = true -> c <= sf_exp x -> c <= sf_exp y ->
  sf_unsigned (SFsub 53 1024 x y) = sf_unsigned (sf_round (sf_scaled x c - sf_scaled y c) c).
Proof.
  intros Vx Vy Fx Fy Cx Cy.
  destruct x as [sx| | |sx mx ex]; try discriminate; destruct y as [sy| | |sy my ey]; try discriminate.
  - destruct sx, sy; reflexivity.
  - replace (sf_scaled (S754_zero sx) c) with 0 by reflexivity. rewrite Z.sub_0_l.
    replace (- sf_scaled (S754_finite sy my ey) c) with (sf_scaled (S754_finite (negb sy) my ey) c)
      by (unfold sf_scaled; cbn [sf_mant sf_exp]; destruct sy; cbn [negb cond_Zopp]; lia).
    rewrite norm_val; auto.
  - replace (sf_scaled (S754_zero sy) c) with 0 by reflexivity. rewrite Z.sub_0_r, norm_val; auto.
  - cbn [SFsub sf_exp] in *. change (IntDef.Z.min ex ey) with (Z.min ex ey).
    rewrite binary_normalize_norm, !shl_align_val by lia. f_equal.
    set (ez := Z.min ex ey). rewrite <- (@norm_shift _ ez (ez - c)) by lia.
    f_equal; [|lia]. unfold sf_scaled. cbn [sf_mant sf_exp]. rewrite !cond_Zopp_mul.
    rewrite Z.mul_sub_distr_r, !cond_Zopp_mul, <- !Z.mul_assoc, <- !Z.pow_add_r by lia.
    do 4 f_equal; lia.
Qed.

Lemma Zdigits2_mul a b : 0 < a -> 0 < b -> Zdigits2 a + Zdigits2 b - 1 <= Zdigits2 (a * b).
Proof.
  intros Ha Hb. pose proof (Zdigits2_bounds Ha) as [A1 _]. pose proof (Zdigits2_bounds Hb) as [B1 _].
  pose proof (Zdigits2_pos Ha). pose proof (Zdigits2_pos Hb).
  assert (Hab : 0 < a * b) by nia. pose proof (Zdigits2_bounds Hab) as [_ C].
  destruct (Z_le_gt_dec (Zdigits2 a + Zdigits2 b - 1) (Zdigits2 (a * b))); auto. exfalso.
  assert (2 ^ Zdigits2 (a * b) <= 2 ^ (Zdigits2 a - 1 + (Zdigits2 b - 1))) by (apply pow2_le; lia).
  rewrite Z.pow_add_r in * by lia. nia.
Qed.

Lemma mul_norm x y :
  SpecFloat.valid_binary 53 1024 x = true -> SpecFloat.valid_binary 53 1024 y = true ->
  sf_finite x = true -> sf_finite y = true ->
  sf_unsigned (SFmul 53 1024 x y) = sf_unsigned (sf_round (sf_mant x * sf_mant y) (sf_exp x + sf_exp y)).
Proof.
  intros Vx Vy Fx Fy.
  destruct x as [sx| | |sx mx ex]; try discriminate; destruct y as [sy| | |sy my ey]; try discriminate;
    cbn [SFmul sf_mant sf_exp]; rewrite ?Z.mul_0_l, ?Z.mul_0_r; try reflexivity.
  destruct (valid_finite _ _ _ Vx) as (Hd1 & He1 & Hn1 & _).
  destruct (valid_finite _ _ _ Vy) as (Hd2 & He2 & Hn2 & _).
  pose proof (@Zdigits2_mul (Zpos mx) (Zpos my) ltac:(lia) ltac:(lia)) as Hd.
  pose proof (@Zdigits2_pos (Zpos mx) ltac:(lia)). pose proof (@Zdigits2_pos (Zpos my) ltac:(lia)).
  rewrite binary_round_aux_rnd by (rewrite fexp_eq, Pos2Z.inj_mul; lia).
  f_equal. unfold sf_round.
  replace (cond_Zopp sx (Zpos mx) * cond_Zopp sy (Zpos my))
    with (cond_Zopp (xorb sx sy) (Zpos (mx * my)))
    by (rewrite Pos2Z.inj_mul; destruct sx, sy; cbn [cond_Zopp xorb]; lia).
  generalize (mx * my)%positive; intros p. clear.
  destruct (xorb sx sy); cbn [cond_Zopp]; [|reflexivity].
  change (- Z.pos p) with (Z.neg p). reflexivity.
Qed.

Section Monotone.
Variables x y z : spec_float.
Hypothesis Vx : SpecFloat.valid_binary 53 1024 x = true.
Hypothesis Vy : SpecFloat.valid_binary 53 1024 y = true.
Hypothesis Vz : SpecFloat.valid_binary 53 1024 z = true.
Hypothesis Fx : sf_finite x = true.
Hypothesis Fy : sf_finite y = true.
Hypothesis Fz : sf_finite z = true.
Hypothesis Hxy : SFleb x y = true.

Local Abbreviation c := (Z.min (sf_exp z) (Z.min (sf_exp x) (sf_exp y))).

Lemma SFadd_mono_r : SFleb (SFadd 53 1024 z x) (SFadd 53 1024 z y) = true.
Proof.
  rewrite SFleb_nz, (@add_norm z x c), (@add_norm z y c), <- SFleb_nz by (auto; lia).
  apply norm_mono. pose proof (@leb_val x y c Vx Vy Fx Fy ltac:(lia) ltac:(lia) Hxy). lia.
Qed.

Lemma SFadd_mono_l : SFleb (SFadd 53 1024 x z) (SFadd 53 1024 y z) = true.
Proof.
  rewrite SFleb_nz, (@add_norm x z c), (@add_norm y z c), <- SFleb_nz by (auto; lia).
  apply norm_mono. pose proof (@leb_val x y c Vx Vy Fx Fy ltac:(lia) ltac:(lia) Hxy). lia.
Qed.

Lemma SFsub_mono_l : SFleb (SFsub 53 1024 x z) (SFsub 53 1024 y z) = true.
Proof.
  rewrite SFleb_nz, (@sub_norm x z c), (@sub_norm y z c), <- SFleb_nz by (auto; lia).
  apply norm_mono. pose proof (@leb_val x y c Vx Vy Fx Fy ltac:(lia) ltac:(lia) Hxy). lia.
Qed.

Lemma SFsub_mono_r : SFleb (SFsub 53 1024 z y) (SFsub 53 1024 z x) = true.
Proof.
  rewrite SFleb_nz, (@sub_norm z x c), (@sub_norm z y c), <- SFleb_nz by (auto; lia).
  apply norm_mono. pose proof (@leb_val x y c Vx Vy Fx Fy ltac:(lia) ltac:(lia) Hxy). lia.
Qed.

Lemma SFmul_mono_r : 0 <= sf_mant z -> SFleb (SFmul 53 1024 z x) (SFmul 53 1024 z y) = true.
Proof.
  intros Hz.
  pose (c' := Z.min (sf_exp x) (sf_exp y)).
  rewrite SFleb_nz, (@mul_norm z x), (@mul_norm z y), <- SFleb_nz by auto.
  rewrite <- (@norm_shift (sf_mant z * sf_mant x) (sf_exp z + sf_exp x) (sf_exp x - c')) by (subst c'; lia).
  rewrite <- (@norm_shift (sf_mant z * sf_mant y) (sf_exp z + sf_exp y) (sf_exp y - c')) by (subst c'; lia).
  replace (sf_exp z + sf_exp x - (sf_exp x - c')) with (sf_exp z + c') by lia.
  replace (sf_exp z + sf_exp y - (sf_exp y - c')) with (sf_exp z + c') by lia.
  apply norm_mono.
  pose proof (@leb_val x y c' Vx Vy Fx Fy ltac:(subst c'; lia) ltac:(subst c'; lia) Hxy) as H.
  unfold sf_scaled in H. nia.
Qed.
End Monotone.

Lemma SFleb_trans (x y z : spec_float) :
  SFleb x y = true -> SFleb y z = true -> SFleb x z = true.
Proof.
  unfold SFleb, SFcompare.
  destruct x as [sx|sx| |sx mx ex], y as [sy|sy| |sy my ey],
           z as [sz|sz| |sz mz ez];
    try destruct sx; try destruct sy; try destruct sz;
    try discriminate; try reflexivity.
  all: destruct (Z.compare_spec ex ey), (Z.compare_spec ey ez),
         (Z.compare_spec ex ez); try discriminate; try reflexivity; try lia.
  all: subst;
       change (Pos.compare_cont Eq) with Pos.compare;
       destruct (Pos.compare_spec mx my), (Pos.compare_spec my mz),
         (Pos.compare_spec mx mz); cbn; try discriminate; try reflexivity; lia.
Qed.

Lemma SFltb_leb_trans (x y z : spec_float) :
  SFltb x y = true -> SFleb y z = true -> SFltb x z = true.
Proof.
  unfold SFleb, SFltb, SFcompare.
  destruct x as [sx|sx| |sx mx ex], y as [sy|sy| |sy my ey],
           z as [sz|sz| |sz mz ez];
    try destruct sx; try destruct sy; try destruct sz;
    try discriminate; try reflexivity.
  all: destruct (Z.compare_spec ex ey), (Z.compare_spec ey ez),
         (Z.compare_spec ex ez); try discriminate; try reflexivity; try lia.
  all: subst;
       change (Pos.compare_cont Eq) with Pos.compare;
       destruct (Pos.compare_spec mx my), (Pos.compare_spec my mz),
         (Pos.compare_spec mx mz); cbn; try discriminate; try reflexivity; lia.
Qed.

Lemma SFleb_refl (x : spec_float) : sf_finite x = true -> SFleb x x = true.
Proof.
  destruct x as [s|s| |s m e]; try discriminate; intros _; [reflexivity|].
  destruct s; [apply SFleb_neg|apply SFleb_pos]; lia.
Qed.

Lemma fin_between (a u b : spec_float) :
  sf_finite a = true -> sf_finite b = true -> SFleb a u = true -> SFleb u b = true -> sf_finite u = true.
Proof.
  destruct a as [sa|sa| |sa ma ea]; try discriminate;
  destruct b as [sb|sb| |sb mb eb]; try discriminate;
  destruct u as [su|su| |su mu eu]; try discriminate; try reflexivity;
  destruct su; try destruct sa; try destruct sb; discriminate.
Qed.

Lemma fin_add_self (x : spec_float) : sf_finite (SFadd 53 1024 x x) = true -> sf_finite x = true.
Proof. destruct x as [s|s| |s m e]; try reflexivity; try discriminate; destruct s; discriminate. Qed.

Lemma val_nz f c : sf_scaled (sf_unsigned f) c = sf_scaled f c.
Proof. destruct f; reflexivity. Qed.

Lemma fin_nz f : sf_finite (sf_unsigned f) = sf_finite f.
Proof. destruct f; reflexivity. Qed.

Lemma Ze_nz f : sf_exp (sf_unsigned f) = sf_exp f.
Proof. destruct f; reflexivity. Qed.

Lemma norm_same M1 e1 M2 e2 c : c <= e1 -> c <= e2 ->
  M1 * 2 ^ (e1 - c) = M2 * 2 ^ (e2 - c) -> sf_round M1 e1 = sf_round M2 e2.
Proof.
  intros H1 H2 E.
  rewrite <- (@norm_shift M1 e1 (e1 - c)), <- (@norm_shift M2 e2 (e2 - c)) by lia.
  rewrite E. f_equal. lia.
Qed.

(** A result that needs no rounding carries the exact value. *)
Lemma norm_exact_val M e c : round_exp (Z.abs M) e <= e -> sf_finite (sf_round M e) = true ->
  c <= round_exp (Z.abs M) e -> (M = 0 -> c <= -1074) ->
  sf_scaled (sf_round M e) c = M * 2 ^ (e - c) /\ c <= sf_exp (sf_round M e).
Proof.
  intros Ht Hf Hc Hz. unfold sf_round in *.
  destruct (Z.eqb_spec M 0) as [->|H0]; [cbn [sf_exp]; split; [reflexivity|auto]|].
  assert (Hm : 0 < Z.abs M) by lia.
  destruct (rq_bounds e Hm) as [B _]. pose proof (rt_ge (Z.abs M) e) as T.
  assert (Hq : round_mant (Z.abs M) e = Z.abs M * 2 ^ (e - round_exp (Z.abs M) e)).
  { unfold round_mant. replace (round_exp (Z.abs M) e <=? e) with true by lia. reflexivity. }
  assert (Hp : 0 < 2 ^ (e - round_exp (Z.abs M) e)) by (apply pow2_gt0; lia).
  assert (Hs : 2 ^ (e - c) = 2 ^ (e - round_exp (Z.abs M) e) * 2 ^ (round_exp (Z.abs M) e - c)).
  { rewrite <- Z.pow_add_r by lia. f_equal. lia. }
  assert (Hx : forall s, sf_finite (sf_pack s (round_mant (Z.abs M) e) (round_exp (Z.abs M) e)) = true ->
     sf_scaled (sf_pack s (round_mant (Z.abs M) e) (round_exp (Z.abs M) e)) c = cond_Zopp s (Z.abs M) * 2 ^ (e - c) /\
     c <= sf_exp (sf_pack s (round_mant (Z.abs M) e) (round_exp (Z.abs M) e))).
  { intros s. unfold sf_pack.
    destruct (Z.eqb_spec (round_mant (Z.abs M) e) 0); [nia|].
    destruct (Z.eqb_spec (round_mant (Z.abs M) e) (2 ^ 53)).
    - destruct (_ <=? 971); [|discriminate]. intros _. unfold sf_scaled. cbn [sf_mant sf_exp].
      change (Z.pos (Z.to_pos (2 ^ 52))) with (2 ^ 52).
      split; [|lia].
      replace (round_exp (Z.abs M) e + 1 - c) with (round_exp (Z.abs M) e - c + 1) by lia.
      rewrite pow2_S, Hs by lia. rewrite Hq in *. change (2 ^ 53) with (2 * 2 ^ 52) in *.
      destruct s; cbn [cond_Zopp]; nia.
    - destruct (_ <=? 971); [|discriminate]. intros _. unfold sf_scaled. cbn [sf_mant sf_exp].
      rewrite Z2Pos.id by lia. split; [|lia]. rewrite Hs, Hq.
      destruct s; cbn [cond_Zopp]; nia. }
  destruct (Z.ltb_spec 0 M).
  - assert (EA : Z.abs M = M) by lia. rewrite EA in *. rewrite rnd_finish in *.
    destruct (Hx false Hf) as [E1 E2]. cbn [cond_Zopp] in E1. auto.
  - assert (EA : Z.abs M = - M) by lia. rewrite EA in *. rewrite rnd_finish in *.
    destruct (Hx true Hf) as [E1 E2]. cbn [cond_Zopp] in E1.
    rewrite Z.opp_involutive in E1. auto.
Qed.

Lemma valid_rt f : SpecFloat.valid_binary 53 1024 f = true -> sf_finite f = true ->
  round_exp (Z.abs (sf_mant f)) (sf_exp f + 1) <= sf_exp f + 1 /\ sf_exp f <= round_exp (Z.abs (sf_mant f)) (sf_exp f + 1).
Proof.
  destruct f as [s| | |s m e]; try discriminate; intros Hv _; cbn [sf_mant sf_exp].
  - cbn. lia.
  - destruct (valid_finite _ _ _ Hv) as (Hd & He & Hn & Ht).
    replace (Z.abs (cond_Zopp s (Zpos m))) with (Zpos m) by (destruct s; cbn; lia).
    unfold round_exp in *. rewrite fexp_eq in *. lia.
Qed.

Lemma double_exact x c :
  SpecFloat.valid_binary 53 1024 x = true -> sf_finite (SFadd 53 1024 x x) = true ->
  c <= sf_exp x ->
  sf_scaled (SFadd 53 1024 x x) c = 2 * sf_scaled x c /\ c <= sf_exp (SFadd 53 1024 x x).
Proof.
  intros Vx Fd Hc. pose proof (fin_add_self _ Fd) as Fx.
  pose proof (@add_norm x x (sf_exp x) Vx Vx Fx Fx ltac:(lia) ltac:(lia)) as E.
  assert (E' : sf_round (sf_scaled x (sf_exp x) + sf_scaled x (sf_exp x)) (sf_exp x) = sf_round (sf_mant x) (sf_exp x + 1)).
  { apply norm_same with (c := sf_exp x); try lia. unfold sf_scaled.
    replace (sf_exp x - sf_exp x) with 0 by lia. replace (sf_exp x + 1 - sf_exp x) with 1 by lia.
    change (2 ^ 0) with 1. change (2 ^ 1) with 2. lia. }
  rewrite E' in E. clear E'.
  destruct (valid_rt _ Vx Fx) as [T1 T2].
  assert (Fn : sf_finite (sf_round (sf_mant x) (sf_exp x + 1)) = true).
  { rewrite <- fin_nz, <- E, fin_nz. exact Fd. }
  assert (Hz : sf_mant x = 0 -> c <= -1074).
  { destruct x as [s| | |s m e]; cbn [sf_mant sf_exp] in *; try lia. destruct s; cbn; lia. }
  destruct (@norm_exact_val (sf_mant x) (sf_exp x + 1) c T1 Fn ltac:(lia) Hz) as [V1 V2].
  rewrite <- (@val_nz (SFadd 53 1024 x x) c), E, val_nz, V1.
  rewrite <- (@Ze_nz (SFadd 53 1024 x x)), E, Ze_nz. split; [|exact V2].
  unfold sf_scaled. replace (sf_exp x + 1 - c) with (sf_exp x - c + 1) by lia. rewrite pow2_S by lia. lia.
Qed.

Lemma half_double x :
  SpecFloat.valid_binary 53 1024 x = true ->
  SpecFloat.valid_binary 53 1024 (SFadd 53 1024 x x) = true ->
  sf_finite (SFadd 53 1024 x x) = true ->
  sf_unsigned (SFmul 53 1024 SFhalf (SFadd 53 1024 x x)) = sf_unsigned x.
Proof.
  intros Vx Vd Fd. pose proof (fin_add_self _ Fd) as Fx.
  set (D := SFadd 53 1024 x x) in *.
  rewrite mul_norm by auto. rewrite <- (norm_exact x Vx Fx). f_equal.
  pose proof (Ze_ge _ Vx). pose proof (Ze_ge _ Vd).
  set (c := Z.min (sf_exp x) (sf_exp D)).
  destruct (@double_exact x c Vx Fd ltac:(subst c; lia)) as [V _]. fold D in V.
  apply norm_same with (c := c - 53); cbn [sf_mant sf_exp SFhalf cond_Zopp]; try (subst c; lia).
  unfold sf_scaled in V.
  replace (sf_exp x - (c - 53)) with (sf_exp x - c + 53) by lia.
  replace (-53 + sf_exp D - (c - 53)) with (sf_exp D - c) by lia.
  rewrite Z.pow_add_r by (subst c; lia).
  change (2 ^ 53) with (2 * 4503599627370496). 
  change (Zpos 4503599627370496) with 4503599627370496. nia.
Qed.

Lemma SFeqb_refl (x : spec_float) : sf_finite x = true -> SFeqb x x = true.
Proof.
  destruct x as [s| | |s m e]; try discriminate; intros _; [reflexivity|].
  unfold SFeqb, SFcompare. rewrite Z.compare_refl.
  change (PosDef.Pos.compare_cont Eq m m) with (Pos.compare m m).
  rewrite Pos.compare_refl. destruct s; reflexivity.
Qed.

Lemma b64_finite_spec (x : float) : PrimFloat.is_finite x = sf_finite (Prim2SF x).
Proof.
  unfold PrimFloat.is_finite, PrimFloat.is_nan, PrimFloat.is_infinity. rewrite !FloatAxioms.eqb_spec, abs_spec.
  change (Prim2SF infinity) with (S754_infinity false).
  destruct (Prim2SF x) as [s|s| |s m e] eqn:E; try reflexivity.
  - destruct s; reflexivity.
  - rewrite SFeqb_refl by reflexivity. reflexivity.
Qed.

Lemma b64_leb_trans (a b c : float) :
  PrimFloat.leb a b = true -> PrimFloat.leb b c = true -> PrimFloat.leb a c = true.
Proof. rewrite !leb_spec. apply SFleb_trans. Qed.

Lemma b64_ltb_leb_trans (a b c : float) :
  PrimFloat.ltb a b = true -> PrimFloat.leb b c = true -> PrimFloat.ltb a c = true.
Proof. rewrite !ltb_spec, leb_spec. apply SFltb_leb_trans. Qed.

Lemma b64_leb_refl (a : float) : PrimFloat.is_finite a = true -> PrimFloat.leb a a = true.
Proof. rewrite b64_finite_spec, leb_spec. apply SFleb_refl. Qed.

Lemma b64_finite_between (a u b : float) :
  PrimFloat.is_finite a = true -> PrimFloat.is_finite b = true ->
  PrimFloat.leb a u = true -> PrimFloat.leb u b = true -> PrimFloat.is_finite u = true.
Proof. rewrite !b64_finite_spec, !leb_spec. apply fin_between. Qed.

Lemma b64_finite_double (x : float) :
  PrimFloat.is_finite (x + x) = true -> PrimFloat.is_finite x = true.
Proof. rewrite !b64_finite_spec, add_spec. apply fin_add_self. Qed.

Section B64Monotone.

Variables x y z : float.
Hypothesis Fx : PrimFloat.is_finite x = true.
Hypothesis Fy : PrimFloat.is_finite y = true.
Hypothesis Fz : PrimFloat.is_finite z = true.
Hypothesis Hxy : PrimFloat.leb x y = true.

Lemma b64_add_mono_r : PrimFloat.leb (z + x) (z + y) = true.
Proof.
  rewrite b64_finite_spec in *. rewrite leb_spec in *. rewrite !add_spec.
  apply SFadd_mono_r; auto using Prim2SF_valid.
Qed.

Lemma b64_add_mono_l : PrimFloat.leb (x + z) (y + z) = true.
Proof.
  rewrite b64_finite_spec in *. rewrite leb_spec in *. rewrite !add_spec.
  apply SFadd_mono_l; auto using Prim2SF_valid.
Qed.

Lemma b64_sub_mono_l : PrimFloat.leb (x - z) (y - z) = true.
Proof.
  rewrite b64_finite_spec in *. rewrite leb_spec in *. rewrite !sub_spec.
  apply SFsub_mono_l; auto using Prim2SF_valid.
Qed.

Lemma b64_sub_mono_r : PrimFloat.leb (z - y) (z - x) = true.
Proof.
  rewrite b64_finite_spec in *. rewrite leb_spec in *. rewrite !sub_spec.
  apply SFsub_mono_r; auto using Prim2SF_valid.
Qed.

Lemma b64_mul_mono_r : PrimFloat.leb 0 z = true -> PrimFloat.leb (z * x) (z * y) = true.
Proof.
  intros Hz.
  rewrite b64_finite_spec in *. rewrite leb_spec in *. rewrite !mul_spec.
  apply SFmul_mono_r; auto using Prim2SF_valid.
  change (Prim2SF 0) with (S754_zero false) in Hz.
  destruct (Prim2SF z) as [s| | |s m e]; cbn [sf_mant]; try lia.
  destruct s; [discriminate|cbn; lia].
Qed.

End B64Monotone.

Lemma b64_half_double (x : float) :
  PrimFloat.is_finite (x + x) = true ->
  PrimFloat.leb x (0.5 * (x + x)) = true /\ PrimFloat.leb (0.5 * (x + x)) x = true.
Proof.
  intros Fd. pose proof (@b64_finite_double x Fd) as Fx.
  rewrite b64_finite_spec in Fd, Fx.
  pose proof (Prim2SF_valid (x + x)) as Vd.
  rewrite !leb_spec, !mul_spec. rewrite add_spec in *.
  change (Prim2SF 0.5) with SFhalf.
  change SF64mul with (SFmul 53 1024). change SF64add with (SFadd 53 1024) in *.
  pose proof (@half_double (Prim2SF x) (Prim2SF_valid x) Vd Fd) as H.
  set (X := Prim2SF x) in *. set (D := SFmul 53 1024 SFhalf (SFadd 53 1024 X X)) in *.
  rewrite (SFleb_nz X D), (SFleb_nz D X), H, <- SFleb_nz.
  split; apply SFleb_refl; auto.
Qed.

(** One step of the bisection in binary64. *)
Lemma b64_midpoint (lo hi : float) :
  PrimFloat.leb lo hi = true ->
  PrimFloat.is_finite (lo + lo) = true -> PrimFloat.is_finite (hi + hi) = true ->
  let m := (0.5 * (lo + hi))%float in
  PrimFloat.leb lo m = true /\ PrimFloat.leb m hi = true /\
  PrimFloat.is_finite (m + m) = true /\
  PrimFloat.leb (hi - m) (hi - lo) = true /\ PrimFloat.leb (m - lo) (hi - lo) = true.
Proof.
  intros Hle Dlo Dhi m.
  pose proof (@b64_finite_double lo Dlo) as Flo. pose proof (@b64_finite_double hi Dhi) as Fhi.
  assert (H1 : PrimFloat.leb (lo + lo) (lo + hi) = true) by (apply b64_add_mono_r; auto).
  assert (H2 : PrimFloat.leb (lo + hi) (hi + hi) = true) by (apply b64_add_mono_l; auto).
  assert (Fs : PrimFloat.is_finite (lo + hi) = true) by (apply (@b64_finite_between (lo + lo) (lo + hi) (hi + hi) Dlo Dhi H1 H2)).
  assert (Fh : PrimFloat.is_finite 0.5 = true) by reflexivity.
  assert (Hh : PrimFloat.leb 0 0.5 = true) by reflexivity.
  destruct (@b64_half_double lo Dlo) as [L1 L2]. destruct (@b64_half_double hi Dhi) as [U1 U2].
  assert (Hlo : PrimFloat.leb lo m = true).
  { apply b64_leb_trans with (1 := L1). apply b64_mul_mono_r; auto. }
  assert (Hhi : PrimFloat.leb m hi = true).
  { apply b64_leb_trans with (2 := U2). apply b64_mul_mono_r; auto. }
  assert (Fm : PrimFloat.is_finite m = true) by (apply (@b64_finite_between lo m hi Flo Fhi Hlo Hhi)).
  repeat split; auto.
  - apply (@b64_finite_between (lo + lo) (m + m) (hi + hi)); auto.
    + apply b64_leb_trans with (lo + m)%float; [apply b64_add_mono_r|apply b64_add_mono_l]; auto.
    + apply b64_leb_trans with (m + hi)%float; [apply b64_add_mono_r|apply b64_add_mono_l]; auto.
  - apply b64_sub_mono_r; auto.
  - apply b64_sub_mono_l; auto.
Qed.




Section B64Geometry.

Variable pow05 : float -> float.
Local Abbreviation B := (Binary64.scalar pow05).

Lemma b64_node : @node_length_um float B = 1%float.
Proof. reflexivity. Qed.

Lemma b64_internode (d : float) :
  @internode_length_from_diam float B d =
    (if PrimFloat.ltb 50 (100 * d) then 100 * d else 50)%float.
Proof. reflexivity. Qed.

Lemma b64_paranode (d : float) :
  @paranode_length_um float B d =
    (if PrimFloat.ltb 1 (3 * pow05 d) then 3 * pow05 d else 1)%float.
Proof. reflexivity. Qed.

Lemma b64_juxta (d : float) :
  @juxta_length_um float B d =
    (if PrimFloat.ltb 5 (10 * pow05 d) then 10 * pow05 d else 5)%float.
Proof. reflexivity. Qed.


End B64Geometry.

Section B64Bracket.

Variable pow05 : float -> float.
Variable g : float -> bool.
Local Abbreviation B := (Binary64.scalar pow05).

Lemma b64_narrow (b : float * float) :
  ordered_bracket b ->
  ordered_bracket (@narrow float B g b) /\
  PrimFloat.leb (fst b) (fst (@narrow float B g b)) = true /\
  PrimFloat.leb (snd (@narrow float B g b)) (snd b) = true /\
  PrimFloat.leb (@width float B (@narrow float B g b)) (@width float B b) = true.
Proof.
  intros (Hle & Dlo & Dhi). destruct b as [lo hi]. cbn [fst snd] in *.
  destruct (@b64_midpoint lo hi Hle Dlo Dhi) as (H1 & H2 & H3 & H4 & H5).
  pose proof (@b64_finite_double lo Dlo) as Flo. pose proof (@b64_finite_double hi Dhi) as Fhi.
  unfold narrow, width, ordered_bracket.
  change (@midpoint float B (lo, hi)) with (0.5 * (lo + hi))%float.
  destruct (g (0.5 * (lo + hi))%float); cbn [fst snd fsub Binary64.scalar].
  - repeat split; auto using b64_leb_refl.
  - repeat split; auto using b64_leb_refl.
Qed.

Lemma b64_narrowed_sound (b : float * float) (j : nat) :
  ordered_bracket b -> ordered_bracket (@narrowed float B g j b).
Proof.
  intros Hb. induction j as [|j IH]; [exact Hb|].
  change (@narrowed float B g (S j) b) with (@narrow float B g (@narrowed float B g j b)).
  apply b64_narrow, IH.
Qed.

Lemma b64_narrowed_step (b : float * float) (j : nat) :
  ordered_bracket b ->
  let c := @narrowed float B g j b in
  let c' := @narrowed float B g (S j) b in
  PrimFloat.leb (fst c) (fst c') = true /\
  PrimFloat.leb (snd c') (snd c) = true /\
  PrimFloat.leb (fst c') (snd c') = true /\
  PrimFloat.leb (@width float B c') (@width float B c) = true.
Proof.
  intros Hb c c'.
  change c' with (@narrow float B g c).
  destruct (@b64_narrow c (@b64_narrowed_sound b j Hb)) as ((H0 & _) & H1 & H2 & H3).
  fold c in H0, H1, H2, H3. auto.
Qed.

End B64Bracket.

End Rounding.

(* ================================================================== *)
(** * The claims of the specification *)
(* ================================================================== *)

(** C1. With a bracket whose upper end fires and whose lower end does
    not, [find_threshold] runs [k <= max_iters] iterations; iteration
    [j + 1] tries the midpoint [0.5 * (lo + hi)] of the bracket after [j]
    iterations and replaces [hi] by it when it fires and [lo] otherwise;
    [k] is the first iteration after which [hi - lo < tol], or
    [max_iters]; the value returned is the [hi] of the bracket after [k]
    iterations.  The runs of the solver are those of [scale_hi],
    [scale_lo] and the [k] midpoints, in this order. *)
Theorem find_threshold_bisects {F : Type} {SF : Scalar F} (solver : Solver F)
  (fiber : Fiber) (tvec base : list F) (lo hi tol : F) (max_iters : Z)
  (ridx : option Z) (w : World F) (nd rsec : nat) (tl : F) :
  Ready fiber tvec ridx w nd rsec tl ->
  fires_at solver (w_secs w) nd rsec tvec base tl hi = true ->
  fires_at solver (w_secs w) nd rsec tvec base tl lo = false ->
  let fires := fires_at solver (w_secs w) nd rsec tvec base tl in
  exists k w',
    (k <= Z.to_nat max_iters)%nat /\
    find_threshold solver fiber tvec base lo hi tol max_iters ridx w =
      (Ok (Some (snd (narrowed fires k (lo, hi)))), w') /\
    (forall j, (j < k)%nat ->
       let b := narrowed fires j (lo, hi) in
       let mid := fmul (lit 0.5) (fadd (fst b) (snd b)) in
       narrowed fires (S j) (lo, hi) =
         if fires mid then (fst b, mid) else (mid, snd b)) /\
    (forall j, (0 < j < k)%nat ->
       fltb (width (narrowed fires j (lo, hi))) tol = false) /\
    ((k < Z.to_nat max_iters)%nat ->
       (0 < k)%nat /\ fltb (width (narrowed fires k (lo, hi))) tol = true) /\
    w_runs w' =
      (w_runs w ++
       map (trial_input (w_secs w) nd tvec base tl)
           (hi :: lo :: midpoints fires k (lo, hi)))%list.
Proof.
  intros Hready Hhi Hlo fires.
  destruct (find_threshold_loop solver base Hready lo hi tol max_iters Hhi Hlo)
    as (k & w' & Hrun & (Hk & Hbefore & Hstop) & Hruns & _).
  exists k, w'. repeat split; auto; try apply Hstop; auto.
Qed.

Lemma find_threshold_bisects_witness :
  exists k w',
    (k <= 20)%nat /\
    find_threshold (echo 300%float) Demo.fiber
      Demo.tvec Demo.pulse 0%float 1000%float 0.01%float 20 None Demo.world =
      (Ok (Some (snd (narrowed
                        (fires_at (echo 300%float)
                           (w_secs Demo.world) 4 8 Demo.tvec Demo.pulse 2%float)
                        k (0%float, 1000%float)))), w').
Proof.
  destruct (@find_threshold_bisects float Binary64.std (echo 300%float)
              Demo.fiber Demo.tvec Demo.pulse 0%float 1000%float 0.01%float 20
              None Demo.world 4 8 2%float demo_ready)
    as (k & w' & Hk & Hrun & _).
  - vm_compute. reflexivity.
  - vm_compute. reflexivity.
  - exists k, w'. split; [exact Hk | exact Hrun].
Defined.

(** C2 (as the code has it). With a bracket whose upper end fires and
    whose lower end does not, [find_threshold] returns the [hi] of the
    bracket the loop ends with; [hi] fires and [lo] does not; and either
    [hi - lo < tol], or all [max_iters] iterations have been used. *)
Theorem find_threshold_converges {F : Type} {SF : Scalar F} (solver : Solver F)
  (fiber : Fiber) (tvec base : list F) (lo hi tol : F) (max_iters : Z)
  (ridx : option Z) (w : World F) (nd rsec : nat) (tl : F) :
  Ready fiber tvec ridx w nd rsec tl ->
  fires_at solver (w_secs w) nd rsec tvec base tl hi = true ->
  fires_at solver (w_secs w) nd rsec tvec base tl lo = false ->
  let fires := fires_at solver (w_secs w) nd rsec tvec base tl in
  exists k w',
    let b := narrowed fires k (lo, hi) in
    find_threshold solver fiber tvec base lo hi tol max_iters ridx w =
      (Ok (Some (snd b)), w') /\
    w_runs w' =
      (w_runs w ++
       map (trial_input (w_secs w) nd tvec base tl)
           (hi :: lo :: midpoints fires k (lo, hi)))%list /\
    fires (snd b) = true /\
    fires (fst b) = false /\
    (fltb (fsub (snd b) (fst b)) tol = true \/ k = Z.to_nat max_iters).
Proof.
  intros Hready Hhi Hlo fires.
  destruct (find_threshold_loop solver base Hready lo hi tol max_iters Hhi Hlo)
    as (k & w' & Hrun & (Hk & Hbefore & Hstop) & Hruns & _).
  assert (Hb : brackets fires (narrowed fires k (lo, hi))).
  { apply narrowed_brackets. split; assumption. }
  exists k, w'. cbv zeta.
  split; [exact Hrun|]. split; [exact Hruns|].
  split; [apply Hb|]. split; [apply Hb|].
  destruct (Nat.eq_dec k (Z.to_nat max_iters)) as [->|Hne]; [now right|].
  left. apply Hstop. lia.
Qed.

Lemma find_threshold_converges_witness :
  exists k w',
    find_threshold (echo 300%float) Demo.fiber Demo.tvec Demo.pulse
      0%float 1000%float 0.01%float 20 None Demo.world =
      (Ok (Some (snd (narrowed
                        (fires_at (echo 300%float) (w_secs Demo.world) 4 8
                           Demo.tvec Demo.pulse 2%float)
                        k (0%float, 1000%float)))), w').
Proof.
  destruct (@find_threshold_converges float Binary64.std (echo 300%float)
              Demo.fiber Demo.tvec Demo.pulse 0%float 1000%float 0.01%float 20
              None Demo.world 4 8 2%float demo_ready)
    as (k & w' & Hrun & _).
  - vm_compute. reflexivity.
  - vm_compute. reflexivity.
  - exists k, w'. exact Hrun.
Defined.

(** C2 fails as stated: with [max_iters = 3] the search over [0, 1000]
    with tolerance 0.01 ends with the bracket (250, 375). *)
Lemma find_threshold_loose :
  let solver := echo 300%float in
  let fires := fires_at solver (w_secs Demo.world) 4 8 Demo.tvec Demo.pulse 2%float in
  fires 1000%float = true /\ fires 0%float = false /\
  PrimFloat.ltb 0 0.01 = true /\
  fst (find_threshold solver Demo.fiber Demo.tvec Demo.pulse
         0%float 1000%float 0.01%float 3 None Demo.world) = Ok (Some 375%float) /\
  fst (bisect (test_scale solver (nodes Demo.fiber) (mid_idx Demo.fiber)
                 Demo.tvec Demo.pulse 1)
              0.01%float 3 0%float 1000%float
              (snd (record_section_v 8 Demo.world))) = Ok (250%float, 375%float) /\
  PrimFloat.leb (PrimFloat.sub 375 250) 0.01 = false.
Proof. vm_compute. repeat split. Qed.

(** C3. When the upper end of the bracket does not fire, [find_threshold]
    returns [None], after the single run of [scale_hi] and the warning;
    when both ends fire it returns [scale_lo] after the runs of
    [scale_hi] and [scale_lo] and no other. *)
Theorem find_threshold_preconditions {F : Type} {SF : Scalar F}
  (solver : Solver F) (fiber : Fiber) (tvec base : list F) (lo hi tol : F)
  (max_iters : Z) (ridx : option Z) (w : World F) (nd rsec : nat) (tl : F) :
  Ready fiber tvec ridx w nd rsec tl ->
  let fires := fires_at solver (w_secs w) nd rsec tvec base tl in
  let trial := trial_input (w_secs w) nd tvec base tl in
  (fires hi = false ->
   exists w',
     find_threshold solver fiber tvec base lo hi tol max_iters ridx w =
       (Ok None, w') /\
     w_runs w' = (w_runs w ++ [trial hi])%list /\
     w_out w' = (w_out w ++ [warning])%list) /\
  (fires hi = true -> fires lo = true ->
   exists w',
     find_threshold solver fiber tvec base lo hi tol max_iters ridx w =
       (Ok (Some lo), w') /\
     w_runs w' = (w_runs w ++ [trial hi; trial lo])%list /\
     w_out w' = w_out w).
Proof.
  intros Hready fires trial. split.
  - intros Hhi.
    exact (find_threshold_not_found solver base Hready lo hi tol max_iters Hhi).
  - intros Hhi Hlo.
    exact (find_threshold_lower solver base Hready lo hi tol max_iters Hhi Hlo).
Qed.

Lemma find_threshold_preconditions_witness :
  (exists w',
     find_threshold (echo 300%float) Demo.fiber
       Demo.tvec Demo.pulse 0%float 10%float 0.01%float 20 None Demo.world =
       (Ok None, w')) /\
  (exists w',
     find_threshold (echo 300%float) Demo.fiber
       Demo.tvec Demo.pulse 400%float 1000%float 0.01%float 20 None Demo.world =
       (Ok (Some 400%float), w')).
Proof.
  split.
  - destruct (proj1 (@find_threshold_preconditions float Binary64.std
                (echo 300%float) Demo.fiber Demo.tvec Demo.pulse
                0%float 10%float 0.01%float 20 None Demo.world 4 8 2%float
                demo_ready)) as (w' & Hrun & _).
    + vm_compute. reflexivity.
    + exists w'. exact Hrun.
  - destruct (proj2 (@find_threshold_preconditions float Binary64.std
                (echo 300%float) Demo.fiber Demo.tvec Demo.pulse
                400%float 1000%float 0.01%float 20 None Demo.world 4 8 2%float
                demo_ready)) as (w' & Hrun & _).
    + vm_compute. reflexivity.
    + vm_compute. reflexivity.
    + exists w'. exact Hrun.
Defined.

(** C4 (as the code has it). With a bracket whose upper end fires and
    whose lower end does not, after every iteration of the loop of
    [find_threshold] [lo] does not fire and [hi] fires, and the
    iteration has replaced one end of the bracket by its midpoint.  In
    binary64, when [lo <= hi] and neither [lo + lo] nor [hi + hi]
    overflows, the bracket of an iteration lies within the bracket of
    the iteration before, its ends stay in order, and [hi - lo] never
    increases from one iteration to the next.  Over the real numbers,
    and when [lo < hi], an iteration halves [hi - lo], which therefore
    strictly decreases. *)
Theorem bracket_invariant {F : Type} {SF : Scalar F} (solver : Solver F)
  (fiber : Fiber) (tvec base : list F) (lo hi tol : F) (max_iters : Z)
  (ridx : option Z) (w : World F) (nd rsec : nat) (tl : F) :
  Ready fiber tvec ridx w nd rsec tl ->
  fires_at solver (w_secs w) nd rsec tvec base tl hi = true ->
  fires_at solver (w_secs w) nd rsec tvec base tl lo = false ->
  let fires := fires_at solver (w_secs w) nd rsec tvec base tl in
  (exists k w',
     find_threshold solver fiber tvec base lo hi tol max_iters ridx w =
       (Ok (Some (snd (narrowed fires k (lo, hi)))), w') /\
     w_runs w' =
       (w_runs w ++
        map (trial_input (w_secs w) nd tvec base tl)
            (hi :: lo :: midpoints fires k (lo, hi)))%list /\
     (forall j, (j <= k)%nat ->
        fires (fst (narrowed fires j (lo, hi))) = false /\
        fires (snd (narrowed fires j (lo, hi))) = true) /\
     (forall j, (j < k)%nat ->
        let b := narrowed fires j (lo, hi) in
        narrowed fires (S j) (lo, hi) = (fst b, midpoint b) \/
        narrowed fires (S j) (lo, hi) = (midpoint b, snd b))) /\
  (forall (pow05 : float -> float) (g : float -> bool) (b : float * float) (j : nat),
     ordered_bracket b ->
     let c := @narrowed float (Binary64.scalar pow05) g j b in
     let c' := @narrowed float (Binary64.scalar pow05) g (S j) b in
     PrimFloat.leb (fst c) (fst c') = true /\
     PrimFloat.leb (snd c') (snd c) = true /\
     PrimFloat.leb (fst c') (snd c') = true /\
     PrimFloat.leb (@width float (Binary64.scalar pow05) c')
                   (@width float (Binary64.scalar pow05) c) = true) /\
  (forall (g : R -> bool) (b : R * R) (j : nat),
     (fst b < snd b)%R ->
     @width R Exact.scalar (narrowed g (S j) b) =
       (@width R Exact.scalar (narrowed g j b) / 2)%R /\
     (@width R Exact.scalar (narrowed g (S j) b) <
      @width R Exact.scalar (narrowed g j b))%R).
Proof.
  intros Hready Hhi Hlo fires. split; [|split].
  - destruct (find_threshold_loop solver base Hready lo hi tol max_iters Hhi Hlo)
      as (k & w' & Hrun & _ & Hruns & _).
    exists k, w'. split; [exact Hrun|]. split; [exact Hruns|]. split.
    + intros j _. apply (narrowed_brackets j (fires := fires) (b := (lo, hi))).
      split; assumption.
    + intros j _. apply narrowed_one_end.
  - intros pow05 g b j Hb. exact (@b64_narrowed_step pow05 g b j Hb).
  - intros g b j Hb. split; [apply R_narrowed_width|].
    rewrite R_narrowed_width.
    pose proof (R_narrowed_pos g b j Hb). lra.
Qed.

Lemma bracket_invariant_witness :
  (exists k w',
    find_threshold (echo 300%float) Demo.fiber Demo.tvec Demo.pulse
      0%float 1000%float 0.01%float 20 None Demo.world =
      (Ok (Some (snd (narrowed
                        (fires_at (echo 300%float) (w_secs Demo.world) 4 8
                           Demo.tvec Demo.pulse 2%float)
                        k (0%float, 1000%float)))), w')) /\
  PrimFloat.leb (@width float Binary64.std (250%float, 500%float))
                (@width float Binary64.std (0%float, 500%float)) = true.
Proof.
  destruct (@bracket_invariant float Binary64.std (echo 300%float)
              Demo.fiber Demo.tvec Demo.pulse 0%float 1000%float 0.01%float 20
              None Demo.world 4 8 2%float demo_ready)
    as ((k & w' & Hrun & _) & Hb & _).
  - vm_compute. reflexivity.
  - vm_compute. reflexivity.
  - split; [exists k, w'; exact Hrun|].
    assert (Ho : ordered_bracket (0%float, 1000%float)) by (repeat split; reflexivity).
    exact (proj2 (proj2 (proj2 (Hb PrimFloat.sqrt
             (fires_at (echo 300%float) (w_secs Demo.world) 4 8 Demo.tvec Demo.pulse 2%float)
             (0%float, 1000%float) 1%nat Ho)))).
Defined.

(** C4 fails as stated, in three ways.  Between the adjacent floats 1
    and 1.0000000000000002 the midpoint rounds to 1: the bracket is the
    same after the first and after the second iteration, and [hi - lo]
    has not decreased.  With the bracket from 1e308 to 1.7e308 the sum
    [lo + hi] overflows: the midpoint is infinite, it fires, and
    [hi - lo] grows from 7e307 to infinity.  And with
    [scale_lo = 10 > scale_hi = 5], under a solver with an excitation
    window, [hi - lo] grows from -5 to -2.5. *)
Lemma bracket_width_not_decreasing :
  (let solver := echo 1%float in
   let fires := fires_at solver (w_secs Demo.world) 4 8 Demo.tvec Demo.pulse 2%float in
   let test := test_scale solver (nodes Demo.fiber) (mid_idx Demo.fiber)
                 Demo.tvec Demo.pulse 1 in
   let w1 := snd (record_section_v 8 Demo.world) in
   let hi := 1.0000000000000002%float in
   fires hi = true /\ fires 1%float = false /\
   fst (bisect test 1e-20%float 1 1%float hi w1) = Ok (1%float, hi) /\
   fst (bisect test 1e-20%float 2 1%float hi w1) = Ok (1%float, hi) /\
   PrimFloat.ltb (@width float Binary64.std (1%float, hi))
                 (@width float Binary64.std (1%float, hi)) = false) /\
  (let solver := echo 1.5e308%float in
   let ones := [1; 1; 1]%float in
   let fires := fires_at solver (w_secs Demo.world) 4 8 Demo.tvec ones 2%float in
   let test := test_scale solver (nodes Demo.fiber) (mid_idx Demo.fiber)
                 Demo.tvec ones 1 in
   let w1 := snd (record_section_v 8 Demo.world) in
   fires 1.7e308%float = true /\ fires 1e308%float = false /\
   PrimFloat.ltb 1e308 1.7e308 = true /\
   fst (bisect test 0.01%float 1 1e308%float 1.7e308%float w1) =
     Ok (1e308%float, infinity) /\
   @width float Binary64.std (1e308%float, infinity) = infinity /\
   PrimFloat.leb (@width float Binary64.std (1e308%float, infinity))
                 (@width float Binary64.std (1e308%float, 1.7e308%float)) = false) /\
  (let solver := Demo.window 7%float in
   let fires := fires_at solver (w_secs Demo.world) 4 8 Demo.tvec Demo.pulse 2%float in
   let test := test_scale solver (nodes Demo.fiber) (mid_idx Demo.fiber)
                 Demo.tvec Demo.pulse 1 in
   let w1 := snd (record_section_v 8 Demo.world) in
   fires 5%float = true /\ fires 10%float = false /\
   fst (bisect test 0.01%float 20 10%float 5%float w1) = Ok (7.5%float, 5%float) /\
   @width float Binary64.std (10%float, 5%float) = (-5)%float /\
   @width float Binary64.std (7.5%float, 5%float) = (-2.5)%float /\
   PrimFloat.ltb (-2.5) (-5) = false).
Proof. vm_compute. repeat split. Qed.

(** C5. For every diameter and [n_nodes >= 2], [make_MRG_fiber] returns
    [n_nodes] nodes and [n_nodes - 1] paranodes, juxtaparanodes and
    internodes, all of them distinct sections it has just created; each
    has a strictly positive length; the 0-end of paranode [i] is attached
    to the 1-end of node [i], juxtaparanode [i] to paranode [i], internode
    [i] to juxtaparanode [i] and node [i+1] to internode [i]; the first
    node is attached to nothing and no section has two children. *)
Theorem make_MRG_fiber_chain {F : Type} {SF : Scalar F} {OF : @Ordered F SF}
  (d : F) (n : Z) (w : World F) :
  (2 <= n)%Z ->
  exists fiber w',
    make_MRG_fiber d n w = (Ok fiber, w') /\
    len (nodes fiber) = n /\
    len (paranos fiber) = (n - 1)%Z /\
    len (juxtas fiber) = (n - 1)%Z /\
    len (interns fiber) = (n - 1)%Z /\
    NoDup (compartments fiber) /\
    length (w_secs w') = (length (w_secs w) + length (compartments fiber))%nat /\
    (forall id, In id (compartments fiber) ->
       (length (w_secs w) <= id)%nat /\
       exists c, nth_error (w_secs w') id = Some c /\
                 fltb (lit 0.0) (sec_L c) = true) /\
    (forall i, (0 <= i < n - 1)%Z ->
       exists nd pn jx it nd',
         index_of (nodes fiber) i = Some nd /\
         index_of (paranos fiber) i = Some pn /\
         index_of (juxtas fiber) i = Some jx /\
         index_of (interns fiber) i = Some it /\
         index_of (nodes fiber) (i + 1) = Some nd' /\
         attached w' pn nd /\ attached w' jx pn /\
         attached w' it jx /\ attached w' nd' it) /\
    (exists nd0, index_of (nodes fiber) 0 = Some nd0 /\ parent_of w' nd0 = None) /\
    (forall a b p, In a (compartments fiber) -> In b (compartments fiber) ->
       parent_of w' a = Some p -> parent_of w' b = Some p -> a = b).
Proof.
  intros Hn.
  exists (fiber_at (length (w_secs w)) (Z.to_nat n)), (built d n w).
  set (base := length (w_secs w)). set (N := Z.to_nat n).
  assert (HN : (2 <= N)%nat) by (unfold N; lia).
  split; [apply make_MRG_fiber_built|].
  unfold fiber_at at 1 2 3 4. cbn [nodes paranos juxtas interns].
  unfold len. rewrite !ids_length.
  repeat (split; [unfold N; lia|]).
  split; [apply compartments_NoDup|].
  split.
  { rewrite built_length, compartments_length. fold base N. lia. }
  split.
  { intros id Hin.
    destruct (@compartment_sec _ _ d n w id Hin)
      as (i & r & c0 & Hi & -> & Hj & Hc0 & Hsec).
    split; [fold base; lia|].
    eexists. split; [exact Hsec|].
    rewrite (proj1 (proj2 (link_fields _ _ _ _))).
    eapply group_positive. exact Hc0. }
  split.
  { intros i Hi.
    replace i with (Z.of_nat (Z.to_nat i)) by lia.
    replace (Z.of_nat (Z.to_nat i) + 1)%Z with (Z.of_nat (S (Z.to_nat i))) by lia.
    set (k := Z.to_nat i). assert (Hk : (S k < N)%nat) by (unfold k, N; lia).
    exists (base + 4 * k + 0)%nat, (base + 4 * k + 1)%nat, (base + 4 * k + 2)%nat,
           (base + 4 * k + 3)%nat, (base + 4 * S k + 0)%nat.
    cbn [fiber_at nodes paranos juxtas interns].
    rewrite !index_of_ids by lia.
    repeat (split; [reflexivity|]).
    assert (Hin : forall r, (r < 4)%nat ->
              In (base + S (4 * k + r))%nat (compartments (fiber_at base N))).
    { intros r Hr. apply In_compartments.
      destruct (Nat.eq_dec r 3) as [->|Hne].
      - exists (S k), 0%nat. split; [lia|]. split; [|lia].
        destruct (S (S k) <? N)%nat; lia.
      - exists k, (S r). split; [lia|]. split; [|lia].
        replace (S k <? N)%nat with true by (symmetry; apply Nat.ltb_lt; lia).
        lia. }
    pose proof (@attached_next _ _ d n w (4 * k + 0) (Hin 0%nat ltac:(lia))) as H0.
    pose proof (@attached_next _ _ d n w (4 * k + 1) (Hin 1%nat ltac:(lia))) as H1.
    pose proof (@attached_next _ _ d n w (4 * k + 2) (Hin 2%nat ltac:(lia))) as H2.
    pose proof (@attached_next _ _ d n w (4 * k + 3) (Hin 3%nat ltac:(lia))) as H3.
    fold base in H0, H1, H2, H3.
    replace (base + 4 * k + 1)%nat with (base + S (4 * k + 0))%nat by lia.
    replace (base + 4 * k + 0)%nat with (base + (4 * k + 0))%nat by lia.
    replace (base + 4 * k + 2)%nat with (base + S (4 * k + 1))%nat by lia.
    replace (base + 4 * k + 3)%nat with (base + S (4 * k + 2))%nat by lia.
    replace (base + 4 * S k + 0)%nat with (base + S (4 * k + 3))%nat by lia.
    replace (base + S (4 * k + 0))%nat with (base + (4 * k + 1))%nat in * by lia.
    replace (base + S (4 * k + 1))%nat with (base + (4 * k + 2))%nat in * by lia.
    replace (base + S (4 * k + 2))%nat with (base + (4 * k + 3))%nat in * by lia.
    auto. }
  split.
  { exists (base + 4 * 0 + 0)%nat.
    change 0%Z with (Z.of_nat 0). cbn [fiber_at nodes].
    rewrite index_of_ids by lia. split; [reflexivity|].
    assert (Hin : In (base + 4 * 0 + 0)%nat (compartments (fiber_at base N))).
    { apply In_compartments. exists 0%nat, 0%nat.
      split; [lia|]. split; [|lia]. destruct (1 <? N)%nat; lia. }
    destruct (@compartment_parent_of _ _ d n w _ Hin) as (j & Hj & Hp).
    fold base in Hj. assert (j = 0%nat) by lia. subst j. exact Hp. }
  intros a b p Ha Hb Hpa Hpb.
  destruct (@compartment_parent_of _ _ d n w _ Ha) as (ja & -> & Hja).
  destruct (@compartment_parent_of _ _ d n w _ Hb) as (jb & -> & Hjb).
  rewrite Hja in Hpa. rewrite Hjb in Hpb.
  destruct ja, jb; try discriminate.
  inversion Hpa. inversion Hpb. lia.
Qed.

Lemma make_MRG_fiber_chain_witness :
  exists fiber w',
    @make_MRG_fiber float Binary64.std 5%float 3 (@fresh float Binary64.std) =
      (Ok fiber, w') /\
    len (nodes fiber) = 3%Z /\ len (paranos fiber) = 2%Z.
Proof.
  assert (H : (2 <= 3)%Z) by lia.
  destruct (@make_MRG_fiber_chain float Binary64.std (b64_ordered PrimFloat.sqrt)
              5%float 3 (@fresh float Binary64.std) H)
    as (fiber & w' & Hrun & Hn & Hp & _).
  exists fiber, w'. repeat split; assumption.
Defined.

(** C6 (as the code has it). With [n_nodes < 2] [make_MRG_fiber] raises
    nothing: it returns a fiber without paranodes, juxtaparanodes and
    internodes, whose only node, when [n_nodes = 1], it has created. *)
Theorem make_MRG_fiber_degenerate {F : Type} {SF : Scalar F}
  (d : F) (n : Z) (w : World F) :
  (n < 2)%Z ->
  make_MRG_fiber d n w =
    if (1 <=? n)%Z
    then (Ok (mkFiber [length (w_secs w)] [] [] [] 0), push (node_sec d 0) w)
    else (Ok (mkFiber [] [] [] [] 0), w).
Proof.
  intros Hn. rewrite make_MRG_fiber_run.
  destruct (1 <=? n)%Z eqn:E.
  - apply Z.leb_le in E. replace (Z.to_nat n) with 1%nat by lia.
    destruct w as [secs stims vecs plays recs t dt tstop runs out].
    unfold fiber_at, ids. cbn. rewrite !Nat.add_0_r. reflexivity.
  - apply Z.leb_gt in E. replace (Z.to_nat n) with 0%nat by lia.
    destruct w as [secs stims vecs plays recs t dt tstop runs out].
    unfold on_secs. cbn. rewrite app_nil_r. reflexivity.
Qed.

Lemma make_MRG_fiber_degenerate_witness :
  @make_MRG_fiber float Binary64.std 5%float 1 (@fresh float Binary64.std) =
    (Ok (mkFiber [0%nat] [] [] [] 0),
     push (node_sec 5%float 0) (@fresh float Binary64.std)).
Proof.
  assert (H : (1 < 2)%Z) by lia.
  exact (@make_MRG_fiber_degenerate float Binary64.std 5%float 1
           (@fresh float Binary64.std) H).
Defined.

(** C6 fails as stated: with one node [make_MRG_fiber] returns a fiber,
    and has created its section. *)
Lemma make_MRG_fiber_single_node :
  let r := @make_MRG_fiber float Binary64.std 5%float 1 (@fresh float Binary64.std) in
  fst r = Ok (mkFiber [0%nat] [] [] [] 0) /\
  length (w_secs (snd r)) = 1%nat.
Proof. vm_compute. repeat split. Qed.



(** C8 (what the code does; the claim does not hold of the program). In
    a fiber of [N >= 1] nodes whose [mid_idx] is [N / 2], as
    [make_MRG_fiber] sets it, and with the recording [find_threshold]
    sets up by default, at the last node, a trial at scale [s] calls
    [h.run()] once, in this state: the clock at 0 and every section at
    -80, as [h.finitialize] has just left them, the step 0.025, the stop
    time [tvec[-1] + 5.0], and a single current clamp, at the middle of
    the node [N / 2], whose amplitude is 0.0 and into whose current [i]
    the samples [base * s] are played over [tvec]; and the trial returns
    whether the maximum of the potential recorded at the middle of the
    node [N - 1] exceeds 0.  What [h.run()] makes of that state is the
    simulator's: stdrun's [run()] initialises again, to [v_init], and
    the clamp sets its current from its amplitude at every step, so the
    run of the program neither starts from -80 nor injects
    [base * s]. *)
Theorem test_scale_run {F : Type} {SF : Scalar F} (solver : Solver F)
  (fiber : Fiber) (tvec base : list F) (w : World F) (tl s : F) :
  Quiescent w ->
  (0 < len (nodes fiber))%Z ->
  mid_idx fiber = (len (nodes fiber) / 2)%Z ->
  index_of tvec (-1) = Some tl ->
  exists nd rsec,
    nth_error (nodes fiber) (Z.to_nat (len (nodes fiber) / 2)) = Some nd /\
    nth_error (nodes fiber) (length (nodes fiber) - 1) = Some rsec /\
    index_of (nodes fiber) (rec_index fiber None) = Some rsec /\
    let rec_v := S (length (w_vecs w)) in
    let ri :=
      mkRunInput (map (with_v (lit (-80.0))) (w_secs w))
                 [mkSource (mkIClamp nd (lit 0.5) (lit 0) (lit 1e9) (lit 0.0))
                           [(map (fun b => fmul b s) base, tvec, 1%Z)]]
                 (lit 0.0) (lit 0.025) (fadd tl (lit 5.0)) in
    fst (record_section_v rsec w) = Ok (length (w_vecs w), rec_v) /\
    w_recs (snd (record_section_v rsec w)) =
      [mkRec (length (w_vecs w)) Ref_t; mkRec rec_v (Ref_v rsec (lit 0.5))] /\
    exists w',
      test_scale solver (nodes fiber) (mid_idx fiber) tvec base rec_v s
                 (snd (record_section_v rsec w)) =
        (Ok (fltb (lit 0.0) (peak (trace solver ri (Ref_v rsec (lit 0.5))))), w') /\
      w_runs w' = (w_runs w ++ [ri])%list.
Proof.
  intros Hq Hlen Hmid Hlast.
  destruct (@index_of_some _ (nodes fiber) (len (nodes fiber) / 2)) as (nd & Hnd & Hnd').
  { split; [apply Z.div_pos; lia | apply Z.div_lt; lia]. }
  destruct (@index_of_some _ (nodes fiber) (len (nodes fiber) - 1)) as (rsec & Hrs & Hrs').
  { lia. }
  exists nd, rsec.
  split; [exact Hnd'|].
  split; [unfold len in Hrs'; rewrite <- Hrs'; f_equal; lia|].
  split; [exact Hrs|].
  cbv zeta.
  pose proof (recording_searching rsec Hq) as Hs.
  rewrite record_section_v_run in *. cbn [fst snd] in *.
  split; [reflexivity|]. split.
  { destruct Hq as [_ _ Hr]. cbn [w_recs]. rewrite Hr. reflexivity. }
  rewrite <- Hmid in Hnd.
  destruct (test_scale_trial solver (nodes fiber) (mid_idx fiber) tvec base
              Hnd Hlast s Hs) as (w' & Hrun & _ & Hruns & _).
  exists w'. split; [exact Hrun | exact Hruns].
Qed.

Lemma test_scale_run_witness :
  exists w',
    test_scale (echo 300%float) (nodes Demo.fiber) (mid_idx Demo.fiber)
      Demo.tvec Demo.pulse 1 400%float (snd (record_section_v 8 Demo.world)) =
      (Ok true, w').
Proof.
  destruct (@test_scale_run float Binary64.std (echo 300%float) Demo.fiber
              Demo.tvec Demo.pulse Demo.world 2%float 400%float)
    as (nd & rsec & Hnd & Hrs & _ & _ & _ & w' & Hrun & _).
  - apply demo_ready.
  - vm_compute. reflexivity.
  - vm_compute. reflexivity.
  - vm_compute. reflexivity.
  - vm_compute in Hnd, Hrs. inversion Hnd. inversion Hrs. subst nd rsec.
    exists w'. exact Hrun.
Defined.

(** C9 (as the code has it). [attach_vector_stim] checks nothing: for
    every list of times and of currents, whatever their lengths and their
    order, it creates the clamp, at the middle of the section, with delay
    0 and duration 1e9, stores the two lists as they are in two new
    Vectors and plays the second into the current of the clamp along the
    first; it raises nothing and changes nothing else. *)
Theorem attach_vector_stim_unchecked {F : Type} {SF : Scalar F}
  (node_section : nat) (tvec_ms ivec_nA : list F) (w : World F) :
  exists stim vt vi w',
    attach_vector_stim node_section tvec_ms ivec_nA w = (Ok (stim, vt, vi), w') /\
    w_stims w' =
      (w_stims w ++
       [Some (mkIClamp node_section (lit 0.5) (lit 0) (lit 1e9) (lit 0.0))])%list /\
    stim = length (w_stims w) /\
    w_vecs w' = (w_vecs w ++ [Some tvec_ms; Some ivec_nA])%list /\
    vt = length (w_vecs w) /\ vi = S (length (w_vecs w)) /\
    w_plays w' = (w_plays w ++ [mkPlay vi (Ref_i stim) vt 1])%list /\
    w_secs w' = w_secs w /\ w_recs w' = w_recs w /\ w_runs w' = w_runs w.
Proof.
  rewrite attach_vector_stim_run.
  do 4 eexists. split; [reflexivity|]. cbn. repeat split; reflexivity.
Qed.

(** C9 fails as stated: two time samples that decrease, with a single
    current sample, are accepted, and the clamp is created. *)
Lemma attach_vector_stim_accepts_malformed :
  let r := @attach_vector_stim float Binary64.std 4 [1; 0]%float [1]%float
             Demo.world in
  fst r = Ok (0%nat, 0%nat, 1%nat) /\
  length (w_stims (snd r)) = 1%nat /\
  w_vecs (snd r) = [Some [1; 0]%float; Some [1]%float].
Proof. vm_compute. repeat split. Qed.

(** C10. Every compartment [make_MRG_fiber] creates has the diameter it
    was given, axial resistivity 70 and one segment; the paranodes,
    juxtaparanodes and internodes all carry capacitance 0.02 and the
    passive mechanism with conductance 1e-5 and reversal potential -80. *)
Theorem make_MRG_fiber_parameters {F : Type} {SF : Scalar F}
  (d : F) (n : Z) (w : World F) :
  exists fiber w',
    make_MRG_fiber d n w = (Ok fiber, w') /\
    length (w_secs w') = (length (w_secs w) + length (compartments fiber))%nat /\
    (forall id, In id (compartments fiber) ->
       exists c, nth_error (w_secs w') id = Some c /\
                 sec_diam c = d /\ sec_Ra c = lit 70.0 /\ sec_nseg c = 1%Z) /\
    (forall id, In id (passive_compartments fiber) ->
       exists c, nth_error (w_secs w') id = Some c /\
                 sec_cm c = lit 0.02 /\
                 sec_pas c = Some (mkPas (lit 1e-5) (lit (-80.0))) /\
                 sec_hh c = None).
Proof.
  exists (fiber_at (length (w_secs w)) (Z.to_nat n)), (built d n w).
  split; [apply make_MRG_fiber_built|].
  split.
  { rewrite built_length, compartments_length. lia. }
  split.
  - intros id Hin.
    destruct (@compartment_sec _ _ d n w id Hin)
      as (i & r & c0 & Hi & -> & Hj & Hc0 & Hsec).
    eexists. split; [exact Hsec|].
    destruct (link_fields (length (w_secs w)) (4 * (Z.to_nat n - 1)) (4 * i + r) c0)
      as (_ & _ & -> & -> & -> & _).
    destruct (group_parameters _ _ _ _ Hc0) as (Hd & HRa & Hseg & _). auto.
  - intros id Hin.
    apply In_passive_compartments in Hin.
    destruct Hin as (i & r & Hi & Hr & ->).
    destruct (@built_sec _ _ d n w i (S r)) as (c0 & Hc0 & Hsec); [lia| |].
    { rewrite group_length.
      replace (S i <? Z.to_nat n)%nat with true by (symmetry; apply Nat.ltb_lt; lia).
      lia. }
    eexists. split; [exact Hsec|].
    destruct (link_fields (length (w_secs w)) (4 * (Z.to_nat n - 1))
                (4 * i + S r) c0) as (_ & _ & _ & _ & _ & -> & -> & ->).
    destruct (group_parameters _ _ _ _ Hc0) as (_ & _ & _ & Hcm & Hhh & Hpas).
    auto.
Qed.

(* ================================================================== *)
(** * Further properties of the module *)
(* ================================================================== *)

(** ** The search, whatever the bracket *)

Section PureSearch.

Context {F : Type} {SF : Scalar F}.
Variable test : F -> M F bool.
Variable fires : F -> bool.
Variable tag : F -> RunInput F.
Variable Inv : World F -> Prop.
Local Open Scope scalar_scope.

Hypothesis trial : Trial test fires tag Inv.
Hypothesis Inv_print : forall s w, Inv w -> Inv (log_out s w).

Lemma for_in_bisection (tol : F) (xs : list Z) :
  forall (b : F * F) (w : World F), Inv w ->
  exists w',
    for_in xs (bisect_body test tol) b w =
      (Ok (bisection fires tol (length xs) b), w') /\
    Inv w' /\ (length (w_runs w) <= length (w_runs w'))%nat.
Proof.
  induction xs as [|x xs IH]; intros b w Hw.
  - exists w. cbn. auto.
  - destruct (@bisect_body_run F SF test fires tag Inv trial tol x b w Hw)
      as (w1 & Hb & Hw1 & Hr1 & _).
    cbn [for_in length bisection]. unfold bind at 1. rewrite Hb. cbn [fst snd].
    assert (Hlen : (length (w_runs w) <= length (w_runs w1))%nat).
    { rewrite Hr1, length_app. lia. }
    destruct (width (narrow fires b) <? tol).
    + exists w1. auto.
    + destruct (IH (narrow fires b) w1 Hw1) as (w2 & Hrun & Hw2 & Hl2).
      exists w2. repeat split; auto. lia.
Qed.

Lemma search_threshold (lo hi tol : F) (max_iters : Z) (w : World F) :
  Inv w ->
  exists w',
    search test lo hi tol max_iters w =
      (Ok (threshold fires lo hi tol max_iters), w') /\
    Inv w' /\ (length (w_runs w) < length (w_runs w'))%nat.
Proof.
  intros Hw.
  destruct (trial hi Hw) as (w1 & Ht & Hw1 & Hr1 & _).
  assert (Hl1 : (length (w_runs w) < length (w_runs w1))%nat).
  { rewrite Hr1, length_app. cbn. lia. }
  unfold search, threshold, bind at 1. rewrite Ht.
  destruct (fires hi); cbn [negb].
  - destruct (trial lo Hw1) as (w2 & Ht2 & Hw2 & Hr2 & _).
    assert (Hl2 : (length (w_runs w1) < length (w_runs w2))%nat).
    { rewrite Hr2, length_app. cbn. lia. }
    unfold bind at 1. rewrite Ht2.
    destruct (fires lo).
    + exists w2. repeat split; auto. lia.
    + destruct (for_in_bisection tol (range max_iters) (lo, hi) Hw2)
        as (w3 & Hrun & Hw3 & Hl3).
      rewrite range_length in Hrun.
      exists w3. unfold bisect, bind. rewrite Hrun.
      repeat split; auto. lia.
  - exists (log_out warning w1). cbn. repeat split; auto.
Qed.

End PureSearch.

Section Release.

Context {F : Type} {SF : Scalar F}.
Variable solver : Solver F.
Local Open Scope scalar_scope.

Lemma bind_inv {A B} (m : M F A) (k : A -> M F B) (w w' : World F) (b : B) :
  bind m k w = (Ok b, w') ->
  exists a w1, m w = (Ok a, w1) /\ k a w1 = (Ok b, w').
Proof.
  unfold bind. destruct (m w) as [[a|e] w1]; [|discriminate].
  intros H. exists a, w1. split; [reflexivity | exact H].
Qed.

Lemma py_index_inv {A} (xs : list A) (i : Z) (w w' : World F) (a : A) :
  py_index xs i w = (Ok a, w') -> index_of xs i = Some a /\ w' = w.
Proof.
  unfold py_index. destruct (index_of xs i); cbv [ret raise]; intros H;
    inversion H. auto.
Qed.

Lemma np_array_inv (v : nat) (w w' : World F) (a : list F) :
  np_array v w = (Ok a, w') -> w' = w.
Proof.
  unfold np_array. destruct (nth_error (w_vecs w) v) as [[d|]|]; intros H;
    inversion H. reflexivity.
Qed.

Lemma np_max_inv (arr : list F) (w w' : World F) (a : F) :
  np_max arr w = (Ok a, w') -> w' = w.
Proof. destruct arr; cbv [np_max ret raise]; intros H; inversion H. reflexivity. Qed.

(** A trial leaves the step and the stop time [run_sim] has set. *)
Lemma test_scale_clock (nodes : list nat) (mid : Z) (tvec base : list F)
  (rv : nat) (s tl : F) (w w' : World F) (b : bool) :
  index_of tvec (-1) = Some tl ->
  test_scale solver nodes mid tvec base rv s w = (Ok b, w') ->
  w_dt w' = DT /\ w_tstop w' = tl + lit 5.0.
Proof.
  intros Htl H. unfold test_scale in H.
  apply bind_inv in H. destruct H as (nd & w1 & H1 & H).
  apply bind_inv in H. destruct H as ([[stim vt] vi] & w2 & H2 & H).
  apply bind_inv in H. destruct H as (last & w3 & H3 & H).
  apply py_index_inv in H3. destruct H3 as [H3 ->].
  rewrite Htl in H3. inversion H3. subst last.
  apply bind_inv in H. destruct H as ([] & w4 & H4 & H).
  apply bind_inv in H. destruct H as (Vm & w5 & H5 & H).
  apply np_array_inv in H5. subst w5.
  apply bind_inv in H. destruct H as (m & w6 & H6 & H).
  apply np_max_inv in H6. subst w6.
  rewrite run_sim_run in H4. inversion H4 as [Hw4]. clear H4.
  cbv [bind del_vec del_stim modify ret] in H. inversion H as [[Hb Hw']].
  rewrite <- Hw4. split; reflexivity.
Qed.

Lemma trial_clocked (nodes : list nat) (mid : Z) (tvec base : list F)
  (nd rsec rt rv : nat) (tl : F) (secs0 : list (Sec F)) (n0 : nat) :
  index_of nodes mid = Some nd ->
  index_of tvec (-1) = Some tl ->
  Trial (test_scale solver nodes mid tvec base rv)
        (fires_at solver secs0 nd rsec tvec base tl)
        (trial_input secs0 nd tvec base tl)
        (fun w => Searching secs0 rt rv rsec w /\ Clocked n0 tl w).
Proof.
  intros Hnd Htl s w [Hs _].
  destruct (@test_scale_trial F SF solver nodes mid tvec base nd rsec rt rv tl
              secs0 Hnd Htl s w Hs) as (w' & Hrun & Hs' & Hr & Ho).
  exists w'. split; [exact Hrun|]. split; [|split; assumption].
  split; [exact Hs'|]. intros _. eapply test_scale_clock; eassumption.
Qed.

Lemma recording_searching_from (secs0 : list (Sec F)) (rsec : nat) (w : World F) :
  Quiescent w ->
  map (with_v E_LEAK) (w_secs w) = map (with_v E_LEAK) secs0 ->
  Searching secs0 (length (w_vecs w)) (S (length (w_vecs w))) rsec
            (snd (record_section_v rsec w)).
Proof.
  intros [Hp Hs Hr] Hsecs. rewrite record_section_v_run. cbn [snd].
  constructor; cbn [w_secs w_stims w_vecs w_plays w_recs]; auto.
  - rewrite Hr. reflexivity.
  - rewrite length_app. cbn [length]. lia.
  - exists []. rewrite nth_error_app2 by lia.
    replace (S (length (w_vecs w)) - length (w_vecs w))%nat with 1%nat by lia.
    reflexivity.
Qed.

(** [find_threshold] ends by releasing its two recording Vectors. *)
Lemma find_threshold_release (fiber : Fiber) (tvec base : list F)
  (lo hi tol : F) (max_iters : Z) (ridx : option Z) (w : World F)
  (rsec : nat) (res : option F) (w2 : World F) :
  index_of (nodes fiber) (rec_index fiber ridx) = Some rsec ->
  search (test_scale solver (nodes fiber) (mid_idx fiber) tvec base
                     (S (length (w_vecs w))))
         lo hi tol max_iters (snd (record_section_v rsec w)) = (Ok res, w2) ->
  find_threshold solver fiber tvec base lo hi tol max_iters ridx w =
    (Ok res, snd (del_vec (length (w_vecs w))
                    (snd (del_vec (S (length (w_vecs w))) w2)))).
Proof.
  intros Hrec Hsearch.
  unfold find_threshold, py_index. rewrite Hrec.
  unfold bind at 1. unfold ret at 1. unfold bind at 1.
  rewrite record_section_v_run in *. cbn [snd] in Hsearch.
  unfold bind at 1. rewrite Hsearch. reflexivity.
Qed.

Lemma released (secs0 : list (Sec F)) (rt rsec : nat) (w2 : World F) :
  Searching secs0 rt (S rt) rsec w2 ->
  let w3 := snd (del_vec rt (snd (del_vec (S rt) w2))) in
  Quiescent w3 /\ w_secs w3 = w_secs w2 /\ w_dt w3 = w_dt w2 /\
  w_tstop w3 = w_tstop w2 /\ w_runs w3 = w_runs w2 /\ w_out w3 = w_out w2.
Proof.
  intros [Hp Hs Hr _ _ _].
  destruct w2 as [secs stims vecs plays recs t dt tstop runs out].
  cbn [w_plays w_stims w_recs] in *. subst plays recs.
  cbv [del_vec modify snd on_recs on_plays on_vecs
       w_secs w_stims w_vecs w_plays w_recs w_t w_dt w_tstop w_runs w_out].
  cbn [filter rec_vec negb].
  rewrite Nat.eqb_refl.
  replace (rt =? S rt)%nat with false by (symmetry; apply Nat.eqb_neq; lia).
  cbn [filter rec_vec negb]. rewrite Nat.eqb_refl. cbn [negb].
  repeat split; auto.
Qed.

(** From a quiet store [find_threshold] returns the threshold of the
    response, and leaves the store quiet. *)
Lemma find_threshold_threshold (fiber : Fiber) (tvec base : list F)
  (lo hi tol : F) (max_iters : Z) (ridx : option Z) (w : World F)
  (nd rsec : nat) (tl : F) (secs0 : list (Sec F)) :
  Ready fiber tvec ridx w nd rsec tl ->
  map (with_v E_LEAK) (w_secs w) = map (with_v E_LEAK) secs0 ->
  exists w',
    find_threshold solver fiber tvec base lo hi tol max_iters ridx w =
      (Ok (threshold (fires_at solver secs0 nd rsec tvec base tl)
                     lo hi tol max_iters), w') /\
    Quiescent w' /\
    map (with_v E_LEAK) (w_secs w') = map (with_v E_LEAK) secs0 /\
    w_dt w' = DT /\ w_tstop w' = tl + lit 5.0 /\
    (length (w_runs w) < length (w_runs w'))%nat.
Proof.
  intros [Hq Hmid Hrec Hlast] Hsecs.
  pose proof (@recording_searching_from secs0 rsec w Hq Hsecs) as Hs1.
  set (w1 := snd (record_section_v rsec w)) in *.
  set (rt := length (w_vecs w)) in *.
  assert (Hinv : Searching secs0 rt (S rt) rsec w1 /\
                 Clocked (length (w_runs w1)) tl w1).
  { split; [exact Hs1|]. intros Hlt. lia. }
  destruct (@search_threshold F SF
              (test_scale solver (nodes fiber) (mid_idx fiber) tvec base (S rt))
              (fires_at solver secs0 nd rsec tvec base tl)
              (trial_input secs0 nd tvec base tl)
              (fun w => Searching secs0 rt (S rt) rsec w /\
                        Clocked (length (w_runs w1)) tl w)
              (@trial_clocked (nodes fiber) (mid_idx fiber) tvec base nd rsec rt
                 (S rt) tl secs0 (length (w_runs w1)) Hmid Hlast))
    with (lo := lo) (hi := hi) (tol := tol) (max_iters := max_iters) (w := w1)
    as (w2 & Hrun & [Hs2 Hc2] & Hl2).
  { intros s w0 [Hs0 Hc0]. split; [now apply searching_print|].
    intros Hlt. apply Hc0. exact Hlt. }
  { exact Hinv. }
  pose proof (@find_threshold_release fiber tvec base lo hi tol max_iters ridx w
                rsec _ w2 Hrec Hrun) as Hf.
  fold rt in Hf.
  destruct (@released secs0 rt rsec w2 Hs2) as (Hq3 & Hsecs3 & Hdt3 & Hts3 & Hr3 & Ho3).
  destruct (Hc2 Hl2) as [Hdt2 Hts2].
  eexists. split; [exact Hf|].
  split; [exact Hq3|].
  split; [rewrite Hsecs3; apply Hs2|].
  split; [congruence|]. split; [congruence|].
  rewrite Hr3.
  assert (Hr1 : w_runs w1 = w_runs w).
  { unfold w1. rewrite record_section_v_run. reflexivity. }
  rewrite <- Hr1. exact Hl2.
Qed.

End Release.

Lemma with_v_same {F : Type} (x : F) (c c' : Sec F) :
  with_v x c' = with_v x c -> with_v (sec_v c) c' = c.
Proof.
  destruct c, c'. unfold with_v. cbn. intros H. injection H. intros. subst.
  reflexivity.
Qed.

(** ** Indices *)

Section Errors.

Context {F : Type} {SF : Scalar F}.
Variable solver : Solver F.

Lemma index_of_nil {A} (i : Z) : index_of (@nil A) i = None.
Proof.
  unfold index_of. cbv zeta.
  destruct (_ <? 0)%Z; [reflexivity|]. now destruct (Z.to_nat _).
Qed.

Lemma index_of_out {A} (l : list A) (i : Z) :
  (i < - len l \/ len l <= i)%Z -> index_of l i = None.
Proof.
  intros Hi. unfold index_of, len in *. cbv zeta.
  destruct (i <? 0)%Z eqn:E.
  - apply Z.ltb_lt in E.
    destruct (i + Z.of_nat (length l) <? 0)%Z eqn:E2; [reflexivity|].
    apply Z.ltb_ge in E2. lia.
  - apply Z.ltb_ge in E.
    replace (i <? 0)%Z with false by (symmetry; apply Z.ltb_ge; lia).
    apply nth_error_None. lia.
Qed.

Lemma index_of_negative {A} (l : list A) (i : Z) :
  (- len l <= i < 0)%Z -> index_of l i = index_of l (i + len l).
Proof.
  intros Hi. unfold index_of, len in *. cbv zeta.
  assert (E1 : (i <? 0)%Z = true) by (apply Z.ltb_lt; lia).
  assert (E2 : (i + Z.of_nat (length l) <? 0)%Z = false) by (apply Z.ltb_ge; lia).
  rewrite E1, !E2. cbv iota. rewrite ?E2. reflexivity.
Qed.

Lemma index_of_last {A} (l : list A) : index_of l (-1) = index_of l (len l - 1).
Proof.
  destruct l as [|a l].
  - now rewrite !index_of_nil.
  - rewrite index_of_negative by (unfold len; cbn [length]; lia).
    f_equal; lia.
Qed.

Lemma index_of_nonempty {A} (l : list A) :
  l <> [] -> exists a, index_of l (-1) = Some a.
Proof.
  intros H. rewrite index_of_last.
  destruct (@index_of_some A l (len l - 1)) as (a & Ha & _).
  { unfold len. destruct l; [congruence | cbn [length]; lia]. }
  exists a. exact Ha.
Qed.

Lemma find_threshold_rec_index (fiber : Fiber) (tvec base : list F)
  (lo hi tol : F) (max_iters : Z) (r r' : option Z) (w : World F) :
  index_of (nodes fiber) (rec_index fiber r) =
    index_of (nodes fiber) (rec_index fiber r') ->
  find_threshold solver fiber tvec base lo hi tol max_iters r w =
    find_threshold solver fiber tvec base lo hi tol max_iters r' w.
Proof.
  intros H. unfold find_threshold, py_index. rewrite H. reflexivity.
Qed.

Lemma find_threshold_no_record (fiber : Fiber) (tvec base : list F)
  (lo hi tol : F) (max_iters : Z) (r : option Z) (w : World F) :
  index_of (nodes fiber) (rec_index fiber r) = None ->
  find_threshold solver fiber tvec base lo hi tol max_iters r w =
    (Raise IndexError, w).
Proof.
  intros H. unfold find_threshold, py_index. rewrite H. reflexivity.
Qed.

End Errors.

(** ** NaN in binary64 *)

Lemma SFltb_nan (x y : spec_float) : SFeqb y y = false -> SFltb x y = false.
Proof.
  unfold SFeqb, SFltb, SFcompare.
  destruct y as [sy|sy| |sy my ey].
  - destruct sy; discriminate.
  - destruct sy; discriminate.
  - destruct x as [sx|sx| |sx mx ex]; reflexivity.
  - rewrite Z.compare_refl.
    change (Pos.compare_cont Eq) with Pos.compare. rewrite Pos.compare_refl.
    destruct sy; cbn; discriminate.
Qed.

Lemma SFleb_nan (x y : spec_float) : SFeqb x x = false -> SFleb x y = false.
Proof.
  unfold SFeqb, SFleb, SFcompare.
  destruct x as [sx|sx| |sx mx ex].
  - destruct sx; discriminate.
  - destruct sx; discriminate.
  - reflexivity.
  - rewrite Z.compare_refl.
    change (Pos.compare_cont Eq) with Pos.compare. rewrite Pos.compare_refl.
    destruct sx; cbn; discriminate.
Qed.

Section NaN.

Variable pow05 : float -> float.
Local Abbreviation B64 := (Binary64.scalar pow05).

Lemma b64_nan_spec (x : float) :
  @is_nan float B64 x = true -> SFeqb (Prim2SF x) (Prim2SF x) = false.
Proof.
  unfold is_nan. cbn [feqb Binary64.scalar]. intros H.
  apply negb_true_iff in H. now rewrite eqb_spec in H.
Qed.

Lemma b64_ltb_nan (x y : float) :
  @is_nan float B64 y = true -> PrimFloat.ltb x y = false.
Proof. intros H. rewrite ltb_spec. apply SFltb_nan, b64_nan_spec, H. Qed.

Lemma b64_leb_nan (x y : float) :
  @is_nan float B64 x = true -> PrimFloat.leb x y = false.
Proof. intros H. rewrite leb_spec. apply SFleb_nan, b64_nan_spec, H. Qed.

Lemma np_maximum_nan (a b : float) :
  @is_nan float B64 a = true \/ @is_nan float B64 b = true ->
  @is_nan float B64 (@np_maximum float B64 a b) = true.
Proof.
  unfold np_maximum. intros [Ha|Hb].
  - rewrite Ha, orb_true_r. exact Ha.
  - assert (Hle : @fleb float B64 b a = false) by (apply b64_leb_nan, Hb).
    rewrite Hle. cbn [orb].
    destruct (@is_nan float B64 a) eqn:Ha; [exact Ha | exact Hb].
Qed.

Lemma peak_nan (l : list float) (a : float) :
  (@is_nan float B64 a = true \/ exists x, In x l /\ @is_nan float B64 x = true) ->
  @is_nan float B64 (fold_left (@np_maximum float B64) l a) = true.
Proof.
  revert a. induction l as [|y l IH]; intros a H; cbn [fold_left].
  - destruct H as [H|(x & [] & _)]. exact H.
  - apply IH. destruct H as [H|(x & [->|Hin] & Hx)].
    + left. apply np_maximum_nan. now left.
    + left. apply np_maximum_nan. now right.
    + right. exists x. split; assumption.
Qed.

(** A trial whose recorded potential holds a NaN does not fire. *)
Lemma nan_not_fires (solver : Solver float) (secs : list (Sec float))
  (nd rsec : nat) (tvec base : list float) (tl s : float) (x : float) :
  let tr := trace solver (@trial_input float B64 secs nd tvec base tl s)
                  (Ref_v rsec (@lit float B64 0.5)) in
  In x (fst tr :: snd tr) -> @is_nan float B64 x = true ->
  @fires_at float B64 solver secs nd rsec tvec base tl s = false.
Proof.
  intros tr Hin Hx. unfold fires_at, peak. fold tr.
  cbn [fltb Binary64.scalar]. apply b64_ltb_nan.
  apply peak_nan. destruct Hin as [<-|Hin]; [now left|].
  right. exists x. split; assumption.
Qed.

End NaN.

(** ** A fiber, then a search *)

Section Pipeline.

Context {F : Type} {SF : Scalar F}.

Lemma built_quiescent (d : F) (n : Z) (w : World F) :
  Quiescent w -> Quiescent (built d n w).
Proof.
  intros [Hp Hs Hr].
  destruct w as [secs stims vecs plays recs t dt tstop runs out].
  constructor; assumption.
Qed.

Lemma fiber_at_ready (base N : nat) (tvec : list F) (w : World F) (tl : F) :
  (1 <= N)%nat -> Quiescent w -> index_of tvec (-1) = Some tl ->
  Ready (fiber_at base N) tvec None w
        (base + 4 * (N / 2) + 0) (base + 4 * (N - 1) + 0) tl.
Proof.
  intros HN Hq Htl. constructor; [exact Hq | | | exact Htl].
  - cbn [fiber_at nodes mid_idx].
    change 2%Z with (Z.of_nat 2). rewrite <- Nat2Z.inj_div.
    apply index_of_ids. apply Nat.div_lt; lia.
  - cbn [fiber_at nodes rec_index]. unfold len. rewrite ids_length.
    replace (Z.of_nat N - 1)%Z with (Z.of_nat (N - 1)) by lia.
    apply index_of_ids. lia.
Qed.

End Pipeline.

(** ** The sections of a fiber *)

Section FrameFacts.

Context {F : Type} {SF : Scalar F}.

Lemma compartment_bounds (base N id : nat) :
  In id (compartments (fiber_at base N)) ->
  (base <= id < base + (4 * (N - 1) + Nat.min N 1))%nat.
Proof.
  intros H. apply In_compartments in H. destruct H as (i & r & Hi & Hr & ->).
  destruct (S i <? N)%nat eqn:E.
  - apply Nat.ltb_lt in E. lia.
  - apply Nat.ltb_ge in E. lia.
Qed.

Lemma built_frame (d : F) (n : Z) (w : World F) :
  firstn (length (w_secs w)) (w_secs (built d n w)) = w_secs w /\
  w_stims (built d n w) = w_stims w /\ w_vecs (built d n w) = w_vecs w /\
  w_plays (built d n w) = w_plays w /\ w_recs (built d n w) = w_recs w /\
  w_t (built d n w) = w_t w /\ w_dt (built d n w) = w_dt w /\
  w_tstop (built d n w) = w_tstop w /\
  w_runs (built d n w) = w_runs w /\ w_out (built d n w) = w_out w.
Proof.
  destruct w as [secs stims vecs plays recs t dt tstop runs out].
  unfold built. cbn [on_secs w_secs w_stims w_vecs w_plays w_recs w_t w_dt
                     w_tstop w_runs w_out].
  split; [|repeat split].
  rewrite firstn_app, Nat.sub_diag, firstn_all. cbn. apply app_nil_r.
Qed.

Lemma built_node (d : F) (n : Z) (w : World F) (i : nat) :
  (i < Z.to_nat n)%nat ->
  exists c,
    nth_error (w_secs (built d n w)) (length (w_secs w) + 4 * i + 0) = Some c /\
    sec_name c = fstring "node_" (Z.of_nat i) /\
    sec_L c = node_length_um /\ sec_cm c = CM_NODE /\
    sec_hh c = Some hh_node /\ sec_pas c = None.
Proof.
  intros Hi.
  destruct (@built_sec F SF d n w i 0 Hi) as (c0 & Hc0 & Hsec).
  { rewrite group_length. destruct (S i <? Z.to_nat n)%nat; lia. }
  eexists. split; [exact Hsec|].
  destruct (link_fields (length (w_secs w)) (4 * (Z.to_nat n - 1)) (4 * i + 0) c0)
    as (-> & -> & _ & _ & _ & -> & -> & ->).
  unfold group in Hc0. cbn [nth_error] in Hc0. inversion Hc0.
  cbn. repeat split; reflexivity.
Qed.

Lemma built_passive (d : F) (n : Z) (w : World F) (i r : nat) :
  (S i < Z.to_nat n)%nat -> (r < 3)%nat ->
  exists c,
    nth_error (w_secs (built d n w)) (length (w_secs w) + 4 * i + S r) = Some c /\
    sec_name c = fstring (nth (S r) kinds EmptyString) (Z.of_nat i) /\
    sec_L c = nth r [paranode_length_um d; juxta_length_um d;
                     internode_length_from_diam d] d.
Proof.
  intros Hi Hr.
  destruct (@built_sec F SF d n w i (S r)) as (c0 & Hc0 & Hsec); [lia| |].
  { rewrite group_length.
    replace (S i <? Z.to_nat n)%nat with true by (symmetry; apply Nat.ltb_lt; lia).
    lia. }
  eexists. split; [exact Hsec|].
  destruct (link_fields (length (w_secs w)) (4 * (Z.to_nat n - 1)) (4 * i + S r) c0)
    as (-> & -> & _).
  unfold group in Hc0.
  replace (S i <? Z.to_nat n)%nat with true in Hc0
    by (symmetry; apply Nat.ltb_lt; lia).
  destruct r as [|[|[|r]]]; try lia; cbn [nth_error] in Hc0; inversion Hc0;
    cbn; split; reflexivity.
Qed.

Lemma built_parent (d : F) (n : Z) (w : World F) (j : nat) :
  (j < 4 * (Z.to_nat n - 1))%nat ->
  parent_of (built d n w) (length (w_secs w) + S j) =
    Some (length (w_secs w) + j)%nat.
Proof.
  intros Hj.
  assert (Hin : In (length (w_secs w) + S j)%nat
                   (compartments (fiber_at (length (w_secs w)) (Z.to_nat n)))).
  { apply In_compartments.
    destruct (Nat.eq_dec (S j) (4 * (Z.to_nat n - 1))) as [E|E].
    - exists (Z.to_nat n - 1)%nat, 0%nat. split; [lia|]. split; [|lia].
      destruct (S (Z.to_nat n - 1) <? Z.to_nat n)%nat; lia.
    - exists (S j / 4)%nat, (S j mod 4)%nat.
      pose proof (Nat.div_mod_eq (S j) 4) as Hdm.
      pose proof (Nat.mod_upper_bound (S j) 4 ltac:(lia)) as Hm.
      assert (S (S j / 4) < Z.to_nat n)%nat by lia.
      split; [lia|]. split; [|lia].
      replace (S (S j / 4) <? Z.to_nat n)%nat with true
        by (symmetry; apply Nat.ltb_lt; lia).
      exact Hm. }
  destruct (@compartment_parent_of F SF d n w _ Hin) as (j0 & Hj0 & Hp).
  assert (j0 = S j) by lia. subst j0. exact Hp.
Qed.

Lemma built_root (d : F) (n : Z) (w : World F) :
  (1 <= Z.to_nat n)%nat ->
  parent_of (built d n w) (length (w_secs w) + 0) = None.
Proof.
  intros Hn.
  assert (Hin : In (length (w_secs w) + 0)%nat
                   (compartments (fiber_at (length (w_secs w)) (Z.to_nat n)))).
  { apply In_compartments. exists 0%nat, 0%nat.
    split; [lia|]. split; [|lia]. destruct (1 <? Z.to_nat n)%nat; lia. }
  destruct (@compartment_parent_of F SF d n w _ Hin) as (j & Hj & Hp).
  assert (j = 0%nat) by lia. subst j. exact Hp.
Qed.

Lemma ancestor_S (w : World F) (k id : nat) :
  ancestor w (S k) id = match ancestor w k id with
                        | Some x => parent_of w x
                        | None => None
                        end.
Proof. reflexivity. Qed.

Lemma built_ancestor (d : F) (n : Z) (w : World F) (j k : nat) :
  (k <= j)%nat -> (j <= 4 * (Z.to_nat n - 1))%nat ->
  ancestor (built d n w) k (length (w_secs w) + j) =
    Some (length (w_secs w) + (j - k))%nat.
Proof.
  intros Hk Hj. induction k as [|k IH].
  - cbn. f_equal. lia.
  - rewrite ancestor_S, IH by lia.
    replace (j - k)%nat with (S (j - S k)) by lia.
    apply built_parent. lia.
Qed.

Lemma to_int_inj (a b : Z) :
  NilZero.string_of_int (Z.to_int a) = NilZero.string_of_int (Z.to_int b) -> a = b.
Proof.
  intros H.
  assert (Hnn : forall z, Z.to_int z <> Decimal.Pos Decimal.Nil /\
                          Z.to_int z <> Decimal.Neg Decimal.Nil).
  { intros [|p|p]; cbn; split; try discriminate; intros E; inversion E as [E'];
      exact (DecimalPos.Unsigned.to_uint_nonnil p E'). }
  apply (f_equal NilZero.int_of_string) in H.
  rewrite !NilZero.isi in H by apply Hnn.
  inversion H as [H']. apply (f_equal Z.of_int) in H'.
  now rewrite !DecimalZ.of_to in H'.
Qed.

Lemma fstring_inj (r r' : nat) (i i' : Z) :
  (r < 4)%nat -> (r' < 4)%nat ->
  fstring (nth r kinds EmptyString) i = fstring (nth r' kinds EmptyString) i' ->
  r = r' /\ i = i'.
Proof.
  intros Hr Hr'. unfold fstring.
  destruct r as [|[|[|[|r]]]]; try lia;
    destruct r' as [|[|[|[|r']]]]; try lia;
    cbn [nth kinds String.append]; intros H; try discriminate H;
    (split; [reflexivity|]); apply to_int_inj; inversion H; reflexivity.
Qed.

Lemma group_name (d : F) (N i r : nat) (c0 : Sec F) :
  nth_error (group d N i) r = Some c0 ->
  (r < 4)%nat /\ sec_name c0 = fstring (nth r kinds EmptyString) (Z.of_nat i).
Proof.
  unfold group. destruct (S i <? N)%nat;
    destruct r as [|[|[|[|r]]]]; cbn; intros H; inversion H; cbn;
    try (split; [lia | reflexivity]).
  all: destruct r; discriminate.
Qed.

End FrameFacts.

(** ** Order, NaN and the search in binary64 *)

Section RoundingSearch.

Local Open Scope Z_scope.

Lemma SFltb_total (a b : spec_float) :
  SFeqb a a = true -> SFeqb b b = true -> SFleb b a = false -> SFltb a b = true.
Proof.
  unfold SFeqb, SFleb, SFltb, SFcompare.
  destruct a as [sa|sa| |sa ma ea], b as [sb|sb| |sb mb eb];
    try destruct sa; try destruct sb; try discriminate; try reflexivity.
  all: intros _ _; destruct (Z.compare_spec ea eb), (Z.compare_spec eb ea);
         try discriminate; try reflexivity; try lia.
  all: subst; change (Pos.compare_cont Eq) with Pos.compare;
       destruct (Pos.compare_spec ma mb), (Pos.compare_spec mb ma);
       cbn; try discriminate; try reflexivity; lia.
Qed.


Lemma SFltb_not_nan (x y : spec_float) : SFltb x y = true -> SFeqb x x = true /\ SFeqb y y = true.
Proof.
  intros H. split.
  - destruct (SFeqb x x) eqn:E; auto.
    assert (SFleb x y = false) by (apply SFleb_nan; auto).
    unfold SFltb, SFleb in *. destruct (SFcompare x y) as [[]|]; discriminate.
  - destruct (SFeqb y y) eqn:E; auto. rewrite SFltb_nan in H; auto.
Qed.

Section B64Peak.

Variable pow05 : float -> float.
Local Abbreviation B := (Binary64.scalar pow05).

Lemma b64_is_nan (x : float) : @is_nan float B x = negb (SFeqb (Prim2SF x) (Prim2SF x)).
Proof. unfold is_nan. cbn [feqb Binary64.scalar]. now rewrite eqb_spec. Qed.

Lemma b64_ltb_total (a b : float) :
  @is_nan float B a = false -> @is_nan float B b = false ->
  PrimFloat.leb b a = false -> PrimFloat.ltb a b = true.
Proof.
  rewrite !b64_is_nan, leb_spec, ltb_spec, !negb_false_iff. apply SFltb_total.
Qed.


Lemma b64_ltb_not_nan (a b : float) :
  PrimFloat.ltb a b = true -> @is_nan float B a = false /\ @is_nan float B b = false.
Proof.
  rewrite ltb_spec, !b64_is_nan, !negb_false_iff. apply SFltb_not_nan.
Qed.

Lemma b64_np_maximum_pos (a b : float) :
  @is_nan float B a = false -> @is_nan float B b = false ->
  @is_nan float B (@np_maximum float B a b) = false /\
  (PrimFloat.ltb 0 (@np_maximum float B a b) = true <->
   PrimFloat.ltb 0 a = true \/ PrimFloat.ltb 0 b = true).
Proof.
  intros Ha Hb. unfold np_maximum. rewrite Ha, orb_false_r.
  cbn [fleb Binary64.scalar].
  destruct (PrimFloat.leb b a) eqn:E.
  - split; [exact Ha|]. split; [auto|]. intros [H|H]; [exact H|].
    exact (@b64_ltb_leb_trans _ _ _ H E).
  - split; [exact Hb|]. split; [auto|]. intros [H|H]; [|exact H].
    exact (@b64_ltb_trans _ _ _ H (@b64_ltb_total a b Ha Hb E)).
Qed.

Lemma b64_peak_pos (l : list float) (a : float) :
  (forall x, In x (a :: l) -> @is_nan float B x = false) ->
  @is_nan float B (fold_left (@np_maximum float B) l a) = false /\
  (PrimFloat.ltb 0 (fold_left (@np_maximum float B) l a) = true <->
   exists x, In x (a :: l) /\ PrimFloat.ltb 0 x = true).
Proof.
  revert a. induction l as [|y l IH]; intros a Hn; cbn [fold_left].
  - split; [apply Hn; now left|]. split.
    + intros H. exists a. split; [now left|exact H].
    + intros (x & [<-|[]] & H). exact H.
  - destruct (@b64_np_maximum_pos a y) as [N P]; [apply Hn; now left|apply Hn; right; now left|].
    destruct (IH (@np_maximum float B a y)) as [N' P'].
    { intros x [<-|Hx]; [exact N|]. apply Hn. right. now right. }
    split; [exact N'|]. rewrite P'. split.
    + intros (x & [<-|Hx] & H).
      * apply P in H. destruct H as [H|H]; [exists a|exists y]; split; auto; [now left|right; now left].
      * exists x. split; [right; now right|exact H].
    + intros (x & [<-|[<-|Hx]] & H).
      * exists (@np_maximum float B a y). split; [now left|]. apply P. now left.
      * exists (@np_maximum float B a y). split; [now left|]. apply P. now right.
      * exists x. split; [now right|exact H].
Qed.

(** The peak of a recorded series is above 0 exactly when no sample is
    NaN and one sample is above 0. *)
Lemma b64_peak_fires (tr : float * list float) :
  PrimFloat.ltb 0 (@peak float B tr) = true <->
  (forall x, In x (fst tr :: snd tr) -> @is_nan float B x = false) /\
  (exists x, In x (fst tr :: snd tr) /\ PrimFloat.ltb 0 x = true).
Proof.
  unfold peak. split.
  - intros H.
    assert (Hn : forall x, In x (fst tr :: snd tr) -> @is_nan float B x = false).
    { intros x Hx. destruct (@is_nan float B x) eqn:E; auto.
      assert (Hp : @is_nan float B (fold_left (@np_maximum float B) (snd tr) (fst tr)) = true).
      { apply peak_nan. destruct Hx as [<-|Hx]; [now left|right; exists x; auto]. }
      destruct (@b64_ltb_not_nan _ _ H) as [_ Hq]. congruence. }
    split; [exact Hn|]. apply (proj2 (@b64_peak_pos _ _ Hn)), H.
  - intros [Hn Hx]. apply (proj2 (@b64_peak_pos _ _ Hn)), Hx.
Qed.

End B64Peak.



Section B64Search.

Variable pow05 : float -> float.
Variable g : float -> bool.
Local Abbreviation B := (Binary64.scalar pow05).




End B64Search.







Section B64Threshold.

Variable pow05 : float -> float.
Local Abbreviation B := (Binary64.scalar pow05).

Variable solver : Solver float.
Variable fiber : Fiber.
Variables tvec base : list float.
Variables lo hi tol : float.
Variable max_iters : Z.
Variable ridx : option Z.
Variable w : World float.
Variables nd rsec : nat.
Variable tl : float.

Local Abbreviation fires := (@fires_at float B solver (w_secs w) nd rsec tvec base tl).

Hypothesis ready : @Ready float fiber tvec ridx w nd rsec tl.
Hypothesis Hb : ordered_bracket (lo, hi).


End B64Threshold.

Lemma SFltb_pos (m1 : positive) (e1 : Z) (m2 : positive) (e2 : Z) :
  SFltb (S754_finite false m1 e1) (S754_finite false m2 e2) = true <->
  e1 < e2 \/ (e1 = e2 /\ Zpos m1 < Zpos m2).
Proof.
  unfold SFltb, SFcompare. change (PosDef.Pos.compare_cont Eq m1 m2) with (Zpos m1 ?= Zpos m2).
  destruct (Z.compare_spec e1 e2); [destruct (Z.compare_spec (Zpos m1) (Zpos m2))|..];
    split; intros; try discriminate; try reflexivity; lia.
Qed.

Lemma SFleb_not_ltb (a b : spec_float) : SFleb a b = true -> SFltb b a = false.
Proof.
  unfold SFleb, SFltb, SFcompare.
  destruct a as [sa|sa| |sa ma ea], b as [sb|sb| |sb mb eb];
    try destruct sa; try destruct sb; try discriminate; try reflexivity.
  all: destruct (Z.compare_spec ea eb), (Z.compare_spec eb ea);
         try discriminate; try reflexivity; try lia.
  all: subst; change (Pos.compare_cont Eq) with Pos.compare;
       destruct (Pos.compare_spec ma mb), (Pos.compare_spec mb ma);
       cbn; try discriminate; try reflexivity; lia.
Qed.

Lemma b64_leb_not_ltb (a b : float) : PrimFloat.leb a b = true -> PrimFloat.ltb b a = false.
Proof. rewrite leb_spec, ltb_spec. apply SFleb_not_ltb. Qed.

(** Above one half, a hundred times a float exceeds 50. *)
Lemma SFmul_100_above (x : spec_float) :
  SpecFloat.valid_binary 53 1024 x = true ->
  SFltb SFhalf x = true ->
  SFltb (Prim2SF 50) (SFmul 53 1024 (Prim2SF 100) x) = true.
Proof.
  intros Vx H.
  destruct x as [s|s| |s m e]; try destruct s; try discriminate; [reflexivity|].
  apply SFltb_pos in H.
  assert (V100 : SpecFloat.valid_binary 53 1024 (Prim2SF 100) = true) by apply Prim2SF_valid.
  apply SFltb_leb_trans with (y := sf_round (sf_mant (Prim2SF 100) * (4503599627370496 + 1))
                                    (sf_exp (Prim2SF 100) + -53)).
  { vm_compute. reflexivity. }
  rewrite (SFleb_nz _ (SFmul _ _ _ _)), mul_norm by auto.
  rewrite <- (SFleb_nz (sf_round _ _) (sf_round _ _)).
  cbn [sf_mant sf_exp cond_Zopp].
  assert (He : -53 <= e) by lia.
  rewrite <- (@norm_shift (sf_mant (Prim2SF 100) * Zpos m) (sf_exp (Prim2SF 100) + e) (e - -53)) by lia.
  replace (sf_exp (Prim2SF 100) + e - (e - -53)) with (sf_exp (Prim2SF 100) + -53) by lia.
  apply norm_mono.
  assert (Hm : 4503599627370496 + 1 <= Zpos m * 2 ^ (e - -53)).
  { destruct H as [H|[H1 H2]].
    - destruct (valid_finite _ _ _ Vx) as (Hd & _ & Hn & _).
      pose proof (@Zdigits2_bounds (Zpos m) ltac:(lia)) as [Hlo _].
      rewrite Hn in Hlo by lia. change (2 ^ (53 - 1)) with 4503599627370496 in Hlo.
      replace (e - -53) with (e - -53 - 1 + 1) by lia. rewrite pow2_S by lia.
      assert (0 < 2 ^ (e - -53 - 1)) by (apply pow2_gt0; lia). nia.
    - subst e. change (2 ^ (-53 - -53)) with 1. change (Zpos 4503599627370496) with 4503599627370496 in H2. lia. }
  change (sf_mant (Prim2SF 100)) with 7036874417766400.
  nia.
Qed.

Section B64Crossover.

Variable pow05 : float -> float.
Local Abbreviation B := (Binary64.scalar pow05).

Lemma b64_internode_floor (d : float) :
  PrimFloat.leb d 0.5 = true -> @internode_length_from_diam float B d = 50%float.
Proof.
  intros H. rewrite b64_internode.
  assert (E : PrimFloat.ltb 50 (100 * d) = false); [|now rewrite E].
  destruct (PrimFloat.is_finite d) eqn:Fd.
  - apply b64_leb_not_ltb.
    change (PrimFloat.leb (100 * d) (100 * 0.5) = true).
    apply b64_mul_mono_r; auto.
  - rewrite b64_finite_spec in Fd. rewrite leb_spec in H. rewrite ltb_spec, mul_spec.
    change (Prim2SF 0.5) with SFhalf in H.
    destruct (Prim2SF d) as [s|s| |s m e]; try discriminate. destruct s; [reflexivity|discriminate].
Qed.

Lemma b64_internode_slope (d : float) :
  PrimFloat.ltb 0.5 d = true ->
  @internode_length_from_diam float B d = (100 * d)%float /\
  PrimFloat.ltb 50 (100 * d) = true.
Proof.
  intros H. rewrite b64_internode.
  assert (E : PrimFloat.ltb 50 (100 * d) = true); [|now rewrite E].
  rewrite ltb_spec in H |- *. rewrite mul_spec.
  apply SFmul_100_above; [apply Prim2SF_valid|exact H].
Qed.

End B64Crossover.

End RoundingSearch.

(** ** What [find_threshold] returns and leaves behind *)

(** X1. From a store [find_threshold] can start from (nothing playing or
    recording, no live stimulus, the stimulation node, the recording
    node and [tvec_ms[-1]] exist) and with every [h.run()] returning,
    what [find_threshold] returns is a function of the response of the
    fiber alone, whatever the bracket: [None] when [scale_hi] does not
    fire, [scale_lo] when both ends fire, and otherwise the [hi] of the
    bracket reached by halving at most [max_iters] times, stopping after
    the first halving that leaves [hi - lo < tol]. *)
Theorem find_threshold_computes {F : Type} {SF : Scalar F} (solver : Solver F)
  (fiber : Fiber) (tvec base : list F) (lo hi tol : F) (max_iters : Z)
  (ridx : option Z) (w : World F) (nd rsec : nat) (tl : F) :
  Ready fiber tvec ridx w nd rsec tl ->
  exists w',
    find_threshold solver fiber tvec base lo hi tol max_iters ridx w =
      (Ok (threshold (fires_at solver (w_secs w) nd rsec tvec base tl)
                     lo hi tol max_iters), w').
Proof.
  intros Hready.
  destruct (@find_threshold_threshold F SF solver fiber tvec base lo hi tol
              max_iters ridx w nd rsec tl (w_secs w) Hready eq_refl)
    as (w' & Hrun & _).
  exists w'. exact Hrun.
Qed.

Lemma find_threshold_computes_witness :
  exists w',
    find_threshold (echo 300%float) Demo.fiber Demo.tvec Demo.pulse
      0%float 1000%float 0.01%float 20 None Demo.world =
      (Ok (Some 300.0030517578125%float), w').
Proof.
  destruct (@find_threshold_computes float Binary64.std (echo 300%float)
              Demo.fiber Demo.tvec Demo.pulse 0%float 1000%float 0.01%float 20
              None Demo.world 4 8 2%float demo_ready) as (w' & Hrun).
  exists w'. etransitivity; [exact Hrun|]. do 3 f_equal.
Defined.

(** X2. When [find_threshold] returns, nothing it has set up is left in
    the simulator: no Vector is playing or recording, no stimulus is
    alive, and the sections are those it was called with, the same in
    number and each the same but for its membrane potential. *)
Theorem find_threshold_releases {F : Type} {SF : Scalar F} (solver : Solver F)
  (fiber : Fiber) (tvec base : list F) (lo hi tol : F) (max_iters : Z)
  (ridx : option Z) (w : World F) (nd rsec : nat) (tl : F) :
  Ready fiber tvec ridx w nd rsec tl ->
  exists res w',
    find_threshold solver fiber tvec base lo hi tol max_iters ridx w = (Ok res, w') /\
    w_plays w' = [] /\ w_recs w' = [] /\
    (forall i, nth_error (w_stims w') i = None \/ nth_error (w_stims w') i = Some None) /\
    length (w_secs w') = length (w_secs w) /\
    (forall i c, nth_error (w_secs w) i = Some c ->
       exists c', nth_error (w_secs w') i = Some c' /\
                  with_v (sec_v c) c' = c).
Proof.
  intros Hready.
  destruct (@find_threshold_threshold F SF solver fiber tvec base lo hi tol
              max_iters ridx w nd rsec tl (w_secs w) Hready eq_refl)
    as (w' & Hrun & [Hp Hs Hr] & Hsecs & _).
  eexists _, w'. split; [exact Hrun|].
  split; [exact Hp|]. split; [exact Hr|].
  split.
  { intros i. destruct (nth_error (w_stims w') i) as [o|] eqn:E; [right | now left].
    apply nth_error_In in E. unfold all_dead in Hs.
    rewrite Forall_forall in Hs. now rewrite (Hs o E). }
  assert (Hlen : length (w_secs w') = length (w_secs w)).
  { rewrite <- (length_map (with_v E_LEAK) (w_secs w')), Hsecs. apply length_map. }
  split; [exact Hlen|].
  intros i c Hc.
  destruct (nth_error (w_secs w') i) as [c'|] eqn:E.
  - exists c'. split; [reflexivity|].
    assert (H : nth_error (map (with_v E_LEAK) (w_secs w')) i =
                nth_error (map (with_v E_LEAK) (w_secs w)) i) by now rewrite Hsecs.
    rewrite !nth_error_map, E, Hc in H. cbn [option_map] in H.
    apply with_v_same with (x := E_LEAK). congruence.
  - apply nth_error_None in E.
    assert (i < length (w_secs w))%nat by (apply nth_error_Some; congruence). lia.
Qed.

Lemma find_threshold_releases_witness :
  exists res w',
    find_threshold (echo 300%float) Demo.fiber Demo.tvec Demo.pulse
      0%float 1000%float 0.01%float 20 None Demo.world = (Ok res, w') /\
    w_plays w' = [] /\ w_recs w' = [].
Proof.
  destruct (@find_threshold_releases float Binary64.std (echo 300%float)
              Demo.fiber Demo.tvec Demo.pulse 0%float 1000%float 0.01%float 20
              None Demo.world 4 8 2%float demo_ready)
    as (res & w' & Hrun & Hp & Hr & _).
  exists res, w'. repeat split; assumption.
Defined.

(** X3. [find_threshold] is repeatable: called again with the same
    arguments on the store the first call has left, it returns the same
    result. *)
Theorem find_threshold_repeatable {F : Type} {SF : Scalar F} (solver : Solver F)
  (fiber : Fiber) (tvec base : list F) (lo hi tol : F) (max_iters : Z)
  (ridx : option Z) (w : World F) (nd rsec : nat) (tl : F) :
  Ready fiber tvec ridx w nd rsec tl ->
  exists res w1 w2,
    find_threshold solver fiber tvec base lo hi tol max_iters ridx w = (Ok res, w1) /\
    find_threshold solver fiber tvec base lo hi tol max_iters ridx w1 = (Ok res, w2).
Proof.
  intros Hready.
  destruct (@find_threshold_threshold F SF solver fiber tvec base lo hi tol
              max_iters ridx w nd rsec tl (w_secs w) Hready eq_refl)
    as (w1 & Hrun1 & Hq1 & Hsecs1 & _).
  assert (Hready1 : Ready fiber tvec ridx w1 nd rsec tl).
  { destruct Hready as [_ Hmid Hrec Hlast]. constructor; assumption. }
  destruct (@find_threshold_threshold F SF solver fiber tvec base lo hi tol
              max_iters ridx w1 nd rsec tl (w_secs w) Hready1 Hsecs1)
    as (w2 & Hrun2 & _).
  eexists _, w1, w2. split; [exact Hrun1 | exact Hrun2].
Qed.

Lemma find_threshold_repeatable_witness :
  exists res w1 w2,
    find_threshold (echo 300%float) Demo.fiber Demo.tvec Demo.pulse
      0%float 1000%float 0.01%float 20 None Demo.world = (Ok res, w1) /\
    find_threshold (echo 300%float) Demo.fiber Demo.tvec Demo.pulse
      0%float 1000%float 0.01%float 20 None w1 = (Ok res, w2).
Proof.
  exact (@find_threshold_repeatable float Binary64.std (echo 300%float)
           Demo.fiber Demo.tvec Demo.pulse 0%float 1000%float 0.01%float 20
           None Demo.world 4 8 2%float demo_ready).
Defined.

(** X4. [find_threshold] overwrites the global step and stop time of the
    simulator: when it returns, [h.dt] is 0.025 and [h.tstop] is
    [tvec[-1] + 5.0], whatever they were. *)
Theorem find_threshold_clock {F : Type} {SF : Scalar F} (solver : Solver F)
  (fiber : Fiber) (tvec base : list F) (lo hi tol : F) (max_iters : Z)
  (ridx : option Z) (w : World F) (nd rsec : nat) (tl : F) :
  Ready fiber tvec ridx w nd rsec tl ->
  exists res w',
    find_threshold solver fiber tvec base lo hi tol max_iters ridx w = (Ok res, w') /\
    w_dt w' = lit 0.025 /\ w_tstop w' = fadd tl (lit 5.0).
Proof.
  intros Hready.
  destruct (@find_threshold_threshold F SF solver fiber tvec base lo hi tol
              max_iters ridx w nd rsec tl (w_secs w) Hready eq_refl)
    as (w' & Hrun & _ & _ & Hdt & Hts & _).
  eexists _, w'. split; [exact Hrun|]. split; assumption.
Qed.

Lemma find_threshold_clock_witness :
  exists res w',
    find_threshold (echo 300%float) Demo.fiber Demo.tvec Demo.pulse
      0%float 1000%float 0.01%float 20 None Demo.world = (Ok res, w') /\
    w_dt w' = 0.025%float /\ w_tstop w' = 7%float.
Proof.
  exact (@find_threshold_clock float Binary64.std (echo 300%float)
           Demo.fiber Demo.tvec Demo.pulse 0%float 1000%float 0.01%float 20
           None Demo.world 4 8 2%float demo_ready).
Defined.

(** X5. Whatever the bracket, [find_threshold] runs the solver at least
    once and at most [max_iters + 2] times, exactly once when it returns
    [None]; and it prints the warning when it returns [None] and nothing
    otherwise. *)
Theorem find_threshold_cost {F : Type} {SF : Scalar F} (solver : Solver F)
  (fiber : Fiber) (tvec base : list F) (lo hi tol : F) (max_iters : Z)
  (ridx : option Z) (w : World F) (nd rsec : nat) (tl : F) :
  Ready fiber tvec ridx w nd rsec tl ->
  exists res w',
    find_threshold solver fiber tvec base lo hi tol max_iters ridx w = (Ok res, w') /\
    (length (w_runs w) + 1 <= length (w_runs w'))%nat /\
    (length (w_runs w') <= length (w_runs w) + 2 + Z.to_nat max_iters)%nat /\
    (res = None -> length (w_runs w') = length (w_runs w) + 1)%nat /\
    w_out w' = (w_out w ++ match res with
                           | None => [warning]
                           | Some _ => []
                           end)%list.
Proof.
  intros Hready.
  destruct (fires_at solver (w_secs w) nd rsec tvec base tl hi) eqn:Hhi;
    [destruct (fires_at solver (w_secs w) nd rsec tvec base tl lo) eqn:Hlo|].
  - destruct (@find_threshold_lower F SF solver fiber tvec base ridx w nd rsec tl
                Hready lo hi tol max_iters Hhi Hlo) as (w' & Hrun & Hruns & Hout).
    eexists _, w'. split; [exact Hrun|].
    rewrite Hruns, Hout, length_app, app_nil_r. cbn [length].
    repeat split; try lia. discriminate.
  - destruct (@find_threshold_loop F SF solver fiber tvec base ridx w nd rsec tl
                Hready lo hi tol max_iters Hhi Hlo)
      as (k & w' & Hrun & (Hk & _) & Hruns & Hout).
    eexists _, w'. split; [exact Hrun|].
    rewrite Hruns, Hout, length_app, length_map, app_nil_r. cbn [length].
    unfold midpoints. rewrite length_map, length_seq.
    repeat split; try lia. discriminate.
  - destruct (@find_threshold_not_found F SF solver fiber tvec base ridx w nd rsec
                tl Hready lo hi tol max_iters Hhi) as (w' & Hrun & Hruns & Hout).
    eexists _, w'. split; [exact Hrun|].
    rewrite Hruns, Hout, length_app. cbn [length].
    repeat split; try lia.
Qed.

Lemma find_threshold_cost_witness :
  exists res w',
    find_threshold (echo 300%float) Demo.fiber Demo.tvec Demo.pulse
      0%float 1000%float 0.01%float 20 None Demo.world = (Ok res, w') /\
    (length (w_runs w') <= 22)%nat.
Proof.
  destruct (@find_threshold_cost float Binary64.std (echo 300%float)
              Demo.fiber Demo.tvec Demo.pulse 0%float 1000%float 0.01%float 20
              None Demo.world 4 8 2%float demo_ready)
    as (res & w' & Hrun & _ & Hle & _).
  exists res, w'. split; [exact Hrun | exact Hle].
Defined.

(** ** Edge cases of the search *)

(** X6. With [scale_lo = scale_hi = s] the loop is never entered:
    [find_threshold] returns [s] when [s] fires and [None] when it does
    not, after at most two runs. *)
Theorem find_threshold_point_bracket {F : Type} {SF : Scalar F} (solver : Solver F)
  (fiber : Fiber) (tvec base : list F) (s tol : F) (max_iters : Z)
  (ridx : option Z) (w : World F) (nd rsec : nat) (tl : F) :
  Ready fiber tvec ridx w nd rsec tl ->
  exists res w',
    find_threshold solver fiber tvec base s s tol max_iters ridx w = (Ok res, w') /\
    res = (if fires_at solver (w_secs w) nd rsec tvec base tl s then Some s else None) /\
    (length (w_runs w') <= length (w_runs w) + 2)%nat.
Proof.
  intros Hready.
  destruct (fires_at solver (w_secs w) nd rsec tvec base tl s) eqn:Hs.
  - destruct (@find_threshold_lower F SF solver fiber tvec base ridx w nd rsec tl
                Hready s s tol max_iters Hs Hs) as (w' & Hrun & Hruns & _).
    eexists _, w'. split; [exact Hrun|]. split; [reflexivity|].
    rewrite Hruns, length_app. cbn [length]. lia.
  - destruct (@find_threshold_not_found F SF solver fiber tvec base ridx w nd rsec
                tl Hready s s tol max_iters Hs) as (w' & Hrun & Hruns & _).
    eexists _, w'. split; [exact Hrun|]. split; [reflexivity|].
    rewrite Hruns, length_app. cbn [length]. lia.
Qed.

Lemma find_threshold_point_bracket_witness :
  exists w',
    find_threshold (echo 300%float) Demo.fiber Demo.tvec Demo.pulse
      400%float 400%float 0.01%float 20 None Demo.world = (Ok (Some 400%float), w').
Proof.
  destruct (@find_threshold_point_bracket float Binary64.std (echo 300%float)
              Demo.fiber Demo.tvec Demo.pulse 400%float 0.01%float 20
              None Demo.world 4 8 2%float demo_ready)
    as (res & w' & Hrun & Hres & _).
  exists w'. rewrite Hrun, Hres. reflexivity.
Defined.

(** X7. With [max_iters <= 0] and a bracket whose upper end fires and
    whose lower end does not, [find_threshold] returns [scale_hi] as it
    is, after the two runs of the ends. *)
Theorem find_threshold_no_iterations {F : Type} {SF : Scalar F} (solver : Solver F)
  (fiber : Fiber) (tvec base : list F) (lo hi tol : F) (max_iters : Z)
  (ridx : option Z) (w : World F) (nd rsec : nat) (tl : F) :
  Ready fiber tvec ridx w nd rsec tl ->
  fires_at solver (w_secs w) nd rsec tvec base tl hi = true ->
  fires_at solver (w_secs w) nd rsec tvec base tl lo = false ->
  (max_iters <= 0)%Z ->
  exists w',
    find_threshold solver fiber tvec base lo hi tol max_iters ridx w =
      (Ok (Some hi), w') /\
    w_runs w' = (w_runs w ++ [trial_input (w_secs w) nd tvec base tl hi;
                              trial_input (w_secs w) nd tvec base tl lo])%list.
Proof.
  intros Hready Hhi Hlo Hmax.
  destruct (@find_threshold_loop F SF solver fiber tvec base ridx w nd rsec tl
              Hready lo hi tol max_iters Hhi Hlo)
    as (k & w' & Hrun & (Hk & _) & Hruns & _).
  assert (k = 0%nat) by lia. subst k.
  exists w'. split; [exact Hrun | exact Hruns].
Qed.

Lemma find_threshold_no_iterations_witness :
  exists w',
    find_threshold (echo 300%float) Demo.fiber Demo.tvec Demo.pulse
      0%float 1000%float 0.01%float 0 None Demo.world = (Ok (Some 1000%float), w').
Proof.
  assert (H : (0 <= 0)%Z) by lia.
  destruct (@find_threshold_no_iterations float Binary64.std (echo 300%float)
              Demo.fiber Demo.tvec Demo.pulse 0%float 1000%float 0.01%float 0
              None Demo.world 4 8 2%float demo_ready)
    as (w' & Hrun & _).
  - vm_compute. reflexivity.
  - vm_compute. reflexivity.
  - exact H.
  - exists w'. exact Hrun.
Defined.

(** X8. In binary64, a tolerance that is NaN never stops the loop: with a
    bracket whose upper end fires and whose lower end does not, all
    [max_iters] iterations are run, and the solver runs
    [max_iters + 2] times. *)
Theorem find_threshold_nan_tolerance (pow05 : float -> float)
  (solver : Solver float) (fiber : Fiber) (tvec base : list float)
  (lo hi tol : float) (max_iters : Z) (ridx : option Z) (w : World float)
  (nd rsec : nat) (tl : float) :
  let B := Binary64.scalar pow05 in
  let fires := @fires_at float B solver (w_secs w) nd rsec tvec base tl in
  @Ready float fiber tvec ridx w nd rsec tl ->
  fires hi = true -> fires lo = false ->
  @is_nan float B tol = true ->
  exists w',
    @find_threshold float B solver fiber tvec base lo hi tol max_iters ridx w =
      (Ok (Some (snd (@narrowed float B fires (Z.to_nat max_iters) (lo, hi)))), w') /\
    length (w_runs w') = (length (w_runs w) + 2 + Z.to_nat max_iters)%nat.
Proof.
  intros B fires Hready Hhi Hlo Hnan.
  destruct (@find_threshold_loop float B solver fiber tvec base ridx w nd rsec tl
              Hready lo hi tol max_iters Hhi Hlo)
    as (k & w' & Hrun & (Hk & _ & Hstop) & Hruns & _).
  assert (Hk' : k = Z.to_nat max_iters).
  { destruct (Nat.eq_dec k (Z.to_nat max_iters)) as [E|E]; [exact E|].
    destruct Hstop as [_ Hlt]; [lia|].
    cbn [fltb B Binary64.scalar] in Hlt.
    rewrite (@b64_ltb_nan pow05 _ tol Hnan) in Hlt. discriminate. }
  subst k. exists w'. split; [exact Hrun|].
  rewrite Hruns, length_app, length_map. cbn [length].
  unfold midpoints. rewrite length_map, length_seq. lia.
Qed.

Lemma find_threshold_nan_tolerance_witness :
  exists w',
    find_threshold (echo 300%float) Demo.fiber Demo.tvec Demo.pulse
      0%float 1000%float nan 5 None Demo.world =
      (Ok (Some 312.5%float), w') /\
    length (w_runs w') = 7%nat.
Proof.
  destruct (@find_threshold_nan_tolerance PrimFloat.sqrt (echo 300%float)
              Demo.fiber Demo.tvec Demo.pulse 0%float 1000%float nan 5
              None Demo.world 4 8 2%float demo_ready)
    as (w' & Hrun & Hlen).
  - vm_compute. reflexivity.
  - vm_compute. reflexivity.
  - vm_compute. reflexivity.
  - exists w'. split; [|exact Hlen].
    etransitivity; [exact Hrun|]. do 3 f_equal.
Defined.

(** X9. In binary64, when the potential recorded in the trial of
    [scale_hi] holds a NaN, the trial counts as not firing:
    [find_threshold] prints the warning and returns [None]. *)
Theorem find_threshold_nan_trace (pow05 : float -> float)
  (solver : Solver float) (fiber : Fiber) (tvec base : list float)
  (lo hi tol : float) (max_iters : Z) (ridx : option Z) (w : World float)
  (nd rsec : nat) (tl x : float) :
  let B := Binary64.scalar pow05 in
  let tr := trace solver (@trial_input float B (w_secs w) nd tvec base tl hi)
                  (Ref_v rsec (@lit float B 0.5)) in
  @Ready float fiber tvec ridx w nd rsec tl ->
  In x (fst tr :: snd tr) -> @is_nan float B x = true ->
  exists w',
    @find_threshold float B solver fiber tvec base lo hi tol max_iters ridx w =
      (Ok None, w') /\
    w_out w' = (w_out w ++ [warning])%list.
Proof.
  intros B tr Hready Hin Hx.
  assert (Hhi : @fires_at float B solver (w_secs w) nd rsec tvec base tl hi = false).
  { exact (@nan_not_fires pow05 solver (w_secs w) nd rsec tvec base tl hi x Hin Hx). }
  destruct (@find_threshold_not_found float B solver fiber tvec base ridx w nd rsec
              tl Hready lo hi tol max_iters Hhi) as (w' & Hrun & _ & Hout).
  exists w'. split; [exact Hrun | exact Hout].
Qed.

Lemma find_threshold_nan_trace_witness :
  exists w',
    find_threshold diverged Demo.fiber Demo.tvec Demo.pulse
      0%float 1000%float 0.01%float 20 None Demo.world = (Ok None, w').
Proof.
  destruct (@find_threshold_nan_trace PrimFloat.sqrt diverged
              Demo.fiber Demo.tvec Demo.pulse 0%float 1000%float 0.01%float 20
              None Demo.world 4 8 2%float nan demo_ready)
    as (w' & Hrun & _).
  - left. reflexivity.
  - reflexivity.
  - exists w'. exact Hrun.
Defined.

(** ** Errors of the search *)

(** X10. A fiber built with [n_nodes <= 0] has no node, and searching its
    threshold raises [IndexError] at [nodes[rec_idx]], before anything is
    created in the simulator: the store is the one before the fiber was
    built. *)
Theorem find_threshold_no_nodes {F : Type} {SF : Scalar F} (solver : Solver F)
  (d : F) (n : Z) (tvec base : list F) (lo hi tol : F) (max_iters : Z)
  (ridx : option Z) (w : World F) :
  (n <= 0)%Z ->
  bind (make_MRG_fiber d n)
       (fun fiber => find_threshold solver fiber tvec base lo hi tol max_iters ridx) w
  = (Raise IndexError, w).
Proof.
  intros Hn. unfold bind at 1. rewrite make_MRG_fiber_built.
  replace (Z.to_nat n) with 0%nat by lia.
  assert (Hw : built d n w = w).
  { unfold built. replace (Z.to_nat n) with 0%nat by lia.
    destruct w as [secs stims vecs plays recs t dt tstop runs out].
    unfold on_secs. cbn. now rewrite app_nil_r. }
  rewrite Hw. apply find_threshold_no_record.
  unfold fiber_at, ids. cbn [seq map nodes]. apply index_of_nil.
Qed.

Lemma find_threshold_no_nodes_witness :
  bind (@make_MRG_fiber float Binary64.std 5%float 0)
       (fun fiber => find_threshold (echo 300%float) fiber Demo.tvec Demo.pulse
                       0%float 1000%float 0.01%float 20 None)
       (@fresh float Binary64.std)
  = (Raise IndexError, @fresh float Binary64.std).
Proof.
  assert (H : (0 <= 0)%Z) by lia.
  exact (@find_threshold_no_nodes float Binary64.std (echo 300%float) 5%float 0
           Demo.tvec Demo.pulse 0%float 1000%float 0.01%float 20 None
           (@fresh float Binary64.std) H).
Defined.

(** X11. [record_node_index] is a Python index into the nodes: [-1] is
    the default (the last node); a negative index [i] no less than
    [-len(nodes)] records at the node [i + len(nodes)]; and an index out
    of range raises [IndexError] before anything is created in the
    simulator. *)
Theorem find_threshold_record_index {F : Type} {SF : Scalar F} (solver : Solver F)
  (fiber : Fiber) (tvec base : list F) (lo hi tol : F) (max_iters : Z)
  (w : World F) :
  let run := find_threshold solver fiber tvec base lo hi tol max_iters in
  run (Some (-1)%Z) w = run None w /\
  (forall i, (- len (nodes fiber) <= i < 0)%Z ->
     run (Some i) w = run (Some (i + len (nodes fiber))%Z) w) /\
  (forall i, (i < - len (nodes fiber) \/ len (nodes fiber) <= i)%Z ->
     run (Some i) w = (Raise IndexError, w)).
Proof.
  cbv zeta. split; [|split].
  - apply find_threshold_rec_index. cbn [rec_index]. apply index_of_last.
  - intros i Hi. apply find_threshold_rec_index. cbn [rec_index].
    now apply index_of_negative.
  - intros i Hi. apply find_threshold_no_record. cbn [rec_index].
    now apply index_of_out.
Qed.

(** X12. With an empty [tvec_ms], [find_threshold] raises [IndexError] at
    [tvec_ms[-1]] in its first trial: the stimulus of that trial has been
    attached, no run has been made and nothing has been printed. *)
Theorem find_threshold_empty_tvec {F : Type} {SF : Scalar F} (solver : Solver F)
  (fiber : Fiber) (base : list F) (lo hi tol : F) (max_iters : Z)
  (ridx : option Z) (w : World F) (nd rsec : nat) :
  index_of (nodes fiber) (mid_idx fiber) = Some nd ->
  index_of (nodes fiber) (rec_index fiber ridx) = Some rsec ->
  exists w',
    find_threshold solver fiber [] base lo hi tol max_iters ridx w =
      (Raise IndexError, w') /\
    w_runs w' = w_runs w /\ w_out w' = w_out w /\
    w_stims w' = (w_stims w ++ [Some (stim_at nd)])%list.
Proof.
  intros Hmid Hrec.
  unfold find_threshold, py_index. rewrite Hrec.
  unfold bind at 1. unfold ret at 1. unfold bind at 1.
  rewrite record_section_v_run.
  unfold bind at 1. unfold search. unfold bind at 1.
  unfold test_scale at 1. unfold py_index. rewrite Hmid.
  unfold bind at 1. unfold ret at 1.
  unfold bind at 1. rewrite attach_vector_stim_run.
  rewrite index_of_nil. unfold bind at 1. unfold raise.
  eexists. split; [reflexivity|]. cbn. auto.
Qed.

Lemma find_threshold_empty_tvec_witness :
  exists w',
    find_threshold (echo 300%float) Demo.fiber [] Demo.pulse
      0%float 1000%float 0.01%float 20 None Demo.world = (Raise IndexError, w') /\
    w_runs w' = [].
Proof.
  destruct (@find_threshold_empty_tvec float Binary64.std (echo 300%float)
              Demo.fiber Demo.pulse 0%float 1000%float 0.01%float 20 None
              Demo.world 4 8 eq_refl eq_refl) as (w' & Hrun & Hr & _).
  exists w'. split; [exact Hrun | exact Hr].
Defined.

(** X13. A fiber built by [make_MRG_fiber] with at least one node is one
    [find_threshold] can search: when [make_MRG_fiber] has returned on a
    quiet store and [find_threshold], called with the fiber, a non-empty
    [tvec_ms] and the default recording node, has returned, the
    stimulation node [n // 2] and the recording node [n - 1] exist, the
    result is the threshold of the response of the sections just built,
    and the store is quiet again with as many sections. *)
Theorem build_then_search {F : Type} {SF : Scalar F} (solver : Solver F)
  (d : F) (n : Z) (tvec base : list F) (lo hi tol : F) (max_iters : Z)
  (w w1 w2 : World F) (fiber : Fiber) (res : option F) :
  Quiescent w -> (1 <= n)%Z -> tvec <> [] ->
  make_MRG_fiber d n w = (Ok fiber, w1) ->
  find_threshold solver fiber tvec base lo hi tol max_iters None w1 = (Ok res, w2) ->
  exists nd rsec tl,
    index_of (nodes fiber) (n / 2) = Some nd /\
    index_of (nodes fiber) (n - 1) = Some rsec /\
    index_of tvec (-1) = Some tl /\
    res = threshold (fires_at solver (w_secs w1) nd rsec tvec base tl) lo hi tol max_iters /\
    Quiescent w2 /\ length (w_secs w2) = length (w_secs w1).
Proof.
  intros Hq Hn Htv Hmake Hfind.
  rewrite make_MRG_fiber_built in Hmake. inversion Hmake; subst fiber w1; clear Hmake.
  destruct (index_of_nonempty Htv) as (tl & Htl).
  pose proof (@fiber_at_ready F (length (w_secs w)) (Z.to_nat n) tvec
                (built d n w) tl ltac:(lia) (@built_quiescent F SF d n w Hq) Htl)
    as Hready.
  destruct (@find_threshold_threshold F SF solver _ tvec base lo hi tol
              max_iters None _ _ _ tl (w_secs (built d n w)) Hready eq_refl)
    as (w2' & Hrun & Hq2 & Hsecs & _).
  rewrite Hrun in Hfind. inversion Hfind; subst res w2'; clear Hfind.
  eexists _, _, tl.
  split; [|split; [|split; [exact Htl|split; [reflexivity|split; [exact Hq2|]]]]].
  - pose proof (rd_mid Hready) as H. cbn [fiber_at mid_idx] in H.
    rewrite Z2Nat.id in H by lia. exact H.
  - pose proof (rd_rec Hready) as H. cbn [fiber_at rec_index nodes] in H |- *.
    unfold len in H. rewrite ids_length, Z2Nat.id in H by lia. exact H.
  - rewrite <- (length_map (with_v E_LEAK) (w_secs w2)), Hsecs. apply length_map.
Qed.

Lemma build_then_search_witness :
  exists nd rsec tl,
    index_of (nodes Demo.fiber) (3 / 2) = Some nd /\
    index_of (nodes Demo.fiber) (3 - 1) = Some rsec /\
    index_of Demo.tvec (-1) = Some tl /\
    Some 300.0030517578125%float =
      threshold (fires_at (echo 300%float) (w_secs Demo.world) nd rsec Demo.tvec
                   Demo.pulse tl) 0%float 1000%float 0.01%float 20.
Proof.
  assert (Hq : @Quiescent float (@fresh float Binary64.std)).
  { constructor; [reflexivity | constructor | reflexivity]. }
  assert (Hn : (1 <= 3)%Z) by lia.
  assert (Ht : Demo.tvec <> []) by discriminate.
  assert (Hm : @make_MRG_fiber float Binary64.std 5%float 3 (@fresh float Binary64.std) =
               (Ok Demo.fiber, Demo.world)) by (vm_compute; reflexivity).
  assert (Hf : find_threshold (echo 300%float) Demo.fiber Demo.tvec Demo.pulse
                 0%float 1000%float 0.01%float 20 None Demo.world =
               (Ok (Some 300.0030517578125%float),
                snd (find_threshold (echo 300%float) Demo.fiber Demo.tvec Demo.pulse
                       0%float 1000%float 0.01%float 20 None Demo.world)))
    by (vm_compute; reflexivity).
  destruct (@build_then_search float Binary64.std (echo 300%float) 5%float 3
              Demo.tvec Demo.pulse 0%float 1000%float 0.01%float 20
              (@fresh float Binary64.std) _ _ _ _ Hq Hn Ht Hm Hf)
    as (nd & rsec & tl & H1 & H2 & H3 & H4 & _).
  exists nd, rsec, tl. repeat split; assumption.
Defined.

(** ** The search in binary64 *)





(** X16. In binary64, with the recording [find_threshold] sets up, when
    a trial returns, it returns [True] exactly when no sample of the
    potential recorded in its run is NaN and at least one sample is
    above 0. *)
Theorem test_scale_detects (pow05 : float -> float) (solver : Solver float)
  (fiber : Fiber) (tvec base : list float) (ridx : option Z) (w : World float)
  (nd rsec : nat) (tl s : float) :
  let B := Binary64.scalar pow05 in
  let tr := trace solver (@trial_input float B (w_secs w) nd tvec base tl s)
                  (Ref_v rsec (@lit float B 0.5)) in
  @Ready float fiber tvec ridx w nd rsec tl ->
  exists (b : bool) (w' : World float),
    @test_scale float B solver (nodes fiber) (mid_idx fiber) tvec base
      (S (length (w_vecs w))) s (snd (@record_section_v float B rsec w)) =
      (Ok b, w') /\
    (b = true <->
     (forall x, In x (fst tr :: snd tr) -> @is_nan float B x = false) /\
     (exists x, In x (fst tr :: snd tr) /\ PrimFloat.ltb 0 x = true)).
Proof.
  intros B tr Hready.
  destruct (@call_trial float B solver fiber tvec base ridx w nd rsec tl
              Hready s (snd (@record_section_v float B rsec w))
              (@recording_searching float B rsec w (rd_quiet Hready)))
    as (w' & Hrun & _).
  eexists _, w'. split; [exact Hrun|].
  unfold fires_at. fold tr.
  exact (@b64_peak_fires pow05 tr).
Qed.

Lemma test_scale_detects_witness :
  exists (b : bool) (w' : World float),
    test_scale (echo 300%float) (nodes Demo.fiber) (mid_idx Demo.fiber)
      Demo.tvec Demo.pulse (S (length (w_vecs Demo.world))) 400%float
      (snd (@record_section_v float Binary64.std 8 Demo.world)) = (Ok b, w') /\
    b = true.
Proof.
  destruct (@test_scale_detects PrimFloat.sqrt (echo 300%float) Demo.fiber Demo.tvec
              Demo.pulse None Demo.world 4 8 2%float 400%float demo_ready)
    as (b & w' & Hrun & Hiff).
  exists b, w'. split; [exact Hrun|].
  apply Hiff. split.
  - intros x Hx. cbn in Hx.
    repeat (destruct Hx as [<-|Hx]; [reflexivity|]). destruct Hx.
  - exists 100%float. split; [|reflexivity]. cbn. right. right. left. reflexivity.
Defined.

(** ** The fiber *)

(** X17. [make_MRG_fiber] touches nothing but the sections it creates:
    the sections the store held are unchanged, the handles it returns are
    those of new sections, and the point processes, the Vectors, what is
    playing and recording, the clock, the history and the output are
    unchanged. *)
Theorem make_MRG_fiber_frame {F : Type} {SF : Scalar F} (d : F) (n : Z)
  (w : World F) :
  exists fiber w',
    make_MRG_fiber d n w = (Ok fiber, w') /\
    firstn (length (w_secs w)) (w_secs w') = w_secs w /\
    (forall id, In id (compartments fiber) ->
       (length (w_secs w) <= id < length (w_secs w'))%nat) /\
    w_stims w' = w_stims w /\ w_vecs w' = w_vecs w /\
    w_plays w' = w_plays w /\ w_recs w' = w_recs w /\
    w_t w' = w_t w /\ w_dt w' = w_dt w /\ w_tstop w' = w_tstop w /\
    w_runs w' = w_runs w /\ w_out w' = w_out w.
Proof.
  exists (fiber_at (length (w_secs w)) (Z.to_nat n)), (built d n w).
  split; [apply make_MRG_fiber_built|].
  destruct (built_frame d n w) as (H1 & H2).
  split; [exact H1|]. split; [|exact H2].
  intros id Hin. rewrite built_length. now apply compartment_bounds.
Qed.

(** X18. Two fibers built one after the other share no section, and
    building the second leaves every section of the first as it was,
    its wiring included. *)
Theorem make_MRG_fiber_twice {F : Type} {SF : Scalar F} (d1 d2 : F) (n1 n2 : Z)
  (w : World F) :
  exists f1 w1 f2 w2,
    make_MRG_fiber d1 n1 w = (Ok f1, w1) /\
    make_MRG_fiber d2 n2 w1 = (Ok f2, w2) /\
    (forall id, In id (compartments f1) ->
       ~ In id (compartments f2) /\
       nth_error (w_secs w1) id <> None /\
       nth_error (w_secs w2) id = nth_error (w_secs w1) id).
Proof.
  exists (fiber_at (length (w_secs w)) (Z.to_nat n1)), (built d1 n1 w),
         (fiber_at (length (w_secs (built d1 n1 w))) (Z.to_nat n2)),
         (built d2 n2 (built d1 n1 w)).
  split; [apply make_MRG_fiber_built|]. split; [apply make_MRG_fiber_built|].
  intros id Hin. apply compartment_bounds in Hin.
  rewrite <- built_length with (d := d1) in Hin.
  split; [|split].
  - intros Hin2. apply compartment_bounds in Hin2. lia.
  - apply nth_error_Some. lia.
  - apply built_old. lia.
Qed.

(** X19. [mid_idx] is [len(nodes) // 2], and the node [i] of a fiber is
    named [node_i], is 1 long, has capacitance 1 and carries the [hh]
    mechanism with the conductances 0.18, 0.036 and 0.0003 and the leak
    reversal potential -80 of the module, and no passive mechanism: the
    four assignments under [try] all take effect. *)
Theorem make_MRG_fiber_nodes {F : Type} {SF : Scalar F} (d : F) (n : Z)
  (w : World F) :
  exists fiber w',
    make_MRG_fiber d n w = (Ok fiber, w') /\
    mid_idx fiber = (len (nodes fiber) / 2)%Z /\
    (forall i, (0 <= i < n)%Z ->
       exists nd c,
         index_of (nodes fiber) i = Some nd /\
         nth_error (w_secs w') nd = Some c /\
         sec_name c = fstring "node_" i /\
         sec_L c = lit 1.0 /\ sec_cm c = lit 1.0 /\
         sec_hh c = Some (mkHH (lit 0.18) (lit 0.036) (lit 0.0003) (lit (-80.0))) /\
         sec_pas c = None).
Proof.
  exists (fiber_at (length (w_secs w)) (Z.to_nat n)), (built d n w).
  split; [apply make_MRG_fiber_built|]. split.
  { cbn [fiber_at mid_idx nodes]. unfold len. now rewrite ids_length. }
  intros i Hi.
  destruct (@built_node F SF d n w (Z.to_nat i))
    as (c & Hc & Hname & HL & Hcm & Hhh & Hpas); [lia|].
  rewrite Z2Nat.id in Hname by lia.
  exists (length (w_secs w) + 4 * Z.to_nat i + 0)%nat, c.
  split.
  { cbn [fiber_at nodes]. rewrite <- (Z2Nat.id i) at 1 by lia.
    apply index_of_ids. lia. }
  repeat split; assumption.
Qed.

(** X20. The paranode, the juxtaparanode and the internode [i] of a fiber
    are named [paranode_i], [juxta_i] and [intern_i], and their lengths
    are those the geometry rules give for the diameter of the fiber. *)
Theorem make_MRG_fiber_lengths {F : Type} {SF : Scalar F} (d : F) (n : Z)
  (w : World F) :
  exists fiber w',
    make_MRG_fiber d n w = (Ok fiber, w') /\
    (forall i, (0 <= i < n - 1)%Z ->
       exists pn jx it cp cj ci,
         index_of (paranos fiber) i = Some pn /\
         index_of (juxtas fiber) i = Some jx /\
         index_of (interns fiber) i = Some it /\
         nth_error (w_secs w') pn = Some cp /\
         nth_error (w_secs w') jx = Some cj /\
         nth_error (w_secs w') it = Some ci /\
         sec_name cp = fstring "paranode_" i /\
         sec_L cp = paranode_length_um d /\
         sec_name cj = fstring "juxta_" i /\
         sec_L cj = juxta_length_um d /\
         sec_name ci = fstring "intern_" i /\
         sec_L ci = internode_length_from_diam d).
Proof.
  exists (fiber_at (length (w_secs w)) (Z.to_nat n)), (built d n w).
  split; [apply make_MRG_fiber_built|].
  intros i Hi.
  assert (Hi' : i = Z.of_nat (Z.to_nat i)) by lia.
  assert (Hk : (S (Z.to_nat i) < Z.to_nat n)%nat) by lia.
  set (k := Z.to_nat i) in *. clearbody k. subst i.
  destruct (@built_passive F SF d n w k 0 Hk) as (cp & Hcp & Hnp & HLp); [lia|].
  destruct (@built_passive F SF d n w k 1 Hk) as (cj & Hcj & Hnj & HLj); [lia|].
  destruct (@built_passive F SF d n w k 2 Hk) as (ci & Hci & Hni & HLi); [lia|].
  cbn [nth kinds] in *.
  exists (length (w_secs w) + 4 * k + 1)%nat, (length (w_secs w) + 4 * k + 2)%nat,
         (length (w_secs w) + 4 * k + 3)%nat, cp, cj, ci.
  cbn [fiber_at paranos juxtas interns].
  rewrite !index_of_ids by lia.
  repeat split; assumption.
Qed.

(** X21. A fiber of at least one node is one unbranched cable rooted at
    its first node: following the parents, the node [i] reaches the
    first node in [4 i] steps, and the paranode, the juxtaparanode and
    the internode [i] in [4 i + 1], [4 i + 2] and [4 i + 3] steps. *)
Theorem make_MRG_fiber_cable {F : Type} {SF : Scalar F} (d : F) (n : Z)
  (w : World F) :
  (1 <= n)%Z ->
  exists fiber w' root,
    make_MRG_fiber d n w = (Ok fiber, w') /\
    index_of (nodes fiber) 0 = Some root /\
    parent_of w' root = None /\
    (forall i, (0 <= i < n)%Z ->
       exists nd,
         index_of (nodes fiber) i = Some nd /\
         ancestor w' (4 * Z.to_nat i) nd = Some root) /\
    (forall i, (0 <= i < n - 1)%Z ->
       exists pn jx it,
         index_of (paranos fiber) i = Some pn /\
         index_of (juxtas fiber) i = Some jx /\
         index_of (interns fiber) i = Some it /\
         ancestor w' (4 * Z.to_nat i + 1) pn = Some root /\
         ancestor w' (4 * Z.to_nat i + 2) jx = Some root /\
         ancestor w' (4 * Z.to_nat i + 3) it = Some root).
Proof.
  intros Hn.
  exists (fiber_at (length (w_secs w)) (Z.to_nat n)), (built d n w),
         (length (w_secs w) + 0)%nat.
  split; [apply make_MRG_fiber_built|].
  split.
  { cbn [fiber_at nodes]. change 0%Z with (Z.of_nat 0).
    rewrite index_of_ids by lia. f_equal; lia. }
  split; [apply built_root; lia|].
  split.
  - intros i Hi.
    assert (Hi' : i = Z.of_nat (Z.to_nat i)) by lia.
    assert (Hk : (Z.to_nat i < Z.to_nat n)%nat) by lia.
    set (k := Z.to_nat i) in *. clearbody k. subst i.
    exists (length (w_secs w) + 4 * k + 0)%nat.
    cbn [fiber_at nodes]. rewrite index_of_ids by lia.
    split; [reflexivity|].
    replace (length (w_secs w) + 4 * k + 0)%nat
      with (length (w_secs w) + 4 * k)%nat by lia.
    rewrite built_ancestor by lia. f_equal; lia.
  - intros i Hi.
    assert (Hi' : i = Z.of_nat (Z.to_nat i)) by lia.
    assert (Hk : (S (Z.to_nat i) < Z.to_nat n)%nat) by lia.
    set (k := Z.to_nat i) in *. clearbody k. subst i.
    exists (length (w_secs w) + 4 * k + 1)%nat, (length (w_secs w) + 4 * k + 2)%nat,
           (length (w_secs w) + 4 * k + 3)%nat.
    cbn [fiber_at paranos juxtas interns]. rewrite !index_of_ids by lia.
    repeat (split; [reflexivity|]).
    replace (length (w_secs w) + 4 * k + 1)%nat
      with (length (w_secs w) + (4 * k + 1))%nat by lia.
    replace (length (w_secs w) + 4 * k + 2)%nat
      with (length (w_secs w) + (4 * k + 2))%nat by lia.
    replace (length (w_secs w) + 4 * k + 3)%nat
      with (length (w_secs w) + (4 * k + 3))%nat by lia.
    rewrite !built_ancestor by lia.
    repeat split; f_equal; lia.
Qed.

Lemma make_MRG_fiber_cable_witness :
  exists fiber w' root,
    @make_MRG_fiber float Binary64.std 5%float 3 (@fresh float Binary64.std) =
      (Ok fiber, w') /\
    index_of (nodes fiber) 0 = Some root /\
    parent_of w' root = None.
Proof.
  assert (H : (1 <= 3)%Z) by lia.
  destruct (@make_MRG_fiber_cable float Binary64.std 5%float 3
              (@fresh float Binary64.std) H)
    as (fiber & w' & root & Hrun & Hroot & Hp & _).
  exists fiber, w', root. repeat split; assumption.
Defined.

(** X22. No two sections of a fiber have the same name. *)
Theorem make_MRG_fiber_names {F : Type} {SF : Scalar F} (d : F) (n : Z)
  (w : World F) :
  exists fiber w',
    make_MRG_fiber d n w = (Ok fiber, w') /\
    (forall a b ca cb,
       In a (compartments fiber) -> In b (compartments fiber) ->
       nth_error (w_secs w') a = Some ca -> nth_error (w_secs w') b = Some cb ->
       sec_name ca = sec_name cb -> a = b).
Proof.
  exists (fiber_at (length (w_secs w)) (Z.to_nat n)), (built d n w).
  split; [apply make_MRG_fiber_built|].
  intros a b ca cb Ha Hb Hca Hcb Hname.
  destruct (@compartment_sec F SF d n w a Ha) as (i & r & c0 & _ & -> & _ & Hc0 & Hsa).
  destruct (@compartment_sec F SF d n w b Hb) as (i' & r' & c0' & _ & -> & _ & Hc0' & Hsb).
  rewrite Hsa in Hca. rewrite Hsb in Hcb. inversion Hca. inversion Hcb. subst ca cb.
  rewrite (proj1 (link_fields _ _ _ c0)), (proj1 (link_fields _ _ _ c0')) in Hname.
  destruct (group_name _ _ _ _ Hc0) as [Hr Hn0].
  destruct (group_name _ _ _ _ Hc0') as [Hr' Hn0'].
  rewrite Hn0, Hn0' in Hname.
  destruct (fstring_inj _ _ Hr Hr' Hname) as [-> Hi]. lia.
Qed.

(** ** The geometry rules in binary64 *)

(** X24. In binary64 the crossover of the internode rule is at 0.5
    exactly: [internode_length_from_diam(d)] is the floor 50.0 for every
    [d <= 0.5], and it is [100.0 * d], strictly above 50.0, for every
    [d > 0.5], the infinite diameter included. *)
Theorem internode_crossover (pow05 : float -> float) (d : float) :
  (PrimFloat.leb d 0.5 = true ->
   @internode_length_from_diam float (Binary64.scalar pow05) d = 50%float) /\
  (PrimFloat.ltb 0.5 d = true ->
   @internode_length_from_diam float (Binary64.scalar pow05) d = (100 * d)%float /\
   PrimFloat.ltb 50 (@internode_length_from_diam float (Binary64.scalar pow05) d) = true).
Proof.
  split.
  - apply b64_internode_floor.
  - intros H. destruct (@b64_internode_slope pow05 d H) as [E L].
    split; [exact E|]. rewrite E. exact L.
Qed.
